(** * Monotonic chunkwise attention (MoChA): a shallow embedding

    Source: [neural_sp/models/modules/mocha.py].

    Tensors are nested lists of real numbers, innermost axis last: a row is
    the key axis ([klen]), a matrix the [qlen x klen] block of one head.
    Arithmetic is exact real arithmetic; what depends on float32 rounding
    (the saturation of [torch.sigmoid]) enters as explicit hypotheses on
    the sigmoid.  Python exceptions are the [Err] results. *)

From Stdlib Require Import String.
From Stdlib Require Import Reals Lra Lia List ZArith Bool Arith.
Import ListNotations.
Open Scope R_scope.

(** ** Errors *)

Inductive error : Type :=
| AssertionError | IndexError | RuntimeError | ValueError | TypeError
| AttributeError | NotImplementedError.

Inductive result (A : Type) : Type :=
| Ok (a : A)
| Err (e : error).
Arguments Ok {A} a.
Arguments Err {A} e.

Definition bind {A B : Type} (r : result A) (k : A -> result B) : result B :=
  match r with
  | Ok a => k a
  | Err e => Err e
  end.

Notation "x <- r ;; k" := (bind r (fun x => k))
  (at level 61, r at next level, right associativity).

Fixpoint mapM {A B : Type} (f : A -> result B) (l : list A) : result (list B) :=
  match l with
  | [] => Ok []
  | a :: t => b <- f a ;; bs <- mapM f t ;; Ok (b :: bs)
  end.

(** ** Tensors *)

Definition row := list R.
Definition mat := list row.
Definition tensor3 := list mat.
Definition tensor4 := list tensor3.
Definition tensor5 := list tensor4.

Definition sum_list (xs : row) : R := fold_right Rplus 0 xs.

Fixpoint zip_with {A B C : Type} (f : A -> B -> C) (xs : list A) (ys : list B)
  : list C :=
  match xs, ys with
  | x :: xs', y :: ys' => f x y :: zip_with f xs' ys'
  | _, _ => []
  end.

Definition dot (xs ys : row) : R := sum_list (zip_with Rmult xs ys).

(** [torch.cumsum(x, dim=-1)] and [torch.cumprod(x, dim=-1)] on one row. *)
Fixpoint cumsum_from (acc : R) (xs : row) : row :=
  match xs with
  | [] => []
  | x :: t => (acc + x) :: cumsum_from (acc + x) t
  end.
Definition cumsum (xs : row) : row := cumsum_from 0 xs.

Fixpoint cumprod_from (acc : R) (xs : row) : row :=
  match xs with
  | [] => []
  | x :: t => (acc * x) :: cumprod_from (acc * x) t
  end.
Definition cumprod (xs : row) : row := cumprod_from 1 xs.

(** [torch.clamp(x, min=lo, max=hi)] is [min(max(x, lo), hi)]. *)
Definition clamp (lo hi x : R) : R := Rmin (Rmax x lo) hi.
(** [torch.clamp(x, min=lo)]. *)
Definition clamp_min (lo x : R) : R := Rmax x lo.

(** ** Numeric primitives *)

(** [exclusive_cumsum]: [cumsum(cat([zeros(..., 1), x[..., :-1]]))]. *)
Definition exclusive_cumsum (x : row) : row := cumsum (0 :: removelast x).

(** [exclusive_cumprod]: [cumprod(cat([ones(..., 1), x[..., :-1]]))]. *)
Definition exclusive_cumprod (x : row) : row := cumprod (1 :: removelast x).

(** [safe_cumprod]: [exp(exclusive_cumsum(log(clamp(x, min=eps, max=1.0))))].
    Over the reals [ln] is total; the definition stands for the code where
    [eps > 0], so that no logarithm of 0 (the code's [-inf]) is taken. *)
Definition safe_cumprod (x : row) (eps : R) : row :=
  map exp (exclusive_cumsum (map ln (map (clamp eps 1) x))).

(** [F.pad(x, pad=[back, forward])] with zeros. *)
Definition pad (x : row) (back forward : nat) : row :=
  repeat 0 back ++ x ++ repeat 0 forward.

(** [F.conv1d] of one channel with one filter, stride 1, no padding: the
    filter may not be longer than the input. *)
Definition conv1d (x filters : row) : result row :=
  if (length x <? length filters)%nat then Err RuntimeError
  else Ok (map (fun j => dot filters (firstn (length filters) (skipn j x)))
               (seq 0 (length x - length filters + 1))).

(** [moving_sum] on one row of the flattened [x.view(-1, klen)]. *)
Definition moving_sum (x : row) (back forward : nat) : result row :=
  let x_padded := pad x back forward in
  let filters := repeat 1 (back + forward + 1) in
  conv1d x_padded filters.

(** The naive sliding-window sum the convolution stands for: position [j]
    holds [sum(x[max(0, j - back) : j + forward + 1])]. *)
Definition naive_moving_sum (x : row) (back forward : nat) : row :=
  map (fun j => sum_list (firstn (j + forward + 1 - (j - back)) (skipn (j - back) x)))
      (seq 0 (length x)).

(** The formula of the specification for [safe_cumprod], with the
    inclusive [torch.cumsum]: [exp(cumsum(log(clamp(x))))]. *)
Definition spec_safe_cumprod (x : row) (eps : R) : row :=
  map exp (cumsum (map ln (map (clamp eps 1) x))).

(** ** Indexing, slicing and broadcasting *)

(** [l[i:i+1]]: one element, or none when [i] is out of range. *)
Definition slice1 {A : Type} (i : nat) (l : list A) : list A :=
  firstn 1 (skipn i l).

(** [m[:, j]] *)
Definition col (j : nat) (m : mat) : row := map (fun r => nth j r 0) m.

Definition set_nth {A : Type} (c : nat) (v : A) (r : list A) : list A :=
  firstn c r ++ v :: skipn (S c) r.

(** Elementwise operation with broadcasting along one axis: equal sizes, or
    one of them 1. *)
Definition bcast {A B C : Type} (f : A -> B -> C) (xs : list A) (ys : list B)
  : result (list C) :=
  match xs, ys with
  | [x], _ => Ok (map (f x) ys)
  | _, [y] => Ok (map (fun x => f x y) xs)
  | _, _ => if (length xs =? length ys)%nat then Ok (zip_with f xs ys)
            else Err RuntimeError
  end.

(** The same for an operation that can fail. *)
Definition bcastM {A B C : Type} (f : A -> B -> result C) (xs : list A)
  (ys : list B) : result (list C) :=
  l <- bcast f xs ys ;; mapM (fun c => c) l.

(** In-place update [t.op_(m)]: [m] is broadcast to the shape of [t]. *)
Definition bcast_to {A B C : Type} (f : A -> B -> result C) (ms : list A)
  (ts : list B) : result (list C) :=
  if (length ms =? length ts)%nat then mapM (fun c => c) (zip_with f ms ts)
  else match ms with
       | [m] => mapM (f m) ts
       | _ => Err RuntimeError
       end.

(** [t[idx] = v] on one row with a Python integer index. *)
Definition setitem (r : row) (idx : Z) (v : R) : result row :=
  let n := Z.of_nat (length r) in
  let k := (if idx <? 0 then idx + n else idx)%Z in
  if ((0 <=? k) && (k <? n))%Z then Ok (set_nth (Z.to_nat k) v r)
  else Err IndexError.

(** [for i in idx: s = body(i, s)] *)
Fixpoint for_each {S : Type} (idx : list nat) (body : nat -> S -> result S)
  (s : S) : result S :=
  match idx with
  | [] => Ok s
  | i :: t => s' <- body i s ;; for_each t body s'
  end.

Definition mapi {A B : Type} (f : nat -> A -> B) (l : list A) : list B :=
  zip_with f (seq 0 (length l)) l.

(** Shapes. *)
Definition is_row (k : nat) (r : row) : bool := (length r =? k)%nat.
Definition is_mat (q k : nat) (m : mat) : bool :=
  (length m =? q)%nat && forallb (is_row k) m.
Definition is_tensor3 (h q k : nat) (t : tensor3) : bool :=
  (length t =? h)%nat && forallb (is_mat q k) t.
Definition is_tensor4 (b h q k : nat) (t : tensor4) : bool :=
  (length t =? b)%nat && forallb (is_tensor3 h q k) t.

(** Padding masks, [ByteTensor]: [true] is a valid position. *)
Definition mask3 := list (list (list bool)).
Definition mask4 := list mask3.

Definition is_mask3 (b q k : nat) (m : mask3) : bool :=
  (length m =? b)%nat &&
  forallb (fun mb => (length mb =? q)%nat &&
                     forallb (fun r => (length r =? k)%nat) mb) m.

(** [NEG_INF = float(np.finfo(np.float32).min)] *)
Definition NEG_INF : R := - ((2 - / 2 ^ 23) * 2 ^ 127).

Definition relu (x : R) : R := Rmax 0 x.

(** [x.view(bs, -1, n_heads, d_k).transpose(2, 1)] for one batch element:
    [[len, n_heads * d_k]] becomes [[n_heads, len, d_k]]. *)
Definition split_heads (n_heads d_k : nat) (x : mat) : tensor3 :=
  map (fun h => map (fun v => firstn d_k (skipn (h * d_k) v)) x) (seq 0 n_heads).

(** [mask.unsqueeze(1).repeat([1, n_heads, 1, 1])] *)
Definition expand_mask (n_heads : nat) (mask : mask3) : mask4 :=
  map (fun mb => repeat mb n_heads) mask.

(** [e.masked_fill_(mask == 0, NEG_INF)] *)
Definition masked_fill_ (mask : mask4) (e : tensor4) : result tensor4 :=
  bcast_to (bcast_to (bcast_to (bcast_to
    (fun (m : bool) (x : R) => Ok (if m then x else NEG_INF))))) mask e.

(** ** Energy functions *)

Inductive attn_type : Type := Add | ScaledDot.

(** The learned layers ([nn.Linear], [CausalConv1d], of other modules) are
    functions on feature vectors and on sequences; [scale] is
    [sqrt(adim)]; [key] and [mask] are the cache. *)
Record MonotonicEnergy : Type := {
  me_atype : attn_type;
  me_n_heads : nat;
  me_d_k : nat;
  me_scale : R;
  me_w_key : row -> row;
  me_w_query : row -> row;
  me_v : row -> row;
  me_r : option R;
  me_conv1d : option (mat -> mat);
  me_key : option tensor4;
  me_mask : option mask4
}.

Definition me_set_cache (self : MonotonicEnergy) (key : option tensor4)
  (mask : option mask4) : MonotonicEnergy :=
  {| me_atype := me_atype self; me_n_heads := me_n_heads self;
     me_d_k := me_d_k self; me_scale := me_scale self;
     me_w_key := me_w_key self; me_w_query := me_w_query self;
     me_v := me_v self; me_r := me_r self; me_conv1d := me_conv1d self;
     me_key := key; me_mask := mask |}.

(** [MonotonicEnergy.reset] *)
Definition me_reset (self : MonotonicEnergy) : MonotonicEnergy :=
  me_set_cache self None None.

(** [torch.matmul(query, key.transpose(3, 2)) / scale] on [[B, H, ., d_k]]. *)
Definition scaled_dot (scale : R) (query key : tensor4) : tensor4 :=
  zip_with (zip_with (fun (q k : mat) =>
    map (fun qi => map (fun kj => dot qi kj / scale) k) q)) query key.

(** The additive energy of [MonotonicEnergy]: [relu(key + query)] over all
    heads, flattened to [adim], projected by [v] to one score per head. *)
Definition additive (n_heads : nat) (v : row -> row) (query key : tensor4)
  : tensor4 :=
  zip_with (fun (q k : tensor3) =>
    let qlen := length (hd [] q) in
    let klen := length (hd [] k) in
    map (fun h => map (fun i => map (fun j =>
      nth h (v (concat (map (fun h' =>
        map relu (zip_with Rplus (nth j (nth h' k []) [])
                                 (nth i (nth h' q []) [])))
        (seq 0 n_heads)))) 0)
      (seq 0 klen)) (seq 0 qlen)) (seq 0 n_heads)) query key.

(** The error of a failed [assert]. *)
Definition assert (b : bool) : result unit :=
  if b then Ok tt else Err AssertionError.

(** [MonotonicEnergy.forward(key, query, mask, cache)]: the energy, or the
    exception, and the object with its cache as the call leaves it. *)
Definition me_forward (self : MonotonicEnergy) (key query : tensor3)
  (mask : option mask3) (cache : bool)
  : result tensor4 * MonotonicEnergy :=
  let bs := length key in
  let klen := length (hd [] key) in
  let qlen := length (hd [] query) in
  let precompute :=
    match me_key self with
    | None => true
    | Some _ => negb cache
    end in
  let '(self, checked) :=
    if precompute then
      let key := match me_conv1d self with
                 | Some conv => map (fun kb => map (map relu) (conv kb)) key
                 | None => key
                 end in
      let key := map (fun kb => split_heads (me_n_heads self) (me_d_k self)
                                  (map (me_w_key self) kb)) key in
      match mask with
      | None => (me_set_cache self (Some key) None, Ok tt)
      | Some m =>
          (me_set_cache self (Some key) (Some (expand_mask (me_n_heads self) m)),
           assert (is_mask3 bs qlen klen m))
      end
    else (self, Ok tt) in
  (_ <- checked ;;
   let query := map (fun qb => split_heads (me_n_heads self) (me_d_k self)
                                 (map (me_w_query self) qb)) query in
   let skey := match me_key self with Some k => k | None => [] end in
   let e := match me_atype self with
            | Add => additive (me_n_heads self) (me_v self) query skey
            | ScaledDot => scaled_dot (me_scale self) query skey
            end in
   let e := match me_r self with
            | Some r => map (map (map (map (fun x => x + r)))) e
            | None => e
            end in
   e <- match me_mask self with
        | Some m => masked_fill_ m e
        | None => Ok e
        end ;;
   _ <- assert (is_tensor4 bs (me_n_heads self) qlen klen e) ;;
   Ok e,
   self).

Record ChunkEnergy : Type := {
  ce_atype : attn_type;
  ce_n_heads : nat;
  ce_d_k : nat;
  ce_scale : R;
  ce_w_key : row -> row;
  ce_w_query : row -> row;
  ce_v : row -> row;
  ce_key : option tensor4;
  ce_mask : option mask4
}.

Definition ce_set_cache (self : ChunkEnergy) (key : option tensor4)
  (mask : option mask4) : ChunkEnergy :=
  {| ce_atype := ce_atype self; ce_n_heads := ce_n_heads self;
     ce_d_k := ce_d_k self; ce_scale := ce_scale self;
     ce_w_key := ce_w_key self; ce_w_query := ce_w_query self;
     ce_v := ce_v self; ce_key := key; ce_mask := mask |}.

(** [ChunkEnergy.reset] *)
Definition ce_reset (self : ChunkEnergy) : ChunkEnergy :=
  ce_set_cache self None None.

(** The additive energy of [ChunkEnergy]: the projected query, not split
    into heads, is added to every head's key; [v] has one output. *)
Definition chunk_additive (v : row -> row) (query : tensor3) (key : tensor4)
  : result tensor4 :=
  bcastM (fun (kb : tensor3) (qb : mat) =>
    mapM (fun kh => mapM (fun qi => mapM (fun kj =>
      s <- bcast Rplus kj qi ;; Ok (hd 0 (v (map relu s)))) kh) qb) kb)
    key query.

(** [ChunkEnergy.forward(key, query, mask, cache)] *)
Definition ce_forward (self : ChunkEnergy) (key query : tensor3)
  (mask : option mask3) (cache : bool)
  : result tensor4 * ChunkEnergy :=
  let bs := length key in
  let klen := length (hd [] key) in
  let qlen := length (hd [] query) in
  let precompute :=
    match ce_key self with
    | None => true
    | Some _ => negb cache
    end in
  let '(self, checked) :=
    if precompute then
      let key := map (fun kb => split_heads (ce_n_heads self) (ce_d_k self)
                                  (map (ce_w_key self) kb)) key in
      match mask with
      | None => (ce_set_cache self (Some key) None, Ok tt)
      | Some m =>
          (ce_set_cache self (Some key) (Some (expand_mask (ce_n_heads self) m)),
           assert (is_mask3 bs qlen klen m))
      end
    else (self, Ok tt) in
  (_ <- checked ;;
   let skey := match ce_key self with Some k => k | None => [] end in
   energy <- match ce_atype self with
             | Add => chunk_additive (ce_v self)
                        (map (map (ce_w_query self)) query) skey
             | ScaledDot =>
                 Ok (scaled_dot (ce_scale self)
                       (map (fun qb => split_heads (ce_n_heads self) (ce_d_k self)
                                         (map (ce_w_query self) qb)) query) skey)
             end ;;
   energy <- match ce_mask self with
             | Some m => masked_fill_ m energy
             | None => Ok energy
             end ;;
   _ <- assert (is_tensor4 bs (ce_n_heads self) qlen klen energy) ;;
   Ok energy,
   self).

(** ** Selection modes, for one batch element and one head *)

(** One step [j] of the inner loop of the recursive mode:
    [q[i:i+1, j+1] = shifted[i:i+1, j] * q[i:i+1, j] + aw_prev[:, j]].
    [q] and [shifted] have one row, and are sliced with the query index. *)
Definition assign_slice_col (i c : nat) (q : mat) (rhs : row) : result mat :=
  match slice1 i q, rhs with
  | [], [] | [], [_] => Ok q
  | [r], [v] => Ok (set_nth i (set_nth c v r) q)
  | _, _ => Err RuntimeError
  end.

Definition q_step (i j : nat) (shifted_1mp_choose aw_prev q : mat) : result mat :=
  a <- bcast Rmult (col j (slice1 i shifted_1mp_choose)) (col j (slice1 i q)) ;;
  rhs <- bcast Rplus a (col j aw_prev) ;;
  assign_slice_col i (j + 1) q rhs.

(** The body of [for i in range(qlen)] in the recursive mode: the new
    [aw_prev]. *)
Definition recursive_step (klen i : nat) (p_choose aw_prev : mat) : result mat :=
  let shifted_1mp_choose :=
    zip_with (@app R) [[1]]
      (map (fun r => map (fun p => 1 - p) (removelast r)) (slice1 i p_choose)) in
  let q := [repeat 0 (klen + 1)] in
  q <- for_each (seq 0 klen) (fun j q => q_step i j shifted_1mp_choose aw_prev q) q ;;
  bcast (zip_with Rmult) (slice1 i p_choose) (map (skipn 1) (slice1 i q)).

(** [alpha = torch.cat(alpha, dim=2) if qlen > 1 else alpha[-1]] *)
Definition cat_rows (qlen : nat) (alpha : list mat) : result mat :=
  if (1 <? qlen)%nat then Ok (concat alpha)
  else match rev alpha with
       | a :: _ => Ok a
       | [] => Err IndexError
       end.

Definition recursive_mode (qlen klen : nat) (p_choose aw_prev : mat) : result mat :=
  st <- for_each (seq 0 qlen)
          (fun i (st : mat * list mat) =>
             aw_prev <- recursive_step klen i p_choose (fst st) ;;
             Ok (aw_prev, snd st ++ [aw_prev]))
          (aw_prev, []) ;;
  cat_rows qlen (snd st).

(** [r[start:] = 0] with a Python slice start. *)
Definition zero_from (start : Z) (r : row) : row :=
  let n := Z.of_nat (length r) in
  let s := Z.to_nat (Z.min n (if start <? 0 then Z.max 0 (start + n) else start))%Z in
  firstn s r ++ repeat 0 (length r - s).

(** The body of [for i in range(qlen)] in the parallel mode.  [limit] is
    [trigger_point[b] + lookahead + 1] when DeCoT applies.  Over the reals
    division is total; the definition stands for the code where [eps > 0],
    so that [denom] is not 0 (the code's [0 / 0] is NaN). *)
Definition parallel_step (eps : R) (no_denom : bool) (limit : option Z) (i : nat)
  (p_choose cumprod_1mp_choose aw_prev : mat) : result mat :=
  scaled <- (if no_denom then Ok (map (map (fun a => a / 1)) aw_prev)
             else bcast (zip_with Rdiv) aw_prev
                    (map (map (clamp eps 1)) (slice1 i cumprod_1mp_choose))) ;;
  aw_prev <- bcast (zip_with Rmult)
               (zip_with (zip_with Rmult) (slice1 i p_choose)
                         (slice1 i cumprod_1mp_choose))
               (map cumsum scaled) ;;
  Ok (match limit with
      | Some s => map (zero_from s) aw_prev
      | None => aw_prev
      end).

Definition parallel_mode (eps : R) (no_denom : bool) (limit : option Z) (qlen : nat)
  (p_choose aw_prev : mat) : result mat :=
  let cumprod_1mp_choose :=
    map (fun r => safe_cumprod (map (fun p => 1 - p) r) eps) p_choose in
  st <- for_each (seq 0 qlen)
          (fun i (st : mat * list mat) =>
             aw_prev <- parallel_step eps no_denom limit i p_choose
                          cumprod_1mp_choose (fst st) ;;
             Ok (aw_prev, snd st ++ [aw_prev]))
          (aw_prev, []) ;;
  cat_rows qlen (snd st).

(** [(torch.sigmoid(e) >= 0.5).float()] *)
Definition choose (sigmoid : R -> R) (e : R) : R :=
  if Rle_dec (/ 2) (sigmoid e) then 1 else 0.

(** The hard mode before latency control. *)
Definition hard_select (sigmoid : R -> R) (e_mono aw_prev : mat) : result mat :=
  let p_choose_i := slice1 0 (map (map (choose sigmoid)) e_mono) in
  p_choose_i <- bcast_to (fun c p => Ok (zip_with Rmult p c))
                  (map cumsum (slice1 0 aw_prev)) p_choose_i ;;
  Ok (map (fun p => zip_with Rmult p (exclusive_cumprod (map (fun x => 1 - x) p)))
          p_choose_i).

(** ** Latency control of the hard mode *)

Definition is_zero (x : R) : bool := if Req_dec_T x 0 then true else false.

(** [r.nonzero()[:, -1]]: the key indices of the nonzero entries. *)
Definition nonzero_cols (r : row) : list Z :=
  map Z.of_nat (filter (fun j => negb (is_zero (nth j r 0))) (seq 0 (length r))).

(** [.min().item()] and [.max().item()]; empty tensors have neither. *)
Definition min_item (l : list Z) : result Z :=
  match l with
  | [] => Err RuntimeError
  | x :: t => Ok (fold_right Z.min x t)
  end.
Definition max_item (l : list Z) : result Z :=
  match l with
  | [] => Err RuntimeError
  | x :: t => Ok (fold_right Z.max x t)
  end.

(** The body of [for h in range(n_heads_mono)] on the row [alpha[b, h, 0]]. *)
Definition latency_head (first_mma_layer vertical_latency : bool)
  (eps_wait boundary_threshold size_last leftmost rightmost : Z) (a : row)
  : result row :=
  if is_zero (sum_list a) then
    (* no boundary at the h-th head *)
    if first_mma_layer || negb vertical_latency then
      setitem a (Z.min rightmost (leftmost + eps_wait)) 1
    else if (boundary_threshold <? size_last - 1)%Z then
      setitem a boundary_threshold 1
    else Ok a
  else
    (* surpass acceptable latency *)
    if first_mma_layer || negb vertical_latency then
      m <- min_item (nonzero_cols a) ;;
      if (m >=? leftmost + eps_wait)%Z then
        setitem (repeat 0 (length a)) (leftmost + eps_wait) 1
      else Ok a
    else
      m <- min_item (nonzero_cols a) ;;
      if (m >? boundary_threshold)%Z then
        setitem (repeat 0 (length a)) boundary_threshold 1
      else Ok a.

(** The body of [for b in range(bs)] on the rows [alpha[b, :, 0]]. *)
Definition latency_batch (vertical_latency : bool) (eps_wait : Z)
  (boundary_rightmost : option Z) (size_last : Z) (ab : list row)
  : result (list row) :=
  let first_mma_layer :=
    match boundary_rightmost with None => true | Some _ => false end in
  let boundary_threshold :=
    if first_mma_layer || negb vertical_latency then (size_last - 1)%Z
    else match boundary_rightmost with
         | Some br => Z.min (size_last - 1) (br + eps_wait)
         | None => (size_last - 1)%Z
         end in
  if is_zero (sum_list (concat ab)) then
    (* no boundary until the last frame for all heads *)
    if vertical_latency && (boundary_threshold <? size_last - 1)%Z then
      mapM (fun a => setitem a boundary_threshold 1) ab
    else Ok ab
  else
    leftmost <- min_item (concat (map nonzero_cols ab)) ;;
    rightmost <- max_item (concat (map nonzero_cols ab)) ;;
    mapM (latency_head first_mma_layer vertical_latency eps_wait
            boundary_threshold size_last leftmost rightmost) ab.

(** [alpha.size(-1)] *)
Definition size_last (alpha : tensor4) : Z :=
  Z.of_nat (length (hd [] (hd [] (hd [] alpha)))).

(** The latency control of the hard mode; [qlen] is 1 there, so that
    [alpha[b, h, 0]] is the one row of a head. *)
Definition latency_control (eps_wait : Z) (boundary_rightmost : option Z)
  (alpha : tensor4) : result tensor4 :=
  let vertical_latency := false in
  if (eps_wait >? 0)%Z then
    mapM (fun ab =>
            rows <- latency_batch vertical_latency eps_wait boundary_rightmost
                      (size_last alpha) (map (fun m => nth 0 m []) ab) ;;
            Ok (map (fun r => [r]) rows)) alpha
  else Ok alpha.

(** ** Chunkwise attention *)

Definition row_max (e : row) : R := fold_right Rmax (hd 0 e) e.

(** One row of [beta], from one row of [alpha] and one of [e]. *)
Definition chunk_row (chunk_size : Z) (sharpening_factor : R) (alpha e : row)
  : result row :=
  let klen := length alpha in
  (* Shift logits to avoid overflow *)
  let e := map (fun x => x - row_max e) e in
  (* Limit the range for numerical stability *)
  let softmax_exp := map (fun x => clamp_min (1 / 100000) (exp x)) e in
  if (chunk_size =? -1)%Z then
    (* infinite lookback attention *)
    let softmax_denominators := cumsum softmax_exp in
    ms <- moving_sum
            (zip_with Rdiv (map (fun a => a * sharpening_factor) alpha)
                      softmax_denominators) 0 (klen - 1) ;;
    Ok (zip_with Rmult softmax_exp ms)
  else
    softmax_denominators <- moving_sum softmax_exp (Z.to_nat (chunk_size - 1)) 0 ;;
    ms <- moving_sum
            (zip_with Rdiv (map (fun a => a * sharpening_factor) alpha)
                      softmax_denominators) 0 (Z.to_nat (chunk_size - 1)) ;;
    Ok (zip_with Rmult softmax_exp ms).

(** [efficient_chunkwise_attention]: every monotonic head is combined with
    every chunk head; the result has [H_mono * H_chunk] heads. *)
Definition efficient_chunkwise_attention (alpha e : tensor4)
  (mask : option mask3) (chunk_size : Z) (n_heads : nat)
  (sharpening_factor : R) (chunk_len_dist : option tensor3) : result tensor4 :=
  match chunk_len_dist with
  | Some _ => Err NotImplementedError
  | None =>
      bcastM (fun (ab eb : tensor3) =>
        hs <- mapM (fun am => mapM (fun em =>
                bcastM (chunk_row chunk_size sharpening_factor) am em) eb) ab ;;
        Ok (concat hs)) alpha e
  end.

(** ** The attention layer *)

Record MoChA : Type := {
  chunk_size : Z;
  n_heads_mono : nat;
  n_heads_chunk : nat;
  d_k : nat;
  eps : R;
  no_denom : bool;
  sharpening_factor : R;
  decot : bool;
  lookahead : Z;
  dropout : R;
  dropout_head : R;
  training : bool;
  monotonic_energy : MonotonicEnergy;
  chunk_energy : option ChunkEnergy;
  w_value : row -> row;
  w_out : row -> row
}.

Definition milk (self : MoChA) : bool := (chunk_size self =? -1)%Z.

(** Whether [chunk_size > 1 or self.milk]. *)
Definition uses_chunk (chunk_size : Z) : bool :=
  (chunk_size >? 1)%Z || (chunk_size =? -1)%Z.

(** [MoChA.__init__]; [mono] and [chunk] are the two energy functions as
    their constructors make them. *)
Definition MoChA_init (chunk_size : Z) (n_heads_mono n_heads_chunk d_k : nat)
  (eps : R) (no_denominator : bool) (sharpening_factor : R) (decot : bool)
  (lookahead : Z) (dropout dropout_head : R) (training : bool)
  (mono : MonotonicEnergy) (chunk : ChunkEnergy) (w_value w_out : row -> row)
  : MoChA :=
  {| chunk_size := chunk_size; n_heads_mono := n_heads_mono;
     n_heads_chunk := n_heads_chunk; d_k := d_k; eps := eps;
     no_denom := no_denominator; sharpening_factor := sharpening_factor;
     decot := decot; lookahead := lookahead; dropout := dropout;
     dropout_head := dropout_head; training := training;
     monotonic_energy := me_reset mono;
     chunk_energy := if uses_chunk chunk_size then Some (ce_reset chunk) else None;
     w_value := w_value; w_out := w_out |}.

Definition set_scorers (self : MoChA) (mono : MonotonicEnergy)
  (chunk : option ChunkEnergy) : MoChA :=
  {| chunk_size := chunk_size self; n_heads_mono := n_heads_mono self;
     n_heads_chunk := n_heads_chunk self; d_k := d_k self; eps := eps self;
     no_denom := no_denom self; sharpening_factor := sharpening_factor self;
     decot := decot self; lookahead := lookahead self; dropout := dropout self;
     dropout_head := dropout_head self; training := training self;
     monotonic_energy := mono; chunk_energy := chunk;
     w_value := w_value self; w_out := w_out self |}.

(** [MoChA.reset] *)
Definition reset (self : MoChA) : MoChA :=
  set_scorers self (me_reset (monotonic_energy self))
    (option_map ce_reset (chunk_energy self)).

(** What a call draws at random: the gaussian noise on the energies, one
    number in [[0, 1)] per head for head dropout, and the factor (0 or
    [1 / (1 - p)]) attention dropout applies to every entry of beta. *)
Record randomness : Type := {
  noise : nat -> nat -> nat -> nat -> R;
  head_draw : nat -> R;
  drop_factor : nat -> nat -> nat -> nat -> R
}.

Definition mapi4 (f : nat -> nat -> nat -> nat -> R -> R) (t : tensor4) : tensor4 :=
  mapi (fun b => mapi (fun h => mapi (fun i => mapi (fun j => f b h i j)))) t.

(** [add_gaussian_noise] *)
Definition add_gaussian_noise (rnd : randomness) (xs : tensor4) : tensor4 :=
  mapi4 (fun b h i j x => x + noise rnd b h i j) xs.

(** [aw_prev = [1, 0, 0 ... 0]] *)
Definition initial_aw_prev (bs n_heads klen : nat) : tensor4 :=
  repeat (repeat [firstn klen (1 :: repeat 0 (klen - 1))] n_heads) bs.

(** Head dropout of the parallel mode: [alpha_masked]. *)
Definition head_dropout (self : MoChA) (rnd : randomness) (alpha : tensor4)
  : tensor4 :=
  if (1 <? n_heads_mono self)%nat
     && (if Rlt_dec 0 (dropout_head self) then true else false)
     && training self
  then
    let dropped h := if Rlt_dec (head_draw rnd h) (dropout_head self)
                     then true else false in
    let n_effective_heads :=
      length (filter (fun h => negb (dropped h)) (seq 0 (n_heads_mono self))) in
    let alpha_masked :=
      map (mapi (fun h (m : mat) =>
             if (h <? n_heads_mono self)%nat && dropped h
             then map (map (fun _ => 0)) m else m)) alpha in
    if (0 <? n_effective_heads)%nat then
      map (map (map (map (fun a =>
        a * (INR (n_heads_mono self) / INR n_effective_heads))))) alpha_masked
    else alpha_masked
  else alpha.

(** [torch.matmul] of a [[q, k]] by a [[k, d]] matrix. *)
Definition matmul (a v : mat) : result mat :=
  if forallb (fun r => (length r =? length v)%nat) a then
    Ok (map (fun r => map (fun d => dot r (col d v)) (seq 0 (length (hd [] v)))) a)
  else Err RuntimeError.

(** [cv.transpose(2, 1).contiguous().view(bs, -1, H * d_k)] for one batch
    element. *)
Definition merge_heads (cv : tensor3) : mat :=
  map (fun i => concat (map (fun h => nth i h []) cv))
      (seq 0 (length (hd [] cv))).

(** [t.squeeze(1)] followed by a use as a 3-dimensional tensor. *)
Definition squeeze1 (t : tensor4) : result tensor3 :=
  mapM (fun tb => match tb with [m] => Ok m | _ => Err RuntimeError end) t.

(** [torch.bmm] *)
Definition bmm (a v : tensor3) : result tensor3 :=
  if (length a =? length v)%nat then mapM (fun c => c) (zip_with matmul a v)
  else Err RuntimeError.

(** The three modes: [alpha] and [alpha_masked]. *)
Definition select_alpha (sigmoid : R -> R) (self : MoChA) (mode : string)
  (qlen klen : nat) (e_mono aw_prev : tensor4) (trigger_point : option (list Z))
  (eps_wait : Z) (boundary_rightmost : option Z) (rnd : randomness)
  : result (tensor4 * tensor4) :=
  if String.eqb mode "recursive"%string then
    let p_choose := map (map (map (map sigmoid))) (add_gaussian_noise rnd e_mono) in
    alpha <- bcastM (bcastM (recursive_mode qlen klen)) p_choose aw_prev ;;
    Ok (alpha, alpha)
  else if String.eqb mode "parallel"%string then
    let p_choose := map (map (map (map sigmoid))) (add_gaussian_noise rnd e_mono) in
    let limit (b : nat) :=
      match trigger_point with
      | Some tp => if decot self then Some (nth b tp 0 + lookahead self + 1)%Z
                   else None
      | None => None
      end in
    alpha <- bcastM (fun (pb : nat * tensor3) ab =>
               bcastM (parallel_mode (eps self) (no_denom self) (limit (fst pb)) qlen)
                      (snd pb) ab)
               (combine (seq 0 (length p_choose)) p_choose) aw_prev ;;
    Ok (alpha, head_dropout self rnd alpha)
  else if String.eqb mode "hard"%string then
    _ <- assert (qlen =? 1)%nat ;;
    alpha <- bcastM (bcastM (hard_select sigmoid)) e_mono aw_prev ;;
    alpha <- latency_control eps_wait boundary_rightmost alpha ;;
    Ok (alpha, alpha)
  else Err ValueError.

(** [self.dropout(beta)] *)
Definition attention_dropout (self : MoChA) (rnd : randomness) (beta : tensor4)
  : tensor4 :=
  if training self && (if Rlt_dec 0 (dropout self) then true else false)
  then mapi4 (fun b h i j x => x * drop_factor rnd b h i j) beta
  else beta.

(** Compute chunk energy: [beta], and the chunk energy function as the
    call leaves it. *)
Definition chunk_attention (self : MoChA) (key query : tensor3)
  (mask : option mask3) (cache : bool) (alpha_masked : tensor4)
  (rnd : randomness) : result (option tensor4) * option ChunkEnergy :=
  if uses_chunk (chunk_size self) then
    match chunk_energy self with
    | None => (Err TypeError, None)
    | Some ce =>
        let rc := ce_forward ce key query mask cache in
        (e_chunk <- fst rc ;;
         beta <- efficient_chunkwise_attention alpha_masked e_chunk mask
                   (chunk_size self) (n_heads_chunk self)
                   (sharpening_factor self) None ;;
         Ok (Some (attention_dropout self rnd beta)),
         Some (snd rc))
    end
  else (Ok None, chunk_energy self).

(** Compute context vector. *)
Definition context_vector (self : MoChA) (value : tensor3) (alpha : tensor4)
  (beta : option tensor4) : result tensor3 :=
  let n_heads := (n_heads_mono self * n_heads_chunk self)%nat in
  if (1 <? n_heads)%nat then
    let value := map (fun vb => split_heads n_heads (d_k self)
                                  (map (w_value self) vb)) value in
    weights <- (if (chunk_size self =? 1)%Z then Ok alpha
                else match beta with
                     | Some beta => Ok beta
                     | None => Err TypeError
                     end) ;;
    cv <- bcastM (bcastM matmul) weights value ;;
    Ok (map (fun cvb => map (w_out self) (merge_heads cvb)) cv)
  else
    weights <- (if (chunk_size self =? 1)%Z then Ok alpha
                else match beta with
                     | Some beta => Ok beta
                     | None => Err AttributeError
                     end) ;;
    weights <- squeeze1 weights ;;
    bmm weights value.

(** [MoChA.forward]: [(cv, alpha, beta)] or the exception, and the layer
    with the caches of its energy functions as the call leaves them. *)
Definition forward (sigmoid : R -> R) (self : MoChA) (key value query : tensor3)
  (mask : option mask3) (aw_prev : option tensor4) (mode : string)
  (cache : bool) (trigger_point : option (list Z)) (eps_wait : Z)
  (boundary_rightmost : option Z) (rnd : randomness)
  : result (tensor3 * tensor4 * option tensor4) * MoChA :=
  let bs := length key in
  let klen := length (hd [] key) in
  let qlen := length (hd [] query) in
  let aw_prev :=
    match aw_prev with
    | Some a => a
    | None => initial_aw_prev bs (n_heads_mono self) klen
    end in
  (* Compute monotonic energy *)
  let rm := me_forward (monotonic_energy self) key query mask cache in
  match fst rm with
  | Err e => (Err e, set_scorers self (snd rm) (chunk_energy self))
  | Ok e_mono =>
      match select_alpha sigmoid self mode qlen klen e_mono aw_prev trigger_point
              eps_wait boundary_rightmost rnd with
      | Err e => (Err e, set_scorers self (snd rm) (chunk_energy self))
      | Ok (alpha, alpha_masked) =>
          let rb := chunk_attention self key query mask cache alpha_masked rnd in
          (beta <- fst rb ;;
           cv <- context_vector self value alpha beta ;;
           _ <- assert (is_tensor4 bs (n_heads_mono self) qlen klen alpha) ;;
           _ <- match beta with
                | Some beta =>
                    assert (is_tensor4 bs (n_heads_mono self * n_heads_chunk self)
                              qlen klen beta)
                | None => Ok tt
                end ;;
           Ok (cv, alpha, beta),
           set_scorers self (snd rm) (snd rb))
      end
  end.

(** ** Statements *)

(** The logistic function, the exact value [torch.sigmoid] rounds. *)
Definition logistic (x : R) : R := / (1 + exp (- x)).

(** A row with a single 1, at [t]. *)
Definition one_hot (klen t : nat) : row :=
  map (fun j => if (j =? t)%nat then 1 else 0) (seq 0 klen).

Definition chosen (sigmoid : R -> R) (e : R) : bool :=
  if Rle_dec (/ 2) (sigmoid e) then true else false.

(** The choose indicators that survive the previous boundary [t] in the
    code: those at [t] or later. *)
Definition remaining (sigmoid : R -> R) (t : nat) (e : row) (j : nat) : bool :=
  (t <=? j)%nat && chosen sigmoid (nth j e 0).

(** The same in the words of the specification, where the indicator at
    [t] is suppressed too. *)
Definition spec_remaining (sigmoid : R -> R) (t : nat) (e : row) (j : nat) : bool :=
  (t <? j)%nat && chosen sigmoid (nth j e 0).

(** [j] is the first index with an indicator. *)
Definition is_first (ind : nat -> bool) (j : nat) : bool :=
  ind j && forallb (fun k => negb (ind k)) (seq 0 j).

(** The row with a 1 at the first indicator, and zeros elsewhere. *)
Definition first_hot (ind : nat -> bool) (klen : nat) : row :=
  map (fun j => if is_first ind j then 1 else 0) (seq 0 klen).

(** An energy function with one head on one-dimensional features
    ([adim = 1], so that [scale = sqrt(adim)] is 1), the identity for its
    layers, and an empty cache. *)
Definition mono_example : MonotonicEnergy :=
  {| me_atype := ScaledDot; me_n_heads := 1; me_d_k := 1; me_scale := 1;
     me_w_key := fun v => v; me_w_query := fun v => v; me_v := fun v => v;
     me_r := Some 0; me_conv1d := None; me_key := None; me_mask := None |}.

(** The same after a call that cached a key of three frames with the third
    one masked. *)
Definition mono_cached : MonotonicEnergy :=
  me_set_cache mono_example (Some [[[[1]; [1]; [1]]]])
    (Some [[[[true; true; false]]]]).

Definition chunk_example : ChunkEnergy :=
  {| ce_atype := ScaledDot; ce_n_heads := 1; ce_d_k := 1; ce_scale := 1;
     ce_w_key := fun v => v; ce_w_query := fun v => v; ce_v := fun v => v;
     ce_key := None; ce_mask := None |}.

(** A layer with [chunk_size = 1] and one head, in evaluation mode. *)
Definition mocha_hard : MoChA :=
  MoChA_init 1 1 1 1 (/ 1000000) false 1 false 2 0 0 false
    mono_example chunk_example (fun v => v) (fun v => v).

Definition no_randomness : randomness :=
  {| noise := fun _ _ _ _ => 0; head_draw := fun _ => 0;
     drop_factor := fun _ _ _ _ => 1 |}.

(** A row is one-hot or all-zero. *)
Definition hot_or_zero (r : row) : Prop :=
  r = repeat 0 (length r) \/ exists t, (t < length r)%nat /\ r = one_hot (length r) t.

(** What the latency control does to one row of [klen] entries: nothing,
    or it writes a 1 at an index [k] within the row and no later than
    [bound], into the row itself when that sums to zero, or into the row
    reset to zeros. *)
Definition latency_rewrite (klen : nat) (bound : Z) (a a' : row) : Prop :=
  a' = a \/
  exists k, (k < klen)%nat /\ (Z.of_nat k <= bound)%Z /\
    ((sum_list a = 0 /\ a' = set_nth k 1 a) \/ a' = set_nth k 1 (repeat 0 klen)).

(** The recurrence of the recursive mode on one row, as the inner loop
    runs it: [q_(j+1) = shifted_j * q_j + aw_prev_j]. *)
Fixpoint q_scan (q_prev : R) (shifted aw_prev : row) : row :=
  match shifted, aw_prev with
  | s :: shifted', a :: aw_prev' =>
      (s * q_prev + a) :: q_scan (s * q_prev + a) shifted' aw_prev'
  | _, _ => []
  end.

(** The same on [p_choose] itself: [carry] is the mass [(1 - p_(j-1)) * q_j]
    that reaches frame [j] from the left, and
    [alpha_j = p_j * (carry + aw_prev_j)]. *)
Fixpoint recurrence (carry : R) (p_choose aw_prev : row) : row :=
  match p_choose, aw_prev with
  | p :: p_choose', a :: aw_prev' =>
      p * (carry + a) :: recurrence ((1 - p) * (carry + a)) p_choose' aw_prev'
  | _, _ => []
  end.

(** The closed form of the parallel mode on one row, with the clamps. *)
Definition closed_form (eps : R) (no_denom : bool) (p_choose aw_prev : row) : row :=
  let cumprod_1mp_choose := safe_cumprod (map (fun p => 1 - p) p_choose) eps in
  zip_with Rmult (zip_with Rmult p_choose cumprod_1mp_choose)
    (cumsum (if no_denom then map (fun a => a / 1) aw_prev
             else zip_with Rdiv aw_prev (map (clamp eps 1) cumprod_1mp_choose))).

(** The closed form from a frame on: [c] is the running product of
    [1 - p_choose] and [S] the running sum of [aw_prev / denom] that reach
    the frame, the clamp of [safe_cumprod] left out. *)
Definition closed_from (eps : R) (no_denom : bool) (c S : R) (p_choose aw_prev : row)
  : row :=
  let cumprod_1mp_choose := c :: cumprod_from c (map (fun p => 1 - p) p_choose) in
  zip_with Rmult (zip_with Rmult p_choose cumprod_1mp_choose)
    (cumsum_from S (if no_denom then map (fun a => a / 1) aw_prev
                    else zip_with Rdiv aw_prev
                           (map (clamp eps 1) cumprod_1mp_choose))).

(** The rows of the parallel mode, one per query position: each is the
    closed form on the row before it, cut at the DeCoT limit. *)
Fixpoint parallel_rows (eps : R) (no_denom : bool) (limit : option Z)
  (p_choose : mat) (aw_prev : row) : mat :=
  match p_choose with
  | [] => []
  | p :: p_choose' =>
      let alpha := match limit with
                   | Some s => zero_from s (closed_form eps no_denom p aw_prev)
                   | None => closed_form eps no_denom p aw_prev
                   end in
      alpha :: parallel_rows eps no_denom limit p_choose' alpha
  end.

(** A row of weights: nonnegative, summing to at most 1. *)
Definition weights (r : row) : Prop := Forall (fun x => 0 <= x) r /\ sum_list r <= 1.

(** The weighted sum of the rows of [v] by each row of [a]. *)
Definition weighted_sum (a v : mat) : mat :=
  map (fun r => map (fun d => dot r (col d v)) (seq 0 (length (hd [] v)))) a.

(** An energy function with two heads ([adim = 2]). *)
Definition mono_two_heads : MonotonicEnergy :=
  {| me_atype := ScaledDot; me_n_heads := 2; me_d_k := 1; me_scale := sqrt 2;
     me_w_key := fun v => v; me_w_query := fun v => v; me_v := fun v => v;
     me_r := Some 0; me_conv1d := None; me_key := None; me_mask := None |}.

(** A layer with [chunk_size = 1] and two monotonic heads, whose output
    layer doubles its input. *)
Definition mocha_two_heads : MoChA :=
  MoChA_init 1 2 1 1 (/ 1000000) false 1 false 2 0 0 false
    mono_two_heads chunk_example (fun v => v) (map (fun x => 2 * x)).

(** The entry [t[b, h, i, j]]. *)
Definition get4 (t : tensor4) (b h i j : nat) : R :=
  nth j (nth i (nth h (nth b t []) []) []) 0.

(** The mask marks the key position [j] invalid for the query position
    [i] of the batch element [b]. *)
Definition invalid (m : mask3) (b i j : nat) : Prop :=
  nth j (nth i (nth b m []) []) true = false.

(** A padding mask: the valid key positions of every row are a prefix. *)
Definition padding_mask (m : mask3) : Prop :=
  forall b i j k, (j <= k < length (nth i (nth b m []) []))%nat ->
    invalid m b i j -> invalid m b i k.

(** Every position the mask marks invalid has weight zero. *)
Definition masked_zero (m : mask3) (t : tensor4) : Prop :=
  forall b h i j, invalid m b i j -> get4 t b h i j = 0.

(** What float32 does to [torch.sigmoid] and to the energies of masked
    positions: the sigmoid underflows to exactly 0 (here: at -104 and
    below, past the smallest subnormal), and the noise added to [NEG_INF]
    does not bring it back (gaussian noise is far below [2 ^ 127]). *)
Definition underflows (sigmoid : R -> R) : Prop :=
  forall x, x <= - 104 -> sigmoid x = 0.

Definition bounded_noise (rnd : randomness) : Prop :=
  forall b h i j, noise rnd b h i j <= 2 ^ 127.

(** The mask the energy function applies is the given one: its cache is
    empty or not used, or holds this mask. *)
Definition current_mask (self : MonotonicEnergy) (m : mask3) (cache : bool) : Prop :=
  me_key self = None \/ cache = false \/
  me_mask self = Some (expand_mask (me_n_heads self) m).

(** [aw_prev] is absent or has the shape [[B, H_ma, 1, klen]]. *)
Definition aw_prev_shape (bs n_heads klen : nat) (aw_prev : option tensor4) : Prop :=
  match aw_prev with
  | Some a => is_tensor4 bs n_heads 1 klen a = true
  | None => True
  end.

(** Every matrix of a batch element is zero at [[i, j]]. *)
Definition zero_at (i j : nat) (t : tensor3) : Prop :=
  forall mt, In mt t -> nth j (nth i mt []) 0 = 0.

(** The logistic function with the underflow of float32. *)
Definition logistic32 (x : R) : R :=
  if Rle_dec x (- 104) then 0 else logistic x.

(** A layer with chunks of two frames and one head, in evaluation mode. *)
Definition mocha_chunk : MoChA :=
  MoChA_init 2 1 1 1 (/ 1000000) false 1 false 2 0 0 false
    mono_example chunk_example (fun v => v) (fun v => v).

(** The product of a row. *)
Definition prod_list (xs : row) : R := fold_right Rmult 1 xs.

(** The sum of [f] over [0 .. n - 1]. *)
Definition isum (n : nat) (f : nat -> R) : R := sum_list (map f (seq 0 n)).

(** Frame [j] lies in the chunk of a boundary at frame [k]: the
    [chunk_size] frames that end at [k], or all frames up to [k] with
    infinite lookback. *)
Definition in_chunk (chunk_size : Z) (j k : nat) : bool :=
  (j <=? k)%nat &&
  ((chunk_size =? -1)%Z || (k <=? j + Z.to_nat (chunk_size - 1))%nat).

(** [softmax_exp] of the chunkwise attention on one row of energies. *)
Definition softmax_exp (e : row) : row :=
  map (fun x => clamp_min (1 / 100000) (exp x)) (map (fun x => x - row_max e) e).

(** The softmax denominator of the chunk of a boundary at frame [k]. *)
Definition chunk_denominator (chunk_size : Z) (e : row) (k : nat) : R :=
  isum (length e)
    (fun j => if in_chunk chunk_size j k then nth j (softmax_exp e) 0 else 0).

(** The row has its one boundary at a frame of [[lo, hi]]. *)
Definition boundary_within (lo hi : Z) (r : row) : Prop :=
  exists t, (t < length r)%nat /\ r = one_hot (length r) t /\
            (lo <= Z.of_nat t <= hi)%Z.

(** A layer with [chunk_size = 1], one head and DeCoT with no lookahead. *)
Definition mocha_decot : MoChA :=
  MoChA_init 1 1 1 1 (/ 1000000) false 1 true 0 0 0 false
    mono_example chunk_example (fun v => v) (fun v => v).

(** Row predicates. *)
Definition nonincreasing (xs : row) : Prop :=
  forall j, (j + 1 < length xs)%nat -> nth (j + 1) xs 0 <= nth j xs 0.

(* ================================================================== *)
(** * Properties *)

(** ** Lists and sums *)

Lemma sum_list_app (xs ys : row) :
  sum_list (xs ++ ys) = sum_list xs + sum_list ys.
Proof. induction xs as [|x xs IH]; simpl; [lra | rewrite IH; lra]. Qed.

Lemma sum_list_repeat0 (n : nat) : sum_list (repeat 0 n) = 0.
Proof. induction n as [|n IH]; simpl; [reflexivity | rewrite IH; lra]. Qed.

Lemma skipn_repeat0 (n m : nat) : skipn n (repeat 0 m) = repeat 0 (m - n).
Proof.
  revert n. induction m as [|m IH]; intros [|n]; simpl; auto.
Qed.

Lemma sum_firstn_repeat0 (m n : nat) : sum_list (firstn m (repeat 0 n)) = 0.
Proof.
  revert m. induction n as [|n IH]; intros [|m]; simpl; try reflexivity.
  rewrite IH. lra.
Qed.

Lemma dot_ones (n : nat) (ys : row) :
  (length ys <= n)%nat -> dot (repeat 1 n) ys = sum_list ys.
Proof.
  unfold dot. revert ys. induction n as [|n IH]; intros [|y ys] Hlen; simpl in *;
    try reflexivity; try lia.
  rewrite IH by lia. lra.
Qed.

(** ** Moving sum *)

Lemma window_of_padded (x : row) (back forward j : nat) :
  (j < length x)%nat ->
  sum_list (firstn (back + forward + 1) (skipn j (pad x back forward)))
  = sum_list (firstn (j + forward + 1 - (j - back)) (skipn (j - back) x)).
Proof.
  intros Hj. unfold pad.
  rewrite skipn_app, repeat_length, skipn_repeat0.
  rewrite firstn_app, sum_list_app, sum_firstn_repeat0, Rplus_0_l.
  rewrite repeat_length.
  rewrite skipn_app, skipn_repeat0, firstn_app, sum_list_app, sum_firstn_repeat0, Rplus_0_r.
  f_equal. f_equal. lia.
Qed.

(** C6.  For every window [back], [forward] and every row of length at
    least one, the convolution-based [moving_sum] returns the naive
    sliding-window sum: position [j] holds the sum of the input over
    positions [j - back .. j + forward] clipped to the row. *)
Theorem moving_sum_is_naive (x : row) (back forward : nat) :
  (1 <= length x)%nat ->
  moving_sum x back forward = Ok (naive_moving_sum x back forward).
Proof.
  intros Hlen. unfold moving_sum, conv1d, naive_moving_sum.
  assert (Hp : length (pad x back forward) = (back + length x + forward)%nat).
  { unfold pad. rewrite !length_app, !repeat_length. lia. }
  rewrite Hp, repeat_length.
  destruct (Nat.ltb_spec (back + length x + forward) (back + forward + 1)) as [Hlt|_];
    [lia|].
  f_equal.
  replace (back + length x + forward - (back + forward + 1) + 1)%nat
    with (length x) by lia.
  apply map_ext_in. intros j Hj. apply in_seq in Hj.
  rewrite dot_ones.
  - apply window_of_padded. lia.
  - rewrite length_firstn. lia.
Qed.

Lemma moving_sum_is_naive_witness :
  (1 <= length [1; 2; 3])%nat /\
  moving_sum [1; 2; 3] 1 0 = Ok (naive_moving_sum [1; 2; 3] 1 0).
Proof.
  split; [simpl; lia | apply moving_sum_is_naive; simpl; lia].
Defined.

(** ** The safe cumulative product *)

Lemma clamp_bounds (eps x : R) :
  0 < eps -> 0 < clamp eps 1 x <= 1.
Proof.
  intros He. unfold clamp, Rmin, Rmax.
  repeat destruct Rle_dec; lra.
Qed.

Lemma removelast_map {A B : Type} (f : A -> B) (l : list A) :
  removelast (map f l) = map f (removelast l).
Proof.
  induction l as [|a [|b l] IH]; simpl in *; try reflexivity.
  now rewrite IH.
Qed.

Lemma Forall_removelast {A : Type} (P : A -> Prop) (l : list A) :
  Forall P l -> Forall P (removelast l).
Proof.
  induction 1 as [|a [|b l] Ha Hl IH]; simpl; auto.
Qed.

Lemma exp_cumsum_ln (cs : row) (a b : R) :
  exp a = b -> Forall (fun c => 0 < c) cs ->
  map exp (cumsum_from a (map ln cs)) = cumprod_from b cs.
Proof.
  intros Hab Hpos. revert a b Hab.
  induction Hpos as [|c cs Hc _ IH]; intros a b Hab; simpl; [reflexivity|].
  assert (Hstep : exp (a + ln c) = b * c).
  { rewrite exp_plus, exp_ln, Hab by assumption. reflexivity. }
  rewrite Hstep. f_equal. apply IH, Hstep.
Qed.

(** In exact arithmetic the log-space computation is the exclusive
    cumulative product of the clamped entries. *)
Lemma safe_cumprod_exclusive (x : row) (eps : R) :
  0 < eps -> safe_cumprod x eps = exclusive_cumprod (map (clamp eps 1) x).
Proof.
  intros He. unfold safe_cumprod, exclusive_cumsum, exclusive_cumprod, cumsum, cumprod.
  rewrite removelast_map. simpl.
  replace (exp (0 + 0)) with (1 * 1) by (rewrite Rplus_0_l, exp_0; ring).
  f_equal. apply exp_cumsum_ln.
  - rewrite Rplus_0_l, exp_0. ring.
  - apply Forall_removelast, Forall_forall. intros c Hc.
    apply in_map_iff in Hc. destruct Hc as [v [<- _]]. apply clamp_bounds, He.
Qed.

Lemma nonincreasing_cons (a b : R) (l : row) :
  b <= a -> nonincreasing (b :: l) -> nonincreasing (a :: b :: l).
Proof.
  intros Hba Hl [|j] Hj; simpl in *; [exact Hba|].
  apply (Hl j). simpl. lia.
Qed.

Lemma nonincreasing_single (a : R) : nonincreasing [a].
Proof. intros j Hj. simpl in Hj. lia. Qed.

Lemma cumprod_from_nonincreasing (cs : row) (b : R) :
  0 <= b -> Forall (fun c => 0 <= c <= 1) cs ->
  nonincreasing (b :: cumprod_from b cs).
Proof.
  intros Hb Hcs. revert b Hb.
  induction Hcs as [|c cs Hc _ IH]; intros b Hb; simpl.
  - apply nonincreasing_single.
  - apply nonincreasing_cons; [nra | apply IH; nra].
Qed.

Lemma exclusive_cumprod_nonincreasing (cs : row) :
  Forall (fun c => 0 <= c <= 1) cs -> nonincreasing (exclusive_cumprod cs).
Proof.
  intros Hcs. unfold exclusive_cumprod, cumprod. simpl.
  apply cumprod_from_nonincreasing; [lra | apply Forall_removelast, Hcs].
Qed.

(** C7 (amended).  For [eps > 0], [safe_cumprod x eps] is non-increasing
    along the key axis and is, in exact arithmetic, the exclusive
    cumulative product [[1; c0; c0 * c1; ...]] of the clamped entries
    [c = clamp(x, eps, 1)]: the log-space sum is the exclusive one. *)
Theorem safe_cumprod_nonincreasing_exclusive (x : row) (eps : R) :
  0 < eps ->
  nonincreasing (safe_cumprod x eps) /\
  safe_cumprod x eps = exclusive_cumprod (map (clamp eps 1) x).
Proof.
  intros He. rewrite safe_cumprod_exclusive by exact He. split; [|reflexivity].
  apply exclusive_cumprod_nonincreasing, Forall_forall. intros c Hc.
  apply in_map_iff in Hc. destruct Hc as [v [<- _]].
  pose proof (clamp_bounds eps v He). lra.
Qed.

Lemma safe_cumprod_nonincreasing_exclusive_witness :
  0 < / 1000000 /\
  nonincreasing (safe_cumprod [/ 2; / 4] (/ 1000000)) /\
  safe_cumprod [/ 2; / 4] (/ 1000000)
  = exclusive_cumprod (map (clamp (/ 1000000) 1) [/ 2; / 4]).
Proof.
  split; [lra | apply (safe_cumprod_nonincreasing_exclusive [/ 2; / 4]); lra].
Defined.

(** C7 as stated fails: on the one-entry row [[1/2]] the code returns
    [[1]], the inclusive formula of the claim [[1/2]]. *)
Lemma safe_cumprod_not_inclusive :
  safe_cumprod [/ 2] (/ 1000000) = [1] /\
  spec_safe_cumprod [/ 2] (/ 1000000) = [/ 2].
Proof.
  split.
  - rewrite safe_cumprod_exclusive by lra. unfold exclusive_cumprod, cumprod. simpl.
    f_equal. ring.
  - unfold spec_safe_cumprod, cumsum. simpl.
    replace (clamp (/ 1000000) 1 (/ 2)) with (/ 2)
      by (unfold clamp, Rmin, Rmax; repeat destruct Rle_dec; lra).
    rewrite Rplus_0_l, exp_ln by lra. reflexivity.
Qed.

(** ** The cache of the energy functions *)

(** C9.  When [MonotonicEnergy.forward] is called with [cache=True] while
    a key is cached, the call does not depend on its mask argument: two
    calls that differ only there return the same energy (and leave the
    same cache), the cached mask being the one applied. *)
Theorem me_forward_cached_ignores_mask (self : MonotonicEnergy)
  (key query : tensor3) (mask1 mask2 : option mask3) (cached : tensor4) :
  me_key self = Some cached ->
  me_forward self key query mask1 true = me_forward self key query mask2 true.
Proof.
  intros Hkey. unfold me_forward. rewrite Hkey. reflexivity.
Qed.

Lemma me_forward_cached_ignores_mask_witness :
  me_forward mono_cached [[[1]; [1]; [1]]] [[[1]]] (Some [[[false; true; true]]]) true
  = me_forward mono_cached [[[1]; [1]; [1]]] [[[1]]] None true.
Proof.
  apply (me_forward_cached_ignores_mask mono_cached _ _ _ _ [[[[1]; [1]; [1]]]]).
  reflexivity.
Defined.

(** ** The logistic function *)

Lemma logistic_half (x : R) : / 2 <= logistic x <-> 0 <= x.
Proof.
  unfold logistic. pose proof (exp_pos (- x)) as Hpos.
  split; intros H.
  - destruct (Rle_dec 0 x) as [Hx|Hx]; [exact Hx|]. exfalso.
    assert (Hgt : 1 < exp (- x)).
    { rewrite <- exp_0. apply exp_increasing. lra. }
    assert (Hinv : / (1 + exp (- x)) < / 2).
    { apply Rinv_lt_contravar; nra. }
    lra.
  - assert (Hle : exp (- x) <= 1).
    { destruct (Req_dec x 0) as [->|Hne].
      - rewrite Ropp_0, exp_0. lra.
      - left. rewrite <- exp_0. apply exp_increasing. lra. }
    apply Rinv_le_contravar; lra.
Qed.

Lemma chosen_logistic (x : R) :
  chosen logistic x = if Rle_dec 0 x then true else false.
Proof.
  unfold chosen. pose proof (logistic_half x) as [H1 H2].
  destruct (Rle_dec (/ 2) (logistic x)), (Rle_dec 0 x); tauto.
Qed.

Lemma choose_chosen (sigmoid : R -> R) (x : R) :
  choose sigmoid x = if chosen sigmoid x then 1 else 0.
Proof. unfold choose, chosen. destruct Rle_dec; reflexivity. Qed.

(** ** The hard selection *)

Lemma map_nth_seq (e : row) :
  e = map (fun j => nth j e 0) (seq 0 (length e)).
Proof.
  induction e as [|x e IH]; simpl; [reflexivity|].
  f_equal. rewrite <- seq_shift, map_map. exact IH.
Qed.

Lemma zip_with_map_seq {A B C : Type} (f : A -> B -> C) (g : nat -> A)
  (h : nat -> B) (s n : nat) :
  zip_with f (map g (seq s n)) (map h (seq s n))
  = map (fun j => f (g j) (h j)) (seq s n).
Proof.
  revert s. induction n as [|n IH]; intros s; simpl; [reflexivity|].
  now rewrite IH.
Qed.

(** The cumulative sum of a one-hot row is the step at its index. *)
Lemma cumsum_from_one_hot (t s n : nat) (a : R) :
  a = (if (t <? s)%nat then 1 else 0) ->
  cumsum_from a (map (fun j => if (j =? t)%nat then 1 else 0) (seq s n))
  = map (fun j => if (t <=? j)%nat then 1 else 0) (seq s n).
Proof.
  revert s a. induction n as [|n IH]; intros s a Ha; simpl; [reflexivity|].
  assert (Hstep : a + (if (s =? t)%nat then 1 else 0)
                  = if (t <=? s)%nat then 1 else 0).
  { subst a. destruct (Nat.ltb_spec t s), (Nat.eqb_spec s t), (Nat.leb_spec t s);
      try lia; lra. }
  rewrite Hstep. f_equal. apply IH.
  destruct (Nat.leb_spec t s), (Nat.ltb_spec t (S s)); try lia; reflexivity.
Qed.

Lemma cumsum_one_hot (klen t : nat) :
  cumsum (one_hot klen t)
  = map (fun j => if (t <=? j)%nat then 1 else 0) (seq 0 klen).
Proof.
  apply cumsum_from_one_hot. reflexivity.
Qed.

Lemma cumprod_from_removelast (a : R) (l : row) :
  cumprod_from a (removelast l) = removelast (cumprod_from a l).
Proof.
  revert a. induction l as [|x [|y l] IH]; intros a; simpl in *; try reflexivity.
  f_equal. apply IH.
Qed.

Lemma zip_with_removelast {A C : Type} (f : A -> R -> C) (xs : list A)
  (a : R) (l : row) :
  (length xs <= length l)%nat ->
  zip_with f xs (a :: removelast l) = zip_with f xs (a :: l).
Proof.
  revert a l. induction xs as [|x xs IH]; intros a l Hlen; [reflexivity|].
  destruct l as [|b l]; simpl in Hlen; [lia|].
  simpl zip_with at 2. simpl zip_with at 1. f_equal.
  destruct l as [|c l].
  - destruct xs; [reflexivity | simpl in Hlen; lia].
  - apply (IH b (c :: l)). simpl in *. lia.
Qed.

(** Selecting with the exclusive cumulative product of the complement, on
    a row of indicators: the running product is 1 until the first
    indicator and 0 after it. *)
Lemma select_first_from (ind : nat -> bool) (s n : nat) (c : R) :
  c = (if forallb (fun k => negb (ind k)) (seq 0 s) then 1 else 0) ->
  zip_with Rmult (map (fun j => if ind j then 1 else 0) (seq s n))
    (c :: cumprod_from c
            (map (fun x => 1 - x) (map (fun j => if ind j then 1 else 0) (seq s n))))
  = map (fun j => if is_first ind j then 1 else 0) (seq s n).
Proof.
  revert s c. induction n as [|n IH]; intros s c Hc; [reflexivity|].
  simpl. f_equal.
  - unfold is_first. subst c.
    destruct (ind s), (forallb _ (seq 0 s)); simpl; lra.
  - apply IH. rewrite seq_S, forallb_app. simpl. subst c.
    destruct (ind s), (forallb _ (seq 0 s)); simpl; lra.
Qed.

Lemma length_cumprod_from (a : R) (l : row) :
  length (cumprod_from a l) = length l.
Proof. revert a. induction l; intros a0; simpl; auto. Qed.

Lemma length_cumsum_from (a : R) (l : row) :
  length (cumsum_from a l) = length l.
Proof. revert a. induction l; intros a0; simpl; auto. Qed.

Lemma select_first (ind : nat -> bool) (klen : nat) :
  let p := map (fun j => if ind j then 1 else 0) (seq 0 klen) in
  zip_with Rmult p (exclusive_cumprod (map (fun x => 1 - x) p))
  = first_hot ind klen.
Proof.
  intros p. unfold exclusive_cumprod, cumprod. simpl.
  rewrite cumprod_from_removelast, zip_with_removelast.
  - apply select_first_from. simpl. lra.
  - rewrite length_cumprod_from, length_map. lia.
Qed.

(** The hard selection of one head from a one-hot [aw_prev]. *)
Lemma hard_select_one_hot (sigmoid : R -> R) (e : row) (t : nat) :
  hard_select sigmoid [e] [one_hot (length e) t]
  = Ok [first_hot (remaining sigmoid t e) (length e)].
Proof.
  unfold hard_select, bcast_to. simpl. do 2 f_equal.
  rewrite cumsum_one_hot.
  assert (Hp : zip_with Rmult (map (choose sigmoid) e)
                 (map (fun j => if (t <=? j)%nat then 1 else 0) (seq 0 (length e)))
               = map (fun j => if remaining sigmoid t e j then 1 else 0)
                     (seq 0 (length e))).
  { rewrite (map_nth_seq e) at 1. rewrite map_map, zip_with_map_seq.
    apply map_ext. intros j. unfold remaining. rewrite choose_chosen.
    destruct (t <=? j)%nat, (chosen sigmoid (nth j e 0)); simpl; lra. }
  rewrite Hp. apply select_first.
Qed.

(** At most one entry of a first-indicator row is set. *)
Lemma is_first_unique (ind : nat -> bool) (j k : nat) :
  is_first ind j = true -> is_first ind k = true -> j = k.
Proof.
  unfold is_first. intros Hj Hk.
  apply andb_prop in Hj, Hk. destruct Hj as [Hj Hbj], Hk as [Hk Hbk].
  rewrite forallb_forall in Hbj, Hbk.
  destruct (Nat.lt_trichotomy j k) as [Hlt|[Heq|Hgt]]; [|exact Heq|].
  - specialize (Hbk j). rewrite Hj in Hbk.
    discriminate Hbk. apply in_seq. lia.
  - specialize (Hbj k). rewrite Hk in Hbj.
    discriminate Hbj. apply in_seq. lia.
Qed.

(** C4 (amended).  In hard mode before latency control, with [aw_prev]
    one-hot at [t]: the choose indicators are [sigmoid(e) >= 0.5]; those
    strictly before [t] are suppressed, the one at [t] itself is kept;
    the row of alpha has a 1 at the first remaining indicator and zeros
    elsewhere, so it is one-hot there or all-zero when none remains. *)
Theorem hard_select_first_remaining (sigmoid : R -> R) (e : row) (t : nat) :
  hard_select sigmoid [e] [one_hot (length e) t]
  = Ok [first_hot (remaining sigmoid t e) (length e)]
  /\ (forall j k, is_first (remaining sigmoid t e) j = true ->
                  is_first (remaining sigmoid t e) k = true -> j = k).
Proof.
  split; [apply hard_select_one_hot | apply is_first_unique].
Qed.

(** C4 as stated fails: with the previous boundary at 0 and every frame
    chosen, the code selects frame 0 again, where suppressing the
    indicator at the boundary would select frame 1. *)
Lemma hard_select_keeps_previous_boundary :
  hard_select logistic [[2; 2; 2]] [one_hot 3 0] = Ok [[1; 0; 0]] /\
  first_hot (spec_remaining logistic 0 [2; 2; 2]) 3 = [0; 1; 0].
Proof.
  split.
  - etransitivity; [exact (hard_select_one_hot logistic [2; 2; 2] 0%nat)|].
    unfold first_hot, is_first, remaining. simpl.
    rewrite !chosen_logistic. repeat destruct Rle_dec; try lra. reflexivity.
  - unfold first_hot, is_first, spec_remaining. simpl.
    rewrite !chosen_logistic. repeat destruct Rle_dec; try lra. reflexivity.
Qed.

(** ** Results of loops *)

Lemma bind_ok {A B : Type} (r : result A) (a : A) (k : A -> result B) :
  r = Ok a -> bind r k = k a.
Proof. intros ->. reflexivity. Qed.

Lemma mapM_ext {A B : Type} (f g : A -> result B) (l : list A) :
  (forall a, In a l -> f a = g a) -> mapM f l = mapM g l.
Proof.
  induction l as [|a l IH]; intros Hfg; simpl; [reflexivity|].
  rewrite (Hfg a) by (left; reflexivity).
  rewrite IH; [reflexivity|]. intros b Hb. apply Hfg. right. exact Hb.
Qed.

Lemma mapM_Forall {A B : Type} (f : A -> result B) (P : B -> Prop) (l : list A) :
  (forall a, In a l -> exists b, f a = Ok b /\ P b) ->
  exists l', mapM f l = Ok l' /\ Forall P l' /\ length l' = length l.
Proof.
  induction l as [|a l IH]; intros Hf; simpl.
  - exists []. repeat split. constructor.
  - destruct (Hf a) as [b [Hb HP]]; [left; reflexivity|].
    destruct IH as [l' [Hl' [HF Hlen]]].
    { intros c Hc. apply Hf. right. exact Hc. }
    exists (b :: l'). rewrite Hb, Hl'. simpl. repeat split.
    + constructor; assumption.
    + now rewrite Hlen.
Qed.

Lemma mapM_inv {A B : Type} (f : A -> result B) (l : list A) (l' : list B) :
  mapM f l = Ok l' ->
  length l' = length l /\
  forall n a b, nth_error l n = Some a -> nth_error l' n = Some b -> f a = Ok b.
Proof.
  revert l'. induction l as [|a l IH]; intros l' H; simpl in H.
  - injection H as <-. split; [reflexivity|]. intros [|n] a b Ha; discriminate.
  - destruct (f a) as [b|e] eqn:Hfa; simpl in H; [|discriminate].
    destruct (mapM f l) as [bs|e] eqn:Hm; simpl in H; [|discriminate].
    injection H as <-. destruct (IH bs eq_refl) as [Hlen Hnth].
    split; [simpl; now rewrite Hlen|].
    intros [|n] a' b' Ha Hb; simpl in Ha, Hb.
    + injection Ha as <-. injection Hb as <-. exact Hfa.
    + eapply Hnth; eassumption.
Qed.

(** ** Latency control *)

Lemma is_zero_true (x : R) : x = 0 -> is_zero x = true.
Proof. intros ->. unfold is_zero. destruct Req_dec_T; congruence. Qed.

Lemma is_zero_false (x : R) : x <> 0 -> is_zero x = false.
Proof. intros H. unfold is_zero. destruct Req_dec_T; congruence. Qed.

Lemma is_zero_spec (x : R) : is_zero x = true <-> x = 0.
Proof. unfold is_zero. destruct Req_dec_T; split; congruence. Qed.

Ltac rzero :=
  repeat match goal with
  | |- context [is_zero ?x] =>
      first [ rewrite (is_zero_true x) by lra
            | rewrite (is_zero_false x) by lra ]
  end.

(** With [vertical_latency = False] neither loop body looks at the
    boundary of the prior layer. *)
Lemma latency_head_first_layer (first1 first2 : bool)
  (eps_wait bt1 bt2 size_last leftmost rightmost : Z) (a : row) :
  latency_head first1 false eps_wait bt1 size_last leftmost rightmost a
  = latency_head first2 false eps_wait bt2 size_last leftmost rightmost a.
Proof.
  unfold latency_head. simpl. rewrite !orb_true_r. reflexivity.
Qed.

Lemma latency_batch_first_layer (eps_wait : Z) (br : option Z) (size_last : Z)
  (ab : list row) :
  latency_batch false eps_wait br size_last ab
  = latency_batch false eps_wait None size_last ab.
Proof.
  unfold latency_batch. simpl. rewrite !orb_true_r.
  destruct (is_zero (sum_list (concat ab))); [reflexivity|].
  destruct (min_item _); simpl; [|reflexivity].
  destruct (max_item _); simpl; [|reflexivity].
  apply mapM_ext. intros r _. apply latency_head_first_layer.
Qed.

Lemma latency_control_first_layer (eps_wait : Z) (br : option Z) (alpha : tensor4) :
  latency_control eps_wait br alpha = latency_control eps_wait None alpha.
Proof.
  unfold latency_control. destruct (eps_wait >? 0)%Z; [|reflexivity].
  apply mapM_ext. intros ab _. now rewrite latency_batch_first_layer.
Qed.

Lemma select_alpha_first_layer (sigmoid : R -> R) (self : MoChA) (mode : string)
  (qlen klen : nat) (e_mono aw_prev : tensor4) (trigger_point : option (list Z))
  (eps_wait : Z) (br : option Z) (rnd : randomness) :
  select_alpha sigmoid self mode qlen klen e_mono aw_prev trigger_point eps_wait
    br rnd
  = select_alpha sigmoid self mode qlen klen e_mono aw_prev trigger_point eps_wait
      None rnd.
Proof.
  unfold select_alpha.
  destruct (String.eqb mode "recursive"); [reflexivity|].
  destruct (String.eqb mode "parallel"); [reflexivity|].
  destruct (String.eqb mode "hard"); [|reflexivity].
  destruct (assert _); simpl; [|reflexivity].
  destruct (bcastM (bcastM (hard_select sigmoid)) e_mono aw_prev); simpl;
    [|reflexivity].
  now rewrite latency_control_first_layer.
Qed.

(** C3 (amended).  In hard mode with [eps_wait > 0] (and in every other
    call) a supplied [boundary_rightmost] does not constrain the
    selection: vertical latency control is switched off
    ([vertical_latency = False]), and [forward] returns what it returns
    when no boundary of a prior layer is supplied. *)
Theorem forward_ignores_boundary_rightmost (sigmoid : R -> R) (self : MoChA)
  (key value query : tensor3) (mask : option mask3) (aw_prev : option tensor4)
  (mode : string) (cache : bool) (trigger_point : option (list Z))
  (eps_wait : Z) (boundary_rightmost : Z) (rnd : randomness) :
  forward sigmoid self key value query mask aw_prev mode cache trigger_point
    eps_wait (Some boundary_rightmost) rnd
  = forward sigmoid self key value query mask aw_prev mode cache trigger_point
      eps_wait None rnd.
Proof.
  unfold forward. cbv zeta.
  destruct (fst (me_forward (monotonic_energy self) key query mask cache));
    [|reflexivity].
  now rewrite (select_alpha_first_layer _ _ _ _ _ _ _ _ _ (Some boundary_rightmost)).
Qed.

Ltac rchoose :=
  repeat match goal with
  | |- context [choose logistic ?x] =>
      rewrite (choose_chosen logistic x), (chosen_logistic x);
      destruct (Rle_dec 0 x); [try lra | try lra]
  end.

(** A call in hard mode: three frames, the third one chosen, the previous
    boundary on the first. *)
Lemma forward_hard_example (boundary_rightmost : option Z) :
  fst (forward logistic mocha_hard [[[-1]; [-1]; [2]]] [[[1]; [2]; [3]]] [[[1]]]
         None None "hard" false None 1 boundary_rightmost no_randomness)
  = Ok ([[[3]]], [[[[0; 0; 1]]]], None).
Proof.
  destruct boundary_rightmost as [br|];
  unfold forward, me_forward, select_alpha, hard_select; cbn;
  unfold dot; cbn; rchoose;
  unfold latency_control, latency_batch, latency_head, nonzero_cols; cbn;
  rzero; cbn; rzero; cbn;
  unfold context_vector, squeeze1, bmm, matmul; cbn; unfold dot; cbn;
  repeat f_equal; lra.
Qed.

(** C3 as stated fails: with [eps_wait = 1] and the boundary of the prior
    layer at frame 0, the call selects frame 2, later than [0 + 1]. *)
Lemma forward_exceeds_prior_boundary :
  fst (forward logistic mocha_hard [[[-1]; [-1]; [2]]] [[[1]; [2]; [3]]] [[[1]]]
         None None "hard" false None 1 (Some 0%Z) no_randomness)
  = Ok ([[[3]]], [[[[0; 0; 1]]]], None)
  /\ (0 + 1 < 2)%Z.
Proof.
  split; [apply forward_hard_example | lia].
Qed.

(** *** Indices written by the latency control *)

Lemma setitem_ok (r : row) (idx : Z) (v : R) :
  (0 <= idx < Z.of_nat (length r))%Z ->
  setitem r idx v = Ok (set_nth (Z.to_nat idx) v r).
Proof.
  intros H. unfold setitem.
  destruct (Z.ltb_spec idx 0); [lia|].
  destruct (Z.leb_spec 0 idx); [|lia].
  destruct (Z.ltb_spec idx (Z.of_nat (length r))); [|lia].
  reflexivity.
Qed.

Lemma length_set_nth {A : Type} (c : nat) (v : A) (r : list A) :
  (c < length r)%nat -> length (set_nth c v r) = length r.
Proof.
  intros H. unfold set_nth.
  rewrite length_app, length_firstn. cbn [length]. rewrite length_skipn. lia.
Qed.

Lemma nonzero_cols_range (r : row) (m : Z) :
  In m (nonzero_cols r) -> (0 <= m < Z.of_nat (length r))%Z.
Proof.
  unfold nonzero_cols. intros H. apply in_map_iff in H.
  destruct H as [j [<- Hj]]. apply filter_In in Hj. destruct Hj as [Hj _].
  apply in_seq in Hj. lia.
Qed.

Lemma min_item_In (l : list Z) (m : Z) :
  min_item l = Ok m -> In m l /\ forall x, In x l -> (m <= x)%Z.
Proof.
  destruct l as [|x t]; simpl; [discriminate|].
  intros H. injection H as <-.
  induction t as [|y t IH]; simpl.
  - split; [left; reflexivity|]. intros z [<-|[]]. lia.
  - destruct IH as [Hin Hle].
    split.
    + destruct (Z.min_spec y (fold_right Z.min x t)) as [[_ ->]|[_ ->]].
      * right. left. reflexivity.
      * destruct Hin as [Hin|Hin]; [left; exact Hin | right; right; exact Hin].
    + intros z [<-|[<-|Hz]].
      * specialize (Hle x (or_introl eq_refl)). lia.
      * lia.
      * specialize (Hle z (or_intror Hz)). lia.
Qed.

Lemma max_item_In (l : list Z) (m : Z) :
  max_item l = Ok m -> In m l /\ forall x, In x l -> (x <= m)%Z.
Proof.
  destruct l as [|x t]; simpl; [discriminate|].
  intros H. injection H as <-.
  induction t as [|y t IH]; simpl.
  - split; [left; reflexivity|]. intros z [<-|[]]. lia.
  - destruct IH as [Hin Hle].
    split.
    + destruct (Z.max_spec y (fold_right Z.max x t)) as [[_ ->]|[_ ->]].
      * destruct Hin as [Hin|Hin]; [left; exact Hin | right; right; exact Hin].
      * right. left. reflexivity.
    + intros z [<-|[<-|Hz]].
      * specialize (Hle x (or_introl eq_refl)). lia.
      * lia.
      * specialize (Hle z (or_intror Hz)). lia.
Qed.

Lemma min_item_nonempty (l : list Z) :
  l <> [] -> exists m, min_item l = Ok m.
Proof. destruct l; [congruence | intros _; eexists; reflexivity]. Qed.

Lemma max_item_nonempty (l : list Z) :
  l <> [] -> exists m, max_item l = Ok m.
Proof. destruct l; [congruence | intros _; eexists; reflexivity]. Qed.

Lemma sum_list_zeros (r : row) :
  Forall (fun x => x = 0) r -> sum_list r = 0.
Proof.
  induction 1 as [|x r Hx _ IH]; simpl; [reflexivity | rewrite Hx, IH; lra].
Qed.

(** A row without nonzero entries is all-zero. *)
Lemma nonzero_cols_nil (r : row) :
  nonzero_cols r = [] -> Forall (fun x => x = 0) r.
Proof.
  unfold nonzero_cols. intros H. apply map_eq_nil in H.
  apply Forall_forall. intros x Hx.
  destruct (In_nth r x 0 Hx) as [j [Hj <-]].
  destruct (is_zero (nth j r 0)) eqn:Hz; [now apply is_zero_spec|].
  assert (Hin : In j (filter (fun j => negb (is_zero (nth j r 0)))
                        (seq 0 (length r)))).
  { apply filter_In. split; [apply in_seq; lia | now rewrite Hz]. }
  rewrite H in Hin. destruct Hin.
Qed.

Lemma nonzero_cols_nonempty (r : row) :
  is_zero (sum_list r) = false -> nonzero_cols r <> [].
Proof.
  intros Hz Hnil. apply nonzero_cols_nil, sum_list_zeros in Hnil.
  rewrite is_zero_true in Hz by exact Hnil. discriminate.
Qed.

Lemma nonzero_cols_batch_nonempty (ab : list row) :
  is_zero (sum_list (concat ab)) = false ->
  concat (map nonzero_cols ab) <> [].
Proof.
  intros Hz Hnil.
  assert (Hall : Forall (fun x => x = 0) (concat ab)).
  { clear Hz. induction ab as [|a ab IH]; simpl in *; [constructor|].
    apply app_eq_nil in Hnil. destruct Hnil as [Ha Hab].
    apply Forall_app. split; [apply nonzero_cols_nil, Ha | apply IH, Hab]. }
  apply sum_list_zeros in Hall.
  rewrite is_zero_true in Hz by exact Hall. discriminate.
Qed.

Lemma in_concat_map_nonzero (ab : list row) (klen : nat) (m : Z) :
  Forall (fun a => length a = klen) ab ->
  In m (concat (map nonzero_cols ab)) -> (0 <= m < Z.of_nat klen)%Z.
Proof.
  intros Hlen Hin. apply in_concat in Hin. destruct Hin as [l [Hl Hm]].
  apply in_map_iff in Hl. destruct Hl as [a [<- Ha]].
  rewrite Forall_forall in Hlen. rewrite <- (Hlen a Ha).
  apply nonzero_cols_range, Hm.
Qed.

Lemma mapM_Forall2 {A B : Type} (f : A -> result B) (P : A -> B -> Prop)
  (l : list A) :
  (forall a, In a l -> exists b, f a = Ok b /\ P a b) ->
  exists l', mapM f l = Ok l' /\ Forall2 P l l'.
Proof.
  induction l as [|a l IH]; intros Hf; simpl.
  - exists []. split; [reflexivity | constructor].
  - destruct (Hf a) as [b [Hb HP]]; [left; reflexivity|].
    destruct IH as [l' [Hl' HF]].
    { intros c Hc. apply Hf. right. exact Hc. }
    exists (b :: l'). rewrite Hb, Hl'. simpl. split; [reflexivity|].
    constructor; assumption.
Qed.

Lemma latency_head_rewrite (first : bool)
  (eps_wait bt sl leftmost rightmost : Z) (a : row) (klen : nat) :
  (0 < eps_wait)%Z -> length a = klen ->
  (0 <= leftmost <= rightmost)%Z -> (rightmost < Z.of_nat klen)%Z ->
  (forall m, In m (nonzero_cols a) -> (m <= rightmost)%Z) ->
  exists a', latency_head first false eps_wait bt sl leftmost rightmost a = Ok a'
             /\ latency_rewrite klen rightmost a a'.
Proof.
  intros Heps Hlen Hlr Hr Hmax. unfold latency_head. rewrite !orb_true_r.
  destruct (is_zero (sum_list a)) eqn:Hz.
  - rewrite setitem_ok by lia. eexists. split; [reflexivity|].
    right. exists (Z.to_nat (Z.min rightmost (leftmost + eps_wait))).
    split; [lia|]. split; [lia|].
    left. split; [now apply is_zero_spec | reflexivity].
  - destruct (min_item_nonempty (nonzero_cols a)) as [m Hm];
      [now apply nonzero_cols_nonempty|].
    rewrite Hm. simpl.
    destruct (min_item_In _ _ Hm) as [Hin _].
    pose proof (Hmax _ Hin) as Hmr.
    apply nonzero_cols_range in Hin. rewrite Hlen in Hin.
    destruct (Z.geb_spec m (leftmost + eps_wait)) as [Hge|Hlt].
    + rewrite setitem_ok by (rewrite repeat_length; lia).
      eexists. split; [reflexivity|].
      right. exists (Z.to_nat (leftmost + eps_wait)).
      split; [lia|]. split; [lia|]. right. now rewrite Hlen.
    + eexists. split; [reflexivity | left; reflexivity].
Qed.

Lemma latency_batch_rewrite (eps_wait : Z) (br : option Z) (sl : Z)
  (klen : nat) (ab : list row) :
  (0 < eps_wait)%Z -> Forall (fun a => length a = klen) ab ->
  exists ab', latency_batch false eps_wait br sl ab = Ok ab' /\
    forall bound, (forall m, In m (concat (map nonzero_cols ab)) -> (m <= bound)%Z) ->
      Forall2 (latency_rewrite klen bound) ab ab'.
Proof.
  intros Heps Hlen. unfold latency_batch. rewrite andb_false_l.
  destruct (is_zero (sum_list (concat ab))) eqn:Hz.
  - exists ab. split; [reflexivity|]. intros bound _.
    clear. induction ab; constructor; [left; reflexivity | assumption].
  - pose proof (nonzero_cols_batch_nonempty ab Hz) as Hne.
    destruct (min_item_nonempty _ Hne) as [leftmost Hmin].
    destruct (max_item_nonempty _ Hne) as [rightmost Hmax].
    rewrite Hmin, Hmax. simpl.
    destruct (min_item_In _ _ Hmin) as [Hlin Hlle].
    destruct (max_item_In _ _ Hmax) as [Hrin Hrle].
    pose proof (in_concat_map_nonzero ab klen _ Hlen Hlin) as Hl.
    pose proof (in_concat_map_nonzero ab klen _ Hlen Hrin) as Hr.
    pose proof (Hrle _ Hlin) as Hlr.
    destruct (mapM_Forall2
                (latency_head match br with None => true | Some _ => false end
                   false eps_wait
                   (if match br with None => true | Some _ => false end || negb false
                    then (sl - 1)%Z
                    else match br with
                         | Some br0 => Z.min (sl - 1) (br0 + eps_wait)
                         | None => (sl - 1)%Z
                         end) sl leftmost rightmost)
                (latency_rewrite klen rightmost) ab) as [ab' [Hab' HF]].
    { intros a Ha. rewrite Forall_forall in Hlen.
      apply latency_head_rewrite; auto; try lia.
      intros m Hm. apply Hrle, in_concat. exists (nonzero_cols a).
      split; [now apply in_map | exact Hm]. }
    exists ab'. split; [exact Hab'|].
    intros bound Hbound. specialize (Hbound _ Hrin).
    eapply Forall2_impl; [|exact HF].
    intros a a' [->|[k [Hk [Hkr Hc]]]]; [left; reflexivity|].
    right. exists k. split; [exact Hk|]. split; [lia | exact Hc].
Qed.

(** C10.  In hard mode with [eps_wait > 0] the latency-control loop, on
    rows of [klen] entries, raises no [IndexError]: every row it returns
    is the row it was given, or has a 1 written at a key index within
    [[0, klen - 1]].  (The fallback write at [boundary_threshold] is not
    reached, vertical latency being off.) *)
Theorem latency_batch_in_bounds (eps_wait : Z) (boundary_rightmost : option Z)
  (klen : nat) (ab : list row) :
  (0 < eps_wait)%Z -> Forall (fun a => length a = klen) ab ->
  exists ab',
    latency_batch false eps_wait boundary_rightmost (Z.of_nat klen) ab = Ok ab' /\
    Forall2 (latency_rewrite klen (Z.of_nat klen - 1)) ab ab'.
Proof.
  intros Heps Hlen.
  destruct (latency_batch_rewrite eps_wait boundary_rightmost (Z.of_nat klen)
              klen ab Heps Hlen) as [ab' [Hab' HF]].
  exists ab'. split; [exact Hab'|]. apply HF.
  intros m Hm. pose proof (in_concat_map_nonzero ab klen m Hlen Hm). lia.
Qed.

Lemma latency_batch_in_bounds_witness :
  (0 < 2)%Z /\ Forall (fun a => length a = 5%nat) [[0; 0; 0; 0; 1]; [0; 0; 0; 0; 0]] /\
  exists ab',
    latency_batch false 2 None (Z.of_nat 5) [[0; 0; 0; 0; 1]; [0; 0; 0; 0; 0]] = Ok ab' /\
    Forall2 (latency_rewrite 5 (Z.of_nat 5 - 1))
      [[0; 0; 0; 0; 1]; [0; 0; 0; 0; 0]] ab'.
Proof.
  assert (H : Forall (fun a : row => length a = 5%nat)
                [[0; 0; 0; 0; 1]; [0; 0; 0; 0; 0]]).
  { repeat constructor. }
  split; [lia|]. split; [exact H|].
  apply (latency_batch_in_bounds 2 None 5 _ ltac:(lia) H).
Defined.

(** The scenario of the specification: two heads, [eps_wait = 2], head 0
    at frame 4 and head 1 without a boundary; head 1 is forced to
    [min(rightmost, leftmost + eps_wait) = 4]. *)
Lemma latency_batch_forces_head :
  latency_batch false 2 None 5 [[0; 0; 0; 0; 1]; [0; 0; 0; 0; 0]]
  = Ok [[0; 0; 0; 0; 1]; [0; 0; 0; 0; 1]].
Proof.
  unfold latency_batch, latency_head, nonzero_cols. cbn.
  rzero. cbn. rzero. cbn. reflexivity.
Qed.

(** ** The recursive mode on one query *)

Lemma skipn_nth_cons {A : Type} (s : nat) (l : list A) (d : A) :
  (s < length l)%nat -> skipn s l = nth s l d :: skipn (S s) l.
Proof.
  revert s. induction l as [|x l IH]; intros [|s] Hs; simpl in *; try lia.
  - reflexivity.
  - apply IH. lia.
Qed.

Lemma set_nth_middle {A : Type} (pre : list A) (x v : A) (post : list A) :
  set_nth (length pre) v (pre ++ x :: post) = pre ++ v :: post.
Proof.
  unfold set_nth. induction pre as [|y pre IH]; simpl; [reflexivity|].
  f_equal. exact IH.
Qed.

(** The inner loop fills [q] from left to right. *)
Lemma q_loop (shifted aw : row) (n s : nat) (pre : row) (qs : R) :
  length pre = s -> (s + n = length shifted)%nat -> length aw = length shifted ->
  for_each (seq s n) (fun j q => q_step 0 j [shifted] [aw] q)
    [pre ++ qs :: repeat 0 n]
  = Ok [pre ++ qs :: q_scan qs (skipn s shifted) (skipn s aw)].
Proof.
  revert s pre qs. induction n as [|n IH]; intros s pre qs Hpre Hs Haw.
  - simpl. rewrite !skipn_all2 by lia. reflexivity.
  - subst s. cbn [seq for_each]. unfold q_step at 1.
    cbn [slice1 skipn firstn col map bcast bind].
    rewrite nth_middle.
    unfold assign_slice_col. cbn [slice1 skipn firstn repeat].
    replace (length pre + 1)%nat with (length (pre ++ [qs]))
      by (rewrite length_app; simpl; lia).
    replace (pre ++ qs :: 0 :: repeat 0 n) with ((pre ++ [qs]) ++ 0 :: repeat 0 n)
      by (rewrite <- app_assoc; reflexivity).
    rewrite set_nth_middle. unfold set_nth at 1. cbn [firstn skipn app bind].
    replace (S (length pre)) with (length (pre ++ [qs]))
      by (rewrite length_app; simpl; lia).
    rewrite IH by (rewrite ?length_app; simpl; lia).
    rewrite length_app. cbn [length]. rewrite Nat.add_1_r.
    rewrite (skipn_nth_cons (length pre) shifted 0) by lia.
    rewrite (skipn_nth_cons (length pre) aw 0) by lia.
    cbn [q_scan]. rewrite <- app_assoc. reflexivity.
Qed.

Lemma q_scan_recurrence (p aw : row) (s q_prev : R) :
  zip_with Rmult p (q_scan q_prev (s :: map (fun x => 1 - x) (removelast p)) aw)
  = recurrence (s * q_prev) p aw.
Proof.
  revert aw s q_prev. induction p as [|pj p IH]; intros aw s q_prev; [reflexivity|].
  destruct aw as [|a aw]; [reflexivity|].
  cbn [q_scan recurrence zip_with]. f_equal.
  destruct p as [|pk p]; [reflexivity|].
  change (removelast (pj :: pk :: p)) with (pj :: removelast (pk :: p)).
  cbn [map]. apply IH.
Qed.

Lemma recursive_step_row (p aw : row) :
  length aw = length p ->
  recursive_step (length p) 0 [p] [aw] = Ok [recurrence (1 * 0) p aw].
Proof.
  intros Hlen. destruct p as [|x p].
  { destruct aw; [reflexivity | discriminate]. }
  unfold recursive_step. cbn [slice1 skipn firstn map zip_with app].
  rewrite Nat.add_1_r. cbn [repeat].
  match goal with
  | |- bind ?loop _ = _ =>
      replace loop
        with (Ok [0 :: q_scan 0 (1 :: map (fun x => 1 - x) (removelast (x :: p))) aw]
              : result mat)
  end.
  - cbn [bind slice1 skipn firstn map bcast]. rewrite q_scan_recurrence. reflexivity.
  - symmetry.
    assert (Hsh : length (1 :: map (fun x => 1 - x) (removelast (x :: p)))
                  = length (x :: p)).
    { cbn [length]. rewrite length_map, (removelast_firstn_len (x :: p)), length_firstn.
      simpl. lia. }
    apply (q_loop (1 :: map (fun x => 1 - x) (removelast (x :: p))) aw
             (length (x :: p)) 0 [] 0).
    + reflexivity.
    + rewrite Hsh. reflexivity.
    + rewrite Hsh. exact Hlen.
Qed.

(** The recursive mode on one query position is the recurrence. *)
Lemma recursive_mode_row (p aw : row) :
  length aw = length p ->
  recursive_mode 1 (length p) [p] [aw] = Ok [recurrence (1 * 0) p aw].
Proof.
  intros Hlen. unfold recursive_mode. cbn [seq for_each fst snd].
  rewrite recursive_step_row by exact Hlen. reflexivity.
Qed.

(** ** The parallel mode on one query *)

Lemma parallel_mode_row (eps : R) (no_denom : bool) (limit : option Z) (p aw : row) :
  parallel_mode eps no_denom limit 1 [p] [aw]
  = Ok [match limit with
        | Some s => zero_from s (closed_form eps no_denom p aw)
        | None => closed_form eps no_denom p aw
        end].
Proof.
  unfold parallel_mode, parallel_step, closed_form.
  destruct no_denom, limit; reflexivity.
Qed.

Lemma clamp_id (eps x : R) : eps <= x <= 1 -> clamp eps 1 x = x.
Proof. intros H. unfold clamp, Rmin, Rmax. repeat destruct Rle_dec; lra. Qed.

Lemma clamp_lo (eps x : R) : x <= eps <= 1 -> clamp eps 1 x = eps.
Proof. intros H. unfold clamp, Rmin, Rmax. repeat destruct Rle_dec; lra. Qed.

Ltac rlist :=
  repeat (apply (f_equal2 (@cons R)); [first [reflexivity | field | lra]|]);
  try reflexivity.

Ltac rclamp :=
  repeat match goal with
  | |- context [clamp ?e 1 ?x] =>
      first [ rewrite (clamp_id e x) by lra | rewrite (clamp_lo e x) by lra ]
  end.

Lemma map_clamp_id (eps : R) (l : row) :
  Forall (fun x => eps <= x <= 1) l -> map (clamp eps 1) l = l.
Proof.
  induction 1 as [|x l Hx _ IH]; simpl; [reflexivity|].
  rewrite IH. f_equal. unfold clamp, Rmin, Rmax. repeat destruct Rle_dec; lra.
Qed.

Lemma zip_with_exclusive_cumprod {A C : Type} (f : A -> R -> C) (g : R -> R)
  (xs : list A) (x : row) :
  (length xs <= length x)%nat ->
  zip_with f xs (map g (exclusive_cumprod x))
  = zip_with f xs (map g ((1 * 1) :: cumprod_from (1 * 1) x)).
Proof.
  intros Hlen. unfold exclusive_cumprod, cumprod. cbn [cumprod_from map].
  rewrite cumprod_from_removelast, <- removelast_map.
  apply zip_with_removelast. now rewrite length_map, length_cumprod_from.
Qed.

(** Entry [k] of the exclusive cumulative product is entry [k] of the
    running products that start from 1. *)
Lemma nth_exclusive_cumprod (x : row) (k : nat) :
  (k < length x)%nat ->
  nth k (exclusive_cumprod x) 0 = nth k ((1 * 1) :: cumprod_from (1 * 1) x) 0.
Proof.
  intros Hk. unfold exclusive_cumprod, cumprod. cbn [cumprod_from].
  rewrite cumprod_from_removelast. destruct k as [|k]; [reflexivity|].
  cbn [nth]. rewrite removelast_firstn_len, nth_firstn, length_cumprod_from.
  destruct (Nat.ltb_spec k (Nat.pred (length x))); [reflexivity | lia].
Qed.

(** *** The closed form, frame by frame *)

Lemma closed_from_cons (eps : R) (no_denom : bool) (c S pj a : R) (p aw : row) :
  closed_from eps no_denom c S (pj :: p) (a :: aw)
  = pj * c * (S + a / (if no_denom then 1 else clamp eps 1 c))
    :: closed_from eps no_denom (c * (1 - pj))
         (S + a / (if no_denom then 1 else clamp eps 1 c)) p aw.
Proof. destruct no_denom; reflexivity. Qed.

Lemma closed_from_nil_r (eps : R) (no_denom : bool) (c S : R) (p : row) :
  closed_from eps no_denom c S p [] = [].
Proof. destruct p, no_denom; reflexivity. Qed.

Lemma length_closed_from (eps : R) (no_denom : bool) (c S : R) (p aw : row) :
  length aw = length p -> length (closed_from eps no_denom c S p aw) = length p.
Proof.
  revert aw c S. induction p as [|pj p IH]; intros [|a aw] c S H;
    simpl in H; try lia; [reflexivity|].
  rewrite closed_from_cons. cbn [length]. f_equal. apply IH. lia.
Qed.

(** Where no [1 - p_choose] that enters a running product is clamped,
    [safe_cumprod] is the exclusive cumulative product itself. *)
Lemma safe_cumprod_idle (eps : R) (p : row) :
  0 < eps -> Forall (fun x => eps <= 1 - x <= 1) (removelast p) ->
  safe_cumprod (map (fun x => 1 - x) p) eps
  = exclusive_cumprod (map (fun x => 1 - x) p).
Proof.
  intros He Hp. rewrite safe_cumprod_exclusive by exact He.
  unfold exclusive_cumprod. rewrite !removelast_map.
  rewrite (map_clamp_id eps (map (fun x => 1 - x) (removelast p))); [reflexivity|].
  apply Forall_forall. intros y Hy. apply in_map_iff in Hy.
  destruct Hy as [x [<- Hx]]. rewrite Forall_forall in Hp. exact (Hp x Hx).
Qed.

Lemma closed_form_closed_from (eps : R) (no_denom : bool) (p aw : row) :
  0 < eps -> length aw = length p ->
  Forall (fun x => eps <= 1 - x <= 1) (removelast p) ->
  closed_form eps no_denom p aw = closed_from eps no_denom (1 * 1) 0 p aw.
Proof.
  intros He Hlen Hp. unfold closed_form, closed_from. cbv zeta.
  rewrite safe_cumprod_idle by assumption.
  rewrite <- (map_id (exclusive_cumprod (map (fun x => 1 - x) p))) at 1.
  rewrite zip_with_exclusive_cumprod by (rewrite length_map; lia).
  rewrite map_id. destruct no_denom; [reflexivity|].
  rewrite zip_with_exclusive_cumprod by (rewrite length_map; lia).
  reflexivity.
Qed.

(** What the denominator does to the weight [a] of a frame whose running
    product is [c]: it never adds mass, and it removes some when the
    clamp to [eps] is active. *)
Lemma scaled_le (eps : R) (no_denom : bool) (c a : R) :
  0 < eps -> 0 < c <= 1 -> 0 <= a ->
  0 <= a / (if no_denom then 1 else clamp eps 1 c) /\
  c * (a / (if no_denom then 1 else clamp eps 1 c)) <= a.
Proof.
  intros He Hc Ha.
  set (d := if no_denom then 1 else clamp eps 1 c).
  assert (Hd : c <= d).
  { unfold d. destruct no_denom; [lra|].
    unfold clamp, Rmin, Rmax. repeat destruct Rle_dec; lra. }
  assert (Hx : 0 <= a / d) by (apply Rle_mult_inv_pos; lra).
  split; [exact Hx|].
  replace a with (d * (a / d)) at 2 by (field; lra). nra.
Qed.

Lemma scaled_lt (eps c a : R) :
  0 < eps <= 1 -> 0 < c < eps -> 0 < a -> c * (a / clamp eps 1 c) < a.
Proof.
  intros He Hc Ha. rewrite clamp_lo by lra.
  assert (Hx : 0 < a / eps) by (apply Rdiv_lt_0_compat; lra).
  replace a with (eps * (a / eps)) at 2 by (field; lra). nra.
Qed.

(** Where the clamp of the denominator is idle on every frame that holds
    weight, the closed form solves the recurrence: with the running
    product [c] and the running sum [S], the mass carried into a frame is
    [c * S]. *)
Lemma closed_from_recurrence (eps : R) (p aw : row) (c S : R) :
  0 < eps -> 0 < c <= 1 ->
  Forall (fun x => eps <= 1 - x <= 1) (removelast p) ->
  (forall k, (k < length p)%nat -> nth k aw 0 <> 0 ->
     eps <= nth k (c :: cumprod_from c (map (fun x => 1 - x) p)) 0) ->
  closed_from eps false c S p aw = recurrence (c * S) p aw.
Proof.
  intros He. revert aw c S. induction p as [|pj p IH]; intros aw c S Hc Hp Hk.
  { reflexivity. }
  destruct aw as [|a aw]; [apply closed_from_nil_r|].
  rewrite closed_from_cons. cbn [recurrence].
  assert (Hd : c * (a / clamp eps 1 c) = a).
  { destruct (Req_dec a 0) as [->|Ha].
    - unfold Rdiv. ring.
    - pose proof (Hk 0%nat ltac:(simpl; lia) Ha) as H0. cbn [nth] in H0.
      rewrite clamp_id by lra. field. lra. }
  set (X := a / clamp eps 1 c) in *.
  f_equal.
  - replace (pj * (c * S + a)) with (pj * (c * S + c * X)) by (now rewrite Hd).
    ring.
  - destruct p as [|p1 p]; [reflexivity|].
    change (removelast (pj :: p1 :: p)) with (pj :: removelast (p1 :: p)) in Hp.
    pose proof (Forall_inv Hp) as Hpj.
    transitivity (recurrence (c * (1 - pj) * (S + X)) (p1 :: p) aw).
    + apply IH.
      * nra.
      * exact (Forall_inv_tail Hp).
      * intros k Hlt Hak. exact (Hk (Datatypes.S k) ltac:(simpl in *; lia) Hak).
    + f_equal.
      replace ((1 - pj) * (c * S + a)) with ((1 - pj) * (c * S + c * X))
        by (now rewrite Hd).
      ring.
Qed.

(** Once the closed form carries less mass than the recurrence, it gives
    less to every later frame that can be chosen. *)
Lemma closed_from_lt (eps : R) (p aw : row) (c S carry : R) (j : nat) :
  0 < eps -> 0 < c <= 1 -> c * S < carry ->
  Forall (fun x => eps <= 1 - x <= 1) (removelast p) ->
  Forall (fun a => 0 <= a) aw -> length aw = length p ->
  (j < length p)%nat -> 0 < nth j p 0 ->
  nth j (closed_from eps false c S p aw) 0 < nth j (recurrence carry p aw) 0.
Proof.
  intros He. revert aw c S carry j.
  induction p as [|pj p IH]; intros aw c S carry j Hc Hlt Hp Haw Hlen Hj Hpos.
  { simpl in Hj. lia. }
  destruct aw as [|a aw]; [discriminate|].
  rewrite closed_from_cons. cbn [recurrence].
  destruct (scaled_le eps false c a He Hc (Forall_inv Haw)) as [Hx Hcx].
  cbv iota in Hx, Hcx. set (X := a / clamp eps 1 c) in *.
  assert (Hstep : c * (S + X) < carry + a) by nra.
  destruct j as [|j].
  - cbn [nth] in *. rewrite Rmult_assoc. apply Rmult_lt_compat_l; assumption.
  - cbn [nth] in *. destruct p as [|p1 p]; [simpl in Hj; lia|].
    change (removelast (pj :: p1 :: p)) with (pj :: removelast (p1 :: p)) in Hp.
    pose proof (Forall_inv Hp) as Hpj.
    apply IH.
    + nra.
    + replace (c * (1 - pj) * (S + X)) with ((1 - pj) * (c * (S + X))) by ring.
      apply Rmult_lt_compat_l; [lra | exact Hstep].
    + exact (Forall_inv_tail Hp).
    + exact (Forall_inv_tail Haw).
    + simpl in *. lia.
    + simpl in *. lia.
    + exact Hpos.
Qed.

(** The clamp removes mass at a frame [k] that holds weight and whose
    running product is below [eps]: from there on the closed form gives
    less than the recurrence. *)
Lemma closed_from_lt_after (eps : R) (k : nat) (p aw : row) (c S carry : R)
  (j : nat) :
  0 < eps <= 1 -> 0 < c <= 1 -> c * S <= carry ->
  Forall (fun x => eps <= 1 - x <= 1) (removelast p) ->
  Forall (fun a => 0 <= a) aw -> length aw = length p ->
  (k <= j < length p)%nat -> 0 < nth k aw 0 ->
  nth k (c :: cumprod_from c (map (fun x => 1 - x) p)) 0 < eps ->
  0 < nth j p 0 ->
  nth j (closed_from eps false c S p aw) 0 < nth j (recurrence carry p aw) 0.
Proof.
  intros He. revert p aw c S carry j.
  induction k as [|k IH];
    intros p aw c S carry j Hc Hle Hp Haw Hlen Hj Hak Hck Hpos.
  - destruct p as [|pj p]; [simpl in Hj; lia|].
    destruct aw as [|a aw]; [discriminate|].
    cbn [nth] in Hak, Hck.
    rewrite closed_from_cons. cbn [recurrence].
    pose proof (scaled_lt eps c a He ltac:(lra) Hak) as Hcx.
    set (X := a / clamp eps 1 c) in *.
    assert (Hstep : c * (S + X) < carry + a) by nra.
    destruct j as [|j].
    + cbn [nth] in *. rewrite Rmult_assoc. apply Rmult_lt_compat_l; assumption.
    + cbn [nth] in *. destruct p as [|p1 p]; [simpl in Hj; lia|].
      change (removelast (pj :: p1 :: p)) with (pj :: removelast (p1 :: p)) in Hp.
    pose proof (Forall_inv Hp) as Hpj.
      apply closed_from_lt.
      * lra.
      * nra.
      * replace (c * (1 - pj) * (S + X)) with ((1 - pj) * (c * (S + X))) by ring.
        apply Rmult_lt_compat_l; [lra | exact Hstep].
      * exact (Forall_inv_tail Hp).
      * exact (Forall_inv_tail Haw).
      * simpl in *. lia.
      * simpl in *. lia.
      * exact Hpos.
  - destruct j as [|j]; [lia|].
    destruct p as [|pj p]; [simpl in Hj; lia|].
    destruct aw as [|a aw]; [discriminate|].
    rewrite closed_from_cons. cbn [recurrence].
    cbn [nth map cumprod_from] in Hak, Hck, Hpos |- *.
    destruct p as [|p1 p]; [simpl in Hj; lia|].
    change (removelast (pj :: p1 :: p)) with (pj :: removelast (p1 :: p)) in Hp.
    pose proof (Forall_inv Hp) as Hpj.
    destruct (scaled_le eps false c a ltac:(lra) Hc (Forall_inv Haw)) as [Hx Hcx].
    cbv iota in Hx, Hcx. set (X := a / clamp eps 1 c) in *.
    assert (Hstep : c * (S + X) <= carry + a) by nra.
    apply IH.
    + nra.
    + replace (c * (1 - pj) * (S + X)) with ((1 - pj) * (c * (S + X))) by ring.
      apply Rmult_le_compat_l; [lra | exact Hstep].
    + exact (Forall_inv_tail Hp).
    + exact (Forall_inv_tail Haw).
    + simpl in *. lia.
    + simpl in *. lia.
    + exact Hak.
    + exact Hck.
    + exact Hpos.
Qed.

(** C1 (amended).  For one query position ([qlen = 1]), with the
    denominator enabled, without DeCoT masking, and for the same
    [p_choose], where no [1 - p_choose] that enters a running product
    (every frame but the last) is clamped, i.e. lies in [[eps, 1]]:
    the alpha of the parallel mode equals the alpha of the recursive mode,
    exactly in real arithmetic and for every [klen], whenever the running
    product of [1 - p_choose] is at least [eps] at every frame where
    [aw_prev] is not zero.  Conversely, for a nonnegative [aw_prev], a
    frame [k] that holds weight and whose running product is below [eps]
    makes the parallel mode give strictly less than the recursive mode at
    every frame [j >= k] with [p_choose > 0]. *)
Theorem parallel_equals_recursive (eps : R) (p_choose aw_prev : row) :
  0 < eps -> length aw_prev = length p_choose ->
  Forall (fun p => eps <= 1 - p <= 1) (removelast p_choose) ->
  ((forall k, (k < length p_choose)%nat -> nth k aw_prev 0 <> 0 ->
      eps <= nth k (exclusive_cumprod (map (fun p => 1 - p) p_choose)) 0) ->
   parallel_mode eps false None 1 [p_choose] [aw_prev]
   = recursive_mode 1 (length p_choose) [p_choose] [aw_prev]) /\
  (eps <= 1 -> Forall (fun a => 0 <= a) aw_prev ->
   forall k j, (k <= j < length p_choose)%nat -> 0 < nth k aw_prev 0 ->
     nth k (exclusive_cumprod (map (fun p => 1 - p) p_choose)) 0 < eps ->
     0 < nth j p_choose 0 ->
     exists a r,
       parallel_mode eps false None 1 [p_choose] [aw_prev] = Ok [a] /\
       recursive_mode 1 (length p_choose) [p_choose] [aw_prev] = Ok [r] /\
       nth j a 0 < nth j r 0).
Proof.
  intros He Hlen Hp.
  rewrite parallel_mode_row, recursive_mode_row by exact Hlen.
  rewrite closed_form_closed_from by assumption.
  split.
  - intros Hk. do 2 f_equal.
    transitivity (recurrence (1 * 1 * 0) p_choose aw_prev).
    + apply closed_from_recurrence; [exact He | lra | exact Hp |].
      intros k Hlt Hak. rewrite <- nth_exclusive_cumprod
        by (now rewrite length_map).
      exact (Hk k Hlt Hak).
    + f_equal. ring.
  - intros He1 Haw k j Hkj Hak Hck Hpos. do 2 eexists.
    split; [reflexivity|]. split; [reflexivity|].
    apply (closed_from_lt_after eps k); try assumption; try lra.
    rewrite <- nth_exclusive_cumprod by (rewrite length_map; lia).
    exact Hck.
Qed.

Lemma parallel_equals_recursive_witness :
  parallel_mode (/ 1000000) false None 1
    [[9999 / 10000; 9999 / 10000; / 2]] [[1; 0; 0]]
  = recursive_mode 1 (length [9999 / 10000; 9999 / 10000; / 2])
      [[9999 / 10000; 9999 / 10000; / 2]] [[1; 0; 0]].
Proof.
  apply (parallel_equals_recursive (/ 1000000)
           [9999 / 10000; 9999 / 10000; / 2] [1; 0; 0]).
  - lra.
  - reflexivity.
  - cbn [removelast]. repeat constructor; lra.
  - intros k Hk Hak. destruct k as [|[|[|k]]]; cbn [nth] in Hak.
    + unfold exclusive_cumprod, cumprod. cbn. lra.
    + contradiction.
    + contradiction.
    + simpl in Hk. lia.
Defined.

(** C1 as stated fails: when a running product of [1 - p_choose] falls
    below [eps] the parallel mode divides by [eps] instead; on three
    frames with [p_choose = [0.9999; 0.9999; 0.5]] and the previous
    boundary on the last one, it gives the last frame 1/200 where the
    recurrence gives 1/2. *)
Lemma parallel_differs_from_recursive :
  parallel_mode (/ 1000000) false None 1
    [[9999 / 10000; 9999 / 10000; / 2]] [[0; 0; 1]] = Ok [[0; 0; / 200]] /\
  recursive_mode 1 3
    [[9999 / 10000; 9999 / 10000; / 2]] [[0; 0; 1]] = Ok [[0; 0; / 2]].
Proof.
  split.
  - rewrite parallel_mode_row. unfold closed_form.
    rewrite safe_cumprod_exclusive by lra.
    unfold exclusive_cumprod, cumprod, cumsum. cbn. rclamp.
    repeat f_equal; field.
  - etransitivity;
      [exact (recursive_mode_row [9999 / 10000; 9999 / 10000; / 2] [0; 0; 1] eq_refl)|].
    cbn. repeat f_equal; field.
Qed.

(** Beyond one query position the recursive mode does not run the
    recurrence at all: [q] has a single row and is sliced with the query
    index, so every later position contributes an empty tensor. *)
Lemma recursive_mode_second_query_lost :
  recursive_mode 2 2 [[/ 2; / 2]; [/ 2; / 2]] [[1; 0]] = Ok [[/ 2; / 4]] /\
  parallel_mode (/ 1000000) false None 2 [[/ 2; / 2]; [/ 2; / 2]] [[1; 0]]
  = Ok [[/ 2; / 4]; [/ 4; / 4]].
Proof.
  split.
  - unfold recursive_mode, recursive_step, q_step, assign_slice_col. cbn.
    repeat f_equal; field.
  - unfold parallel_mode, parallel_step. cbn [map].
    rewrite !safe_cumprod_exclusive by lra.
    unfold exclusive_cumprod, cumprod, cumsum. cbn. rclamp.
    repeat f_equal; field.
Qed.

(** ** Rows of alpha *)

Lemma recurrence_nonneg (p aw : row) (carry : R) :
  0 <= carry -> Forall (fun x => 0 <= x <= 1) p -> Forall (fun a => 0 <= a) aw ->
  Forall (fun x => 0 <= x) (recurrence carry p aw).
Proof.
  intros Hc Hp. revert aw carry Hc.
  induction Hp as [|pj p Hpj _ IH]; intros aw carry Hc Haw; [constructor|].
  destruct Haw as [|a aw Ha Haw]; [constructor|].
  cbn [recurrence]. constructor; [nra|]. apply IH; [nra | exact Haw].
Qed.

Lemma sum_list_nonneg (r : row) : Forall (fun x => 0 <= x) r -> 0 <= sum_list r.
Proof. induction 1 as [|x r Hx _ IH]; simpl; lra. Qed.

Lemma recurrence_sum (p aw : row) (carry : R) :
  0 <= carry -> Forall (fun x => 0 <= x <= 1) p -> Forall (fun a => 0 <= a) aw ->
  sum_list (recurrence carry p aw) <= carry + sum_list aw.
Proof.
  intros Hc Hp. revert aw carry Hc.
  induction Hp as [|pj p Hpj _ IH]; intros aw carry Hc Haw.
  { simpl. pose proof (sum_list_nonneg aw Haw). destruct aw; simpl in *; lra. }
  destruct Haw as [|a aw Ha Haw]; [simpl; lra|].
  cbn [recurrence sum_list fold_right].
  assert (Hnext : 0 <= (1 - pj) * (carry + a)) by nra.
  specialize (IH aw _ Hnext Haw). unfold sum_list in IH. nra.
Qed.

Lemma Forall_zip_with {A B C : Type} (f : A -> B -> C) (P : A -> Prop)
  (Q : B -> Prop) (S : C -> Prop) (xs : list A) (ys : list B) :
  (forall x y, P x -> Q y -> S (f x y)) ->
  Forall P xs -> Forall Q ys -> Forall S (zip_with f xs ys).
Proof.
  intros Hf Hxs. revert ys. induction Hxs as [|x xs Hx _ IH]; intros ys Hys;
    [constructor|].
  destruct Hys as [|y ys Hy Hys]; [constructor|].
  simpl. constructor; [now apply Hf | now apply IH].
Qed.

Lemma cumsum_from_nonneg (xs : row) (a : R) :
  0 <= a -> Forall (fun x => 0 <= x) xs -> Forall (fun x => 0 <= x) (cumsum_from a xs).
Proof.
  intros Ha Hxs. revert a Ha. induction Hxs as [|x xs Hx _ IH]; intros a Ha;
    [constructor|].
  simpl. constructor; [lra | apply IH; lra].
Qed.

Lemma safe_cumprod_pos (x : row) (eps : R) :
  Forall (fun c => 0 < c) (safe_cumprod x eps).
Proof.
  unfold safe_cumprod. apply Forall_forall. intros c Hc.
  apply in_map_iff in Hc. destruct Hc as [y [<- _]]. apply exp_pos.
Qed.

Lemma closed_form_nonneg (eps : R) (no_denom : bool) (p aw : row) :
  0 < eps -> Forall (fun x => 0 <= x <= 1) p -> Forall (fun a => 0 <= a) aw ->
  Forall (fun x => 0 <= x) (closed_form eps no_denom p aw).
Proof.
  intros He Hp Haw. unfold closed_form.
  apply (Forall_zip_with Rmult (fun x => 0 <= x) (fun x => 0 <= x)).
  - intros x y Hx Hy. nra.
  - apply (Forall_zip_with Rmult (fun x => 0 <= x <= 1) (fun c => 0 < c));
      [intros x y Hx Hy; nra | exact Hp | apply safe_cumprod_pos].
  - apply cumsum_from_nonneg; [lra|]. destruct no_denom.
    + apply Forall_forall. intros y Hy. apply in_map_iff in Hy.
      destruct Hy as [a [<- Ha]]. rewrite Forall_forall in Haw.
      specialize (Haw a Ha). lra.
    + apply (Forall_zip_with Rdiv (fun a => 0 <= a) (fun c => 0 < c));
        [|exact Haw|].
      * intros a c Ha Hc. apply Rle_mult_inv_pos; assumption.
      * apply Forall_forall. intros c Hc. apply in_map_iff in Hc.
        destruct Hc as [y [<- _]]. apply clamp_bounds, He.
Qed.

Lemma zero_from_nonneg (s : Z) (r : row) :
  Forall (fun x => 0 <= x) r -> Forall (fun x => 0 <= x) (zero_from s r).
Proof.
  intros Hr. unfold zero_from. cbv zeta. set (n := Z.to_nat _).
  apply Forall_app. split.
  - rewrite <- (firstn_skipn n r) in Hr.
    apply Forall_app in Hr. exact (proj1 Hr).
  - apply Forall_forall. intros x Hx. apply repeat_spec in Hx. lra.
Qed.

Lemma zero_from_sum (s : Z) (r : row) :
  Forall (fun x => 0 <= x) r -> sum_list (zero_from s r) <= sum_list r.
Proof.
  intros Hr. unfold zero_from. cbv zeta.
  set (n := Z.to_nat _).
  rewrite sum_list_app, sum_list_repeat0.
  rewrite <- (firstn_skipn n r) at 2. rewrite sum_list_app.
  assert (Hs : 0 <= sum_list (skipn n r)).
  { apply sum_list_nonneg. rewrite <- (firstn_skipn n r) in Hr.
    apply Forall_app in Hr. exact (proj2 Hr). }
  lra.
Qed.

Lemma length_zero_from (s : Z) (r : row) : length (zero_from s r) = length r.
Proof.
  unfold zero_from. rewrite length_app, length_firstn, repeat_length. lia.
Qed.

Lemma length_recurrence (p aw : row) (carry : R) :
  length aw = length p -> length (recurrence carry p aw) = length p.
Proof.
  revert aw carry. induction p as [|pj p IH]; intros [|a aw] carry H;
    simpl in *; try lia.
  now rewrite IH by lia.
Qed.

(** *** The parallel mode on every query position *)

Lemma slice1_nth {A : Type} (i : nat) (l : list A) (d : A) :
  (i < length l)%nat -> slice1 i l = [nth i l d].
Proof.
  intros Hi. unfold slice1. now rewrite (skipn_nth_cons i l d Hi).
Qed.

Lemma slice1_map {A B : Type} (f : A -> B) (i : nat) (l : list A) :
  slice1 i (map f l) = map f (slice1 i l).
Proof. unfold slice1. now rewrite skipn_map, firstn_map. Qed.

Lemma parallel_step_row (eps : R) (no_denom : bool) (limit : option Z) (i : nat)
  (ps : mat) (p aw : row) :
  slice1 i ps = [p] ->
  parallel_step eps no_denom limit i ps
    (map (fun r => safe_cumprod (map (fun x => 1 - x) r) eps) ps) [aw]
  = Ok [match limit with
        | Some s => zero_from s (closed_form eps no_denom p aw)
        | None => closed_form eps no_denom p aw
        end].
Proof.
  intros Hp. unfold parallel_step, closed_form. unfold mat, row in *.
  rewrite !slice1_map, !Hp.
  destruct no_denom, limit; reflexivity.
Qed.

Lemma parallel_loop (eps : R) (no_denom : bool) (limit : option Z) (ps : mat)
  (n s : nat) (aw : row) (acc : list mat) :
  (s + n = length ps)%nat ->
  exists last,
    for_each (seq s n)
      (fun i (st : mat * list mat) =>
         aw_prev <- parallel_step eps no_denom limit i ps
                      (map (fun r => safe_cumprod (map (fun x => 1 - x) r) eps) ps)
                      (fst st) ;;
         Ok (aw_prev, snd st ++ [aw_prev]))
      ([aw], acc)
    = Ok (last,
          acc ++ map (fun r => [r])
                     (parallel_rows eps no_denom limit (skipn s ps) aw)).
Proof.
  revert s aw acc. induction n as [|n IH]; intros s aw acc Hs.
  - exists [aw]. simpl. rewrite skipn_all2 by lia. simpl. now rewrite app_nil_r.
  - cbn [seq for_each fst snd].
    rewrite (parallel_step_row eps no_denom limit s ps (nth s ps []) aw)
      by (apply slice1_nth; lia).
    cbn [bind].
    set (alpha := match limit with
                  | Some s0 => zero_from s0 (closed_form eps no_denom (nth s ps []) aw)
                  | None => closed_form eps no_denom (nth s ps []) aw
                  end).
    destruct (IH (S s) alpha (acc ++ [[alpha]]) ltac:(lia)) as [last Hlast].
    exists last. etransitivity; [exact Hlast|]. f_equal. f_equal.
    rewrite (skipn_nth_cons s ps []) by lia.
    cbn [parallel_rows map]. rewrite <- app_assoc. reflexivity.
Qed.

Lemma concat_singletons {A : Type} (l : list A) :
  concat (map (fun r => [r]) l) = l.
Proof. induction l as [|a l IH]; simpl; [reflexivity | now rewrite IH]. Qed.

(** The parallel mode computes one row per query position. *)
Lemma parallel_mode_rows (eps : R) (no_denom : bool) (limit : option Z)
  (ps : mat) (aw : row) :
  ps <> [] ->
  parallel_mode eps no_denom limit (length ps) ps [aw]
  = Ok (parallel_rows eps no_denom limit ps aw).
Proof.
  intros Hne. unfold parallel_mode.
  destruct (parallel_loop eps no_denom limit ps (length ps) 0 aw [] eq_refl)
    as [last Hlast].
  erewrite bind_ok by exact Hlast. cbn [snd app skipn]. unfold cat_rows.
  destruct ps as [|p [|p' ps]]; [congruence | reflexivity |].
  cbn [length]. cbn [Nat.ltb Nat.leb]. now rewrite concat_singletons.
Qed.

Lemma length_closed_form (eps : R) (no_denom : bool) (p aw : row) :
  0 < eps -> length aw = length p ->
  Forall (fun x => eps <= 1 - x <= 1) (removelast p) ->
  length (closed_form eps no_denom p aw) = length p.
Proof.
  intros He Hlen Hp. rewrite closed_form_closed_from by assumption.
  now apply length_closed_from.
Qed.

Lemma idle_range (eps : R) (p : row) :
  Forall (fun x => 0 <= x <= 1) p ->
  Forall (fun x => eps <= 1 - x) (removelast p) ->
  Forall (fun x => eps <= 1 - x <= 1) (removelast p).
Proof.
  intros Hp Hi. apply Forall_removelast in Hp.
  rewrite Forall_forall in *. intros x Hx.
  specialize (Hp x Hx). specialize (Hi x Hx). lra.
Qed.

(** With or without the denominator, the closed form hands out no more
    than the mass it is given: the denominator is at least the running
    product. *)
Lemma closed_from_sum (eps : R) (no_denom : bool) (p aw : row) (c S carry : R) :
  0 < eps -> 0 < c <= 1 -> 0 <= S -> c * S <= carry ->
  Forall (fun x => 0 <= x <= 1) p ->
  Forall (fun x => eps <= 1 - x) (removelast p) ->
  Forall (fun a => 0 <= a) aw ->
  sum_list (closed_from eps no_denom c S p aw) <= carry + sum_list aw.
Proof.
  intros He. revert aw c S carry.
  induction p as [|pj p IH]; intros aw c S carry Hc HS Hle Hp Hi Haw.
  { pose proof (sum_list_nonneg aw Haw).
    assert (Hnil : closed_from eps no_denom c S [] aw = []) by reflexivity.
    rewrite Hnil. simpl. nra. }
  destruct aw as [|a aw].
  { rewrite closed_from_nil_r. simpl. nra. }
  rewrite closed_from_cons.
  destruct (scaled_le eps no_denom c a He Hc (Forall_inv Haw)) as [Hx Hcx].
  set (X := a / _) in *.
  match goal with
  | |- sum_list (?h :: ?t) <= _ => change (sum_list (h :: t)) with (h + sum_list t)
  end.
  change (sum_list (a :: aw)) with (a + sum_list aw).
  pose proof (Forall_inv Hp) as Hpj. pose proof (Forall_inv Haw) as Ha.
  pose proof (sum_list_nonneg aw (Forall_inv_tail Haw)) as Hnn.
  assert (Hstep : c * (S + X) <= carry + a) by nra.
  assert (Hpos : 0 <= c * (S + X)) by nra.
  assert (Hhead : pj * c * (S + X) <= pj * (carry + a)).
  { rewrite Rmult_assoc. apply Rmult_le_compat_l; lra. }
  destruct p as [|p1 p].
  - assert (Hnil : closed_from eps no_denom (c * (1 - pj)) (S + X) [] aw = [])
      by reflexivity.
    rewrite Hnil. simpl. nra.
  - change (removelast (pj :: p1 :: p)) with (pj :: removelast (p1 :: p)) in Hi.
    pose proof (Forall_inv Hi) as Hipj.
    assert (Hle' : c * (1 - pj) * (S + X) <= (1 - pj) * (carry + a)).
    { replace (c * (1 - pj) * (S + X)) with ((1 - pj) * (c * (S + X))) by ring.
      apply Rmult_le_compat_l; lra. }
    pose proof (IH aw (c * (1 - pj)) (S + X) ((1 - pj) * (carry + a))
                  ltac:(nra) ltac:(lra) Hle' (Forall_inv_tail Hp)
                  (Forall_inv_tail Hi) (Forall_inv_tail Haw)) as Htail.
    nra.
Qed.

Lemma closed_form_weights (eps : R) (no_denom : bool) (limit : option Z)
  (p aw : row) :
  0 < eps -> length aw = length p ->
  Forall (fun x => 0 <= x <= 1) p ->
  Forall (fun x => eps <= 1 - x) (removelast p) -> weights aw ->
  weights (match limit with
           | Some s => zero_from s (closed_form eps no_denom p aw)
           | None => closed_form eps no_denom p aw
           end).
Proof.
  intros He Hlen Hp Hi [Haw Hsum].
  pose proof (closed_form_nonneg eps no_denom p aw He Hp Haw) as Hnn.
  assert (Hs : sum_list (closed_form eps no_denom p aw) <= 1).
  { rewrite closed_form_closed_from by (try assumption; now apply idle_range).
    pose proof (closed_from_sum eps no_denom p aw (1 * 1) 0 0 He
                  ltac:(lra) ltac:(lra) ltac:(lra) Hp Hi Haw).
    lra. }
  destruct limit as [s|]; split; auto.
  - now apply zero_from_nonneg.
  - pose proof (zero_from_sum s _ Hnn). lra.
Qed.

Lemma parallel_rows_nonneg (eps : R) (no_denom : bool) (limit : option Z)
  (ps : mat) (aw : row) :
  0 < eps -> Forall (Forall (fun x => 0 <= x <= 1)) ps ->
  Forall (fun a => 0 <= a) aw ->
  Forall (Forall (fun x => 0 <= x)) (parallel_rows eps no_denom limit ps aw).
Proof.
  intros He Hps. revert aw. induction Hps as [|p ps Hp _ IH]; intros aw Haw;
    [constructor|].
  cbn [parallel_rows].
  assert (Hrow : Forall (fun x => 0 <= x)
                   match limit with
                   | Some s => zero_from s (closed_form eps no_denom p aw)
                   | None => closed_form eps no_denom p aw
                   end).
  { pose proof (closed_form_nonneg eps no_denom p aw He Hp Haw).
    destruct limit; [now apply zero_from_nonneg | assumption]. }
  constructor; [exact Hrow | apply IH, Hrow].
Qed.

Lemma parallel_rows_weights (eps : R) (no_denom : bool) (limit : option Z)
  (klen : nat) (ps : mat) (aw : row) :
  0 < eps -> length aw = klen ->
  Forall (fun p => length p = klen /\ Forall (fun x => 0 <= x <= 1) p
                   /\ Forall (fun x => eps <= 1 - x) (removelast p)) ps ->
  weights aw ->
  Forall weights (parallel_rows eps no_denom limit ps aw).
Proof.
  intros He Hlen Hps. revert aw Hlen.
  induction Hps as [|p ps [Hlp [Hp Hi]] _ IH]; intros aw Hlen Haw; [constructor|].
  cbn [parallel_rows].
  pose proof (closed_form_weights eps no_denom limit p aw He ltac:(lia) Hp Hi Haw)
    as Hw.
  constructor; [exact Hw|]. apply IH; [|exact Hw].
  pose proof (length_closed_form eps no_denom p aw He ltac:(lia)
                (idle_range eps p Hp Hi)).
  destruct limit; rewrite ?length_zero_from; lia.
Qed.

(** *** Rows of the hard mode *)

Lemma cumsum_from_zeros (n : nat) (a : R) :
  a = 0 -> cumsum_from a (repeat 0 n) = repeat 0 n.
Proof.
  intros ->. induction n as [|n IH]; simpl; [reflexivity|].
  replace (0 + 0) with 0 by ring. now rewrite IH.
Qed.

Lemma zip_mult_zeros_r (xs : row) :
  zip_with Rmult xs (repeat 0 (length xs)) = repeat 0 (length xs).
Proof.
  induction xs as [|x xs IH]; simpl; [reflexivity|].
  rewrite IH. f_equal. ring.
Qed.

Lemma zip_mult_zeros_l (n : nat) (ys : row) :
  (n <= length ys)%nat -> zip_with Rmult (repeat 0 n) ys = repeat 0 n.
Proof.
  revert ys. induction n as [|n IH]; intros [|y ys] H; simpl in *;
    try reflexivity; try lia.
  rewrite IH by lia. f_equal. ring.
Qed.

Lemma length_exclusive_cumprod (x : row) :
  (length x <= length (exclusive_cumprod x))%nat.
Proof.
  unfold exclusive_cumprod, cumprod. rewrite length_cumprod_from.
  cbn [length]. destruct x as [|a x]; [simpl; lia|].
  rewrite removelast_firstn_len, length_firstn. simpl. lia.
Qed.

Lemma hard_select_zero (sigmoid : R -> R) (e : row) :
  hard_select sigmoid [e] [repeat 0 (length e)] = Ok [repeat 0 (length e)].
Proof.
  unfold hard_select, bcast_to. simpl. do 2 f_equal.
  unfold cumsum. rewrite cumsum_from_zeros by reflexivity.
  rewrite <- (length_map (choose sigmoid) e) at 1 2.
  rewrite zip_mult_zeros_r, length_map.
  apply zip_mult_zeros_l.
  etransitivity; [|apply length_exclusive_cumprod].
  now rewrite length_map, repeat_length.
Qed.

Lemma first_hot_hot_or_zero (ind : nat -> bool) (klen : nat) :
  hot_or_zero (first_hot ind klen).
Proof.
  unfold hot_or_zero, first_hot. rewrite length_map, length_seq.
  destruct (existsb (is_first ind) (seq 0 klen)) eqn:Hex.
  - right. apply existsb_exists in Hex. destruct Hex as [t [Ht Hfirst]].
    apply in_seq in Ht. exists t. split; [lia|].
    unfold one_hot. apply map_ext. intros j.
    destruct (Nat.eqb_spec j t) as [->|Hne]; [now rewrite Hfirst|].
    destruct (is_first ind j) eqn:Hj; [|reflexivity].
    exfalso. apply Hne. now apply (is_first_unique ind).
  - left. rewrite <- (length_seq klen 0) at 2.
    rewrite <- map_const. apply map_ext_in. intros j Hj.
    destruct (is_first ind j) eqn:Hfirst; [|reflexivity].
    assert (Hcontra : existsb (is_first ind) (seq 0 klen) = true).
    { apply existsb_exists. exists j. split; assumption. }
    congruence.
Qed.

Lemma length_first_hot (ind : nat -> bool) (klen : nat) :
  length (first_hot ind klen) = klen.
Proof. unfold first_hot. now rewrite length_map, length_seq. Qed.

(** From a one-hot or all-zero [aw_prev] the hard selection is one-hot or
    all-zero. *)
Lemma hard_select_hot_or_zero (sigmoid : R -> R) (e aw : row) :
  hot_or_zero aw -> length e = length aw ->
  exists r, hard_select sigmoid [e] [aw] = Ok [r] /\ hot_or_zero r
            /\ length r = length e.
Proof.
  intros [Hz|[t [Ht Hhot]]] Hlen.
  - rewrite Hz, <- Hlen. eexists. split; [apply hard_select_zero|].
    split; [|now rewrite repeat_length].
    left. now rewrite repeat_length.
  - rewrite Hhot, <- Hlen. eexists. split; [apply hard_select_one_hot|].
    split; [apply first_hot_hot_or_zero | apply length_first_hot].
Qed.

Lemma sum_one_hot_from (t s n : nat) :
  sum_list (map (fun j => if (j =? t)%nat then 1 else 0) (seq s n))
  = if ((s <=? t) && (t <? s + n))%nat then 1 else 0.
Proof.
  revert s. induction n as [|n IH]; intros s; simpl.
  - destruct (Nat.leb_spec s t), (Nat.ltb_spec t (s + 0)); simpl; try lra; lia.
  - rewrite IH.
    destruct (Nat.eqb_spec s t), (Nat.leb_spec (S s) t), (Nat.ltb_spec t (S s + n)),
      (Nat.leb_spec s t), (Nat.ltb_spec t (s + S n)); simpl; try lra; lia.
Qed.

Lemma sum_one_hot (klen t : nat) :
  (t < klen)%nat -> sum_list (one_hot klen t) = 1.
Proof.
  intros Ht. unfold one_hot. rewrite sum_one_hot_from.
  destruct (Nat.leb_spec 0 t), (Nat.ltb_spec t (0 + klen)); simpl; try lra; lia.
Qed.

Lemma map_zeros {A : Type} (f : A -> R) (l : list A) :
  (forall j, In j l -> f j = 0) -> map f l = repeat 0 (length l).
Proof.
  induction l as [|a l IH]; intros H; simpl; [reflexivity|].
  rewrite H by (left; reflexivity). f_equal. apply IH.
  intros j Hj. apply H. right. exact Hj.
Qed.

Lemma set_nth_zeros_from (n k s : nat) :
  (k < n)%nat ->
  set_nth k 1 (repeat 0 n)
  = map (fun j => if (j =? s + k)%nat then 1 else 0) (seq s n).
Proof.
  revert k s. induction n as [|n IH]; intros k s Hk; [lia|].
  destruct k as [|k].
  - unfold set_nth. simpl. rewrite Nat.add_0_r, Nat.eqb_refl. f_equal.
    rewrite <- (length_seq n (S s)) at 1. symmetry. apply map_zeros.
    intros j Hj. apply in_seq in Hj.
    destruct (Nat.eqb_spec j s); [lia | reflexivity].
  - change (set_nth (S k) 1 (repeat 0 (S n)))
      with (0 :: set_nth k 1 (repeat 0 n)).
    rewrite (IH k (S s)) by lia. simpl.
    destruct (Nat.eqb_spec s (s + S k)); [lia|]. f_equal.
    apply map_ext. intros j. now rewrite Nat.add_succ_r.
Qed.

Lemma set_nth_zeros (klen k : nat) :
  (k < klen)%nat -> set_nth k 1 (repeat 0 klen) = one_hot klen k.
Proof. intros Hk. exact (set_nth_zeros_from klen k 0 Hk). Qed.

Lemma latency_rewrite_hot_or_zero (klen : nat) (bound : Z) (a a' : row) :
  latency_rewrite klen bound a a' -> length a = klen -> hot_or_zero a ->
  hot_or_zero a' /\ length a' = klen.
Proof.
  intros [->|[k [Hk [_ Hc]]]] Hlen Hhz; [split; assumption|].
  assert (Hone : hot_or_zero (one_hot klen k) /\ length (one_hot klen k) = klen).
  { assert (Hl : length (one_hot klen k) = klen)
      by (unfold one_hot; now rewrite length_map, length_seq).
    split; [|exact Hl]. right. exists k. rewrite Hl. split; [exact Hk | reflexivity]. }
  destruct Hc as [[Hsum ->]| ->]; [|now rewrite set_nth_zeros].
  destruct Hhz as [Hz|[t [Ht Hhot]]].
  - rewrite Hz, Hlen. now rewrite set_nth_zeros.
  - exfalso. rewrite Hhot, sum_one_hot in Hsum by exact Ht. lra.
Qed.

Lemma latency_batch_hot_or_zero (eps_wait : Z) (br : option Z) (klen : nat)
  (ab : list row) :
  (0 < eps_wait)%Z ->
  Forall (fun a => length a = klen /\ hot_or_zero a) ab ->
  exists ab', latency_batch false eps_wait br (Z.of_nat klen) ab = Ok ab' /\
              Forall (fun a => length a = klen /\ hot_or_zero a) ab'.
Proof.
  intros Heps Hab.
  assert (Hlen : Forall (fun a => length a = klen) ab).
  { eapply Forall_impl; [|exact Hab]. intros a [H _]. exact H. }
  destruct (latency_batch_rewrite eps_wait br (Z.of_nat klen) klen ab Heps Hlen)
    as [ab' [Hab' HF]].
  exists ab'. split; [exact Hab'|].
  specialize (HF (Z.of_nat klen)).
  assert (H2 : Forall2 (latency_rewrite klen (Z.of_nat klen)) ab ab').
  { apply HF. intros m Hm.
    pose proof (in_concat_map_nonzero ab klen m Hlen Hm). lia. }
  clear HF Hab' Hlen. induction H2 as [|a a' ab ab' Hr _ IH]; [constructor|].
  pose proof (Forall_inv Hab) as [Hla Hha].
  pose proof (Forall_inv_tail Hab) as Hab0.
  constructor; [|apply IH, Hab0].
  destruct (latency_rewrite_hot_or_zero klen _ a a' Hr Hla Hha). split; assumption.
Qed.

Lemma cumsum_from_unit (xs : row) (a : R) :
  0 <= a -> Forall (fun x => 0 <= x) xs -> a + sum_list xs <= 1 ->
  Forall (fun c => 0 <= c <= 1) (cumsum_from a xs).
Proof.
  intros Ha Hxs. revert a Ha. induction Hxs as [|x xs Hx Hxs IH]; intros a Ha Hs;
    [constructor|].
  change (sum_list (x :: xs)) with (x + sum_list xs) in Hs.
  pose proof (sum_list_nonneg xs Hxs) as Hnn.
  cbn [cumsum_from]. constructor; [lra | apply IH; lra].
Qed.

(** The mass selected with the exclusive cumulative product of the
    complement is at most the running product it starts from. *)
Lemma select_sum_from (p : row) (c : R) :
  0 <= c -> Forall (fun x => 0 <= x <= 1) p ->
  Forall (fun x => 0 <= x)
    (zip_with Rmult p (c :: cumprod_from c (map (fun x => 1 - x) p))) /\
  sum_list (zip_with Rmult p (c :: cumprod_from c (map (fun x => 1 - x) p))) <= c.
Proof.
  intros Hc Hp. revert c Hc. induction Hp as [|pj p Hpj _ IH]; intros c Hc.
  { simpl. split; [constructor | lra]. }
  cbn [map cumprod_from zip_with].
  destruct (IH (c * (1 - pj)) ltac:(nra)) as [Hnn Hs].
  split; [constructor; [nra | exact Hnn]|].
  match goal with
  | |- sum_list (?h :: ?t) <= _ => change (sum_list (h :: t)) with (h + sum_list t)
  end.
  nra.
Qed.

Lemma hard_select_row (sigmoid : R -> R) (e aw : row) :
  hard_select sigmoid [e] [aw]
  = Ok [let p := zip_with Rmult (map (choose sigmoid) e) (cumsum aw) in
        zip_with Rmult p (exclusive_cumprod (map (fun x => 1 - x) p))].
Proof. reflexivity. Qed.

(** From a row of weights the hard selection is a row of weights. *)
Lemma hard_select_weights (sigmoid : R -> R) (e aw : row) :
  weights aw ->
  exists r, hard_select sigmoid [e] [aw] = Ok [r] /\ weights r.
Proof.
  intros [Haw Hsum]. rewrite hard_select_row. eexists. split; [reflexivity|].
  cbv zeta. set (p := zip_with Rmult (map (choose sigmoid) e) (cumsum aw)).
  assert (Hp : Forall (fun x => 0 <= x <= 1) p).
  { unfold p. apply (Forall_zip_with Rmult (fun x => 0 <= x <= 1)
                       (fun x => 0 <= x <= 1)).
    - intros x y Hx Hy. nra.
    - apply Forall_forall. intros x Hx. apply in_map_iff in Hx.
      destruct Hx as [y [<- _]]. unfold choose. destruct Rle_dec; lra.
    - apply cumsum_from_unit; [lra | exact Haw | lra]. }
  rewrite <- (map_id (exclusive_cumprod _)).
  rewrite zip_with_exclusive_cumprod by (now rewrite length_map).
  rewrite map_id.
  destruct (select_sum_from p (1 * 1) ltac:(lra) Hp) as [Hnn Hs].
  split; [exact Hnn | lra].
Qed.

Lemma nonneg_sum_zero (a : row) :
  Forall (fun x => 0 <= x) a -> sum_list a = 0 -> a = repeat 0 (length a).
Proof.
  induction 1 as [|x a Hx Ha IH]; intros Hs; [reflexivity|].
  change (sum_list (x :: a)) with (x + sum_list a) in Hs.
  pose proof (sum_list_nonneg a Ha) as Hnn.
  assert (x = 0) by lra. subst x. cbn [length repeat]. f_equal. apply IH. lra.
Qed.

Lemma one_hot_weights (klen k : nat) : (k < klen)%nat -> weights (one_hot klen k).
Proof.
  intros Hk. split; [|rewrite sum_one_hot by exact Hk; lra].
  unfold one_hot. apply Forall_forall. intros x Hx. apply in_map_iff in Hx.
  destruct Hx as [j [<- _]]. destruct (j =? k)%nat; lra.
Qed.

Lemma latency_rewrite_weights (klen : nat) (bound : Z) (a a' : row) :
  latency_rewrite klen bound a a' -> length a = klen -> weights a -> weights a'.
Proof.
  intros [->|[k [Hk [_ Hc]]]] Hlen Hw; [exact Hw|].
  destruct Hc as [[Hsum ->]| ->].
  - rewrite (nonneg_sum_zero a (proj1 Hw) Hsum), Hlen, set_nth_zeros by exact Hk.
    now apply one_hot_weights.
  - rewrite set_nth_zeros by exact Hk. now apply one_hot_weights.
Qed.

Lemma latency_batch_weights (eps_wait : Z) (br : option Z) (klen : nat)
  (ab : list row) :
  (0 < eps_wait)%Z ->
  Forall (fun a => length a = klen /\ weights a) ab ->
  exists ab', latency_batch false eps_wait br (Z.of_nat klen) ab = Ok ab' /\
              Forall weights ab' /\
              (Forall hot_or_zero ab -> Forall hot_or_zero ab').
Proof.
  intros Heps Hab.
  assert (Hlen : Forall (fun a => length a = klen) ab).
  { eapply Forall_impl; [|exact Hab]. intros a [H _]. exact H. }
  destruct (latency_batch_rewrite eps_wait br (Z.of_nat klen) klen ab Heps Hlen)
    as [ab' [Hab' HF]].
  exists ab'. split; [exact Hab'|].
  assert (H2 : Forall2 (latency_rewrite klen (Z.of_nat klen)) ab ab').
  { apply HF. intros m Hm.
    pose proof (in_concat_map_nonzero ab klen m Hlen Hm). lia. }
  clear HF Hab' Hlen. induction H2 as [|a a' ab ab' Hr _ IH]; [repeat constructor|].
  pose proof (Forall_inv Hab) as [Hla Hwa].
  destruct (IH (Forall_inv_tail Hab)) as [Hw Hh].
  split.
  - constructor; [exact (latency_rewrite_weights klen _ a a' Hr Hla Hwa) | exact Hw].
  - intros Hhz. constructor; [|exact (Hh (Forall_inv_tail Hhz))].
    exact (proj1 (latency_rewrite_hot_or_zero klen _ a a' Hr Hla (Forall_inv Hhz))).
Qed.

(** C5 (amended).  Let [aw_prev] be a row of weights (nonnegative, sum at
    most 1) and [p_choose] lie in [[0, 1]].  Recursive mode, one query
    position: the row of alpha is a row of weights.  Parallel mode, any
    number of query positions, with or without the denominator: every row
    of alpha is nonnegative, and every row sums to at most 1 when no
    [1 - p_choose] that enters a running product (every frame but the
    last of a row) is below [eps].  Hard mode: the row of alpha is a row
    of weights, and it is one-hot or all-zero when [aw_prev] is; latency
    control keeps both properties. *)
Theorem alpha_rows_are_weights (sigmoid : R -> R) (eps : R) (limit : option Z)
  (klen : nat) (p_choose : mat) (e aw_prev : row) :
  0 < eps -> length aw_prev = klen -> weights aw_prev ->
  Forall (fun p => length p = klen /\ Forall (fun x => 0 <= x <= 1) p) p_choose ->
  (forall p, p_choose = [p] ->
     exists r, recursive_mode 1 klen [p] [aw_prev] = Ok [r] /\ weights r) /\
  (p_choose <> [] -> forall no_denom,
     exists rows,
       parallel_mode eps no_denom limit (length p_choose) p_choose [aw_prev]
       = Ok rows /\
       Forall (Forall (fun x => 0 <= x)) rows /\
       (Forall (fun p => Forall (fun x => eps <= 1 - x) (removelast p)) p_choose ->
        Forall weights rows)) /\
  (exists r, hard_select sigmoid [e] [aw_prev] = Ok [r] /\ weights r /\
             (hot_or_zero aw_prev -> length e = klen -> hot_or_zero r)) /\
  (forall eps_wait boundary_rightmost ab,
     (0 < eps_wait)%Z -> Forall (fun a => length a = klen /\ weights a) ab ->
     exists ab',
       latency_batch false eps_wait boundary_rightmost (Z.of_nat klen) ab = Ok ab' /\
       Forall weights ab' /\ (Forall hot_or_zero ab -> Forall hot_or_zero ab')).
Proof.
  intros He Hlen Hw Hps. repeat split.
  - intros p ->. pose proof (Forall_inv Hps) as [Hlp Hp].
    rewrite <- Hlp. rewrite recursive_mode_row by lia.
    eexists. split; [reflexivity|]. destruct Hw as [Haw Hsum]. split.
    + apply recurrence_nonneg; [lra | exact Hp | exact Haw].
    + pose proof (recurrence_sum p aw_prev (1 * 0) ltac:(lra) Hp Haw). lra.
  - intros Hne no_denom. rewrite parallel_mode_rows by exact Hne.
    eexists. split; [reflexivity|]. split.
    + apply parallel_rows_nonneg; [exact He | | exact (proj1 Hw)].
      eapply Forall_impl; [|exact Hps]. intros p [_ H]. exact H.
    + intros Hi. apply (parallel_rows_weights eps no_denom limit klen); auto.
      clear -Hps Hi. induction Hps as [|p ps [H1 H2] _ IH]; [constructor|].
      constructor; [|apply IH, (Forall_inv_tail Hi)].
      split; [exact H1|]. split; [exact H2 | exact (Forall_inv Hi)].
  - destruct (hard_select_weights sigmoid e aw_prev Hw) as [r [Hr Hwr]].
    exists r. split; [exact Hr|]. split; [exact Hwr|].
    intros Hhz Hle.
    destruct (hard_select_hot_or_zero sigmoid e aw_prev Hhz ltac:(lia))
      as [r' [Hr' [Hh _]]].
    rewrite Hr in Hr'. injection Hr' as <-. exact Hh.
  - intros eps_wait br ab Heps Hab.
    exact (latency_batch_weights eps_wait br klen ab Heps Hab).
Qed.

Lemma alpha_rows_are_weights_witness :
  weights [1; 0] /\
  (exists r, recursive_mode 1 2 [[/ 2; / 4]] [[1; 0]] = Ok [r] /\ weights r) /\
  (exists rows,
     parallel_mode (/ 1000000) true None 1 [[/ 2; / 4]] [[1; 0]] = Ok rows /\
     Forall weights rows) /\
  (exists r, hard_select logistic [[2; 2]] [[1; 0]] = Ok [r] /\ weights r /\
             (hot_or_zero [1; 0] -> length [2; 2] = 2%nat -> hot_or_zero r)).
Proof.
  assert (Hw : weights [1; 0]).
  { split; [repeat constructor; lra | simpl; lra]. }
  assert (Hp : Forall (fun p : row => length p = 2%nat
                                      /\ Forall (fun x => 0 <= x <= 1) p)
                 [[/ 2; / 4]]).
  { repeat constructor; lra. }
  assert (Hi : Forall (fun p : row =>
                         Forall (fun x => / 1000000 <= 1 - x) (removelast p))
                 [[/ 2; / 4]]).
  { constructor; [|constructor]. cbn [removelast]. constructor; [lra | constructor]. }
  assert (Hne : [[/ 2; / 4]] <> ([] : mat)) by discriminate.
  pose proof (alpha_rows_are_weights logistic (/ 1000000) None 2 [[/ 2; / 4]]
                [2; 2] [1; 0] ltac:(lra) eq_refl Hw Hp) as [Hrec [Hpar [Hhard _]]].
  split; [exact Hw|]. split; [exact (Hrec _ eq_refl)|]. split; [|exact Hhard].
  destruct (Hpar Hne true) as [rows [Hrows [_ Hwr]]].
  exists rows. split; [exact Hrows | exact (Hwr Hi)].
Defined.


(** C5 as stated fails in hard mode: an [aw_prev] that sums to 1 without
    being one-hot gives a row of alpha that is neither one-hot nor
    all-zero. *)
Lemma hard_select_fractional :
  sum_list [/ 2; / 2] <= 1 /\
  hard_select logistic [[2; 2]] [[/ 2; / 2]] = Ok [[/ 2; / 2]] /\
  ~ hot_or_zero [/ 2; / 2].
Proof.
  split; [simpl; lra|]. split.
  - rewrite hard_select_row. unfold exclusive_cumprod, cumprod, cumsum. cbn.
    rchoose. repeat f_equal; field.
  - intros [H|[t [Ht H]]].
    + simpl in H. injection H as H _. lra.
    + simpl in Ht. destruct t as [|[|t]]; [| |lia].
      * injection H as H _. lra.
      * injection H as H _. lra.
Qed.

(** It fails in the parallel mode too: where [1 - p_choose] falls below
    [eps], its clamp to [eps] lets a row sum to more than 1. *)
Lemma parallel_row_exceeds_one :
  parallel_mode (/ 1000000) false None 1
    [[1999999 / 2000000; 1999999 / 2000000]] [[1; 0]]
  = Ok [[1999999 / 2000000; 1999999 / 2000000 * / 1000000]] /\
  1 < sum_list [1999999 / 2000000; 1999999 / 2000000 * / 1000000].
Proof.
  split; [|simpl; lra].
  rewrite parallel_mode_row. unfold closed_form.
  rewrite safe_cumprod_exclusive by lra.
  unfold exclusive_cumprod, cumprod, cumsum. cbn. rclamp.
  do 2 f_equal. rlist.
Qed.

(** C5 as stated fails, in the hard mode and in the parallel mode. *)
Lemma alpha_rows_not_as_claimed :
  (sum_list [/ 2; / 2] <= 1 /\
   hard_select logistic [[2; 2]] [[/ 2; / 2]] = Ok [[/ 2; / 2]] /\
   ~ hot_or_zero [/ 2; / 2]) /\
  (parallel_mode (/ 1000000) false None 1
     [[1999999 / 2000000; 1999999 / 2000000]] [[1; 0]]
   = Ok [[1999999 / 2000000; 1999999 / 2000000 * / 1000000]] /\
   1 < sum_list [1999999 / 2000000; 1999999 / 2000000 * / 1000000]).
Proof.
  split; [exact hard_select_fractional | exact parallel_row_exceeds_one].
Qed.

(** ** The layer with [chunk_size = 1] *)

Lemma matmul_weighted_sum (a v cv : mat) :
  matmul a v = Ok cv -> cv = weighted_sum a v.
Proof.
  unfold matmul.
  destruct (forallb (fun r => (length r =? length v)%nat) a); [|discriminate].
  intros H. injection H as <-. reflexivity.
Qed.

Lemma bmm_weighted_sum (a v cv : tensor3) :
  bmm a v = Ok cv -> cv = zip_with weighted_sum a v.
Proof.
  unfold bmm. destruct (length a =? length v)%nat; [|discriminate].
  revert v cv. induction a as [|x a IH]; intros [|y v] cv H; simpl in H;
    try (injection H as <-; reflexivity).
  destruct (matmul x y) as [m|] eqn:Hm; simpl in H; [|discriminate].
  destruct (mapM (fun c => c) (zip_with matmul a v)) as [ms|] eqn:Hms; simpl in H;
    [|discriminate].
  injection H as <-. simpl. f_equal; [now apply matmul_weighted_sum | now apply IH].
Qed.

Lemma squeeze1_heads (t : tensor4) (t3 : tensor3) :
  squeeze1 t = Ok t3 -> t3 = map (fun tb => nth 0 tb []) t.
Proof.
  unfold squeeze1. revert t3. induction t as [|tb t IH]; intros t3 H; simpl in H.
  - injection H as <-. reflexivity.
  - destruct tb as [|m [|m' tb]]; simpl in H; try discriminate.
    match type of H with
    | bind ?x _ = _ => destruct x as [ms|] eqn:Hms; simpl in H; [|discriminate]
    end.
    injection H as <-. simpl. f_equal. now apply IH.
Qed.

(** C8 (amended).  A layer constructed with [chunk_size = 1] has no
    chunk energy function, and every call of [forward] that returns
    returns [beta = None] and a context vector computed from alpha: with
    one head in total it is the alpha-weighted sum of the values; with
    several heads it is the output layer applied to the concatenation,
    over the heads, of the alpha-weighted sums of the projected values of
    each head. *)
Theorem chunk_size_one_uses_alpha (sigmoid : R -> R) (self : MoChA)
  (key value query : tensor3) (mask : option mask3) (aw_prev : option tensor4)
  (mode : string) (cache : bool) (trigger_point : option (list Z))
  (eps_wait : Z) (boundary_rightmost : option Z) (rnd : randomness)
  (cv : tensor3) (alpha : tensor4) (beta : option tensor4) :
  chunk_size self = 1%Z ->
  fst (forward sigmoid self key value query mask aw_prev mode cache trigger_point
         eps_wait boundary_rightmost rnd) = Ok (cv, alpha, beta) ->
  (forall n_heads_mono n_heads_chunk d_k eps no_denominator sharpening_factor
          decot lookahead dropout dropout_head training mono chunk w_value w_out,
     chunk_energy (MoChA_init 1 n_heads_mono n_heads_chunk d_k eps no_denominator
                     sharpening_factor decot lookahead dropout dropout_head
                     training mono chunk w_value w_out) = None) /\
  beta = None /\
  if (1 <? n_heads_mono self * n_heads_chunk self)%nat then
    exists heads,
      bcastM (bcastM matmul) alpha
        (map (fun vb => split_heads (n_heads_mono self * n_heads_chunk self)
                          (d_k self) (map (w_value self) vb)) value) = Ok heads /\
      cv = map (fun cvb => map (w_out self) (merge_heads cvb)) heads
  else
    cv = zip_with weighted_sum (map (fun ab => nth 0 ab []) alpha) value.
Proof.
  intros Hcs Hfw. split; [reflexivity|].
  unfold forward in Hfw. cbv zeta in Hfw.
  destruct (fst (me_forward (monotonic_energy self) key query mask cache))
    as [e_mono|]; [|discriminate].
  destruct (select_alpha _ _ _ _ _ _ _ _ _ _ _) as [[alpha0 alpha_masked]|];
    [|discriminate].
  unfold chunk_attention, uses_chunk in Hfw. rewrite Hcs in Hfw.
  cbn [Z.gtb Z.eqb Z.compare orb fst snd bind Pos.compare] in Hfw.
  unfold context_vector in Hfw. rewrite Hcs in Hfw. cbn [Z.eqb Pos.eqb] in Hfw.
  destruct (1 <? n_heads_mono self * n_heads_chunk self)%nat.
  - cbn [bind] in Hfw.
    destruct (bcastM (bcastM matmul) alpha0 _) as [heads|] eqn:Hheads;
      [|discriminate].
    cbn [bind] in Hfw. destruct (assert _); [|discriminate].
    cbn [bind] in Hfw. injection Hfw as <- <- <-.
    split; [reflexivity|]. exists heads. split; [exact Hheads | reflexivity].
  - cbn [bind] in Hfw.
    destruct (squeeze1 alpha0) as [a3|] eqn:Hsq; [|discriminate].
    cbn [bind] in Hfw.
    destruct (bmm a3 value) as [cv0|] eqn:Hbmm; [|discriminate].
    cbn [bind] in Hfw. destruct (assert _); [|discriminate].
    cbn [bind] in Hfw. injection Hfw as <- <- <-.
    split; [reflexivity|].
    apply bmm_weighted_sum in Hbmm. apply squeeze1_heads in Hsq. now subst.
Qed.

Lemma chunk_size_one_uses_alpha_witness :
  chunk_size mocha_hard = 1%Z /\
  [[[3]]] = zip_with weighted_sum (map (fun ab => nth 0 ab []) [[[[0; 0; 1]]]])
              [[[1]; [2]; [3]]].
Proof.
  split; [reflexivity|].
  exact (proj2 (proj2
    (chunk_size_one_uses_alpha logistic mocha_hard [[[-1]; [-1]; [2]]]
       [[[1]; [2]; [3]]] [[[1]]] None None "hard" false None 1 None no_randomness
       [[[3]]] [[[[0; 0; 1]]]] None eq_refl (forward_hard_example None)))).
Defined.

(** C8 as stated fails with several heads: here both heads put all their
    weight on the single frame, whose value is [[1; 1]], and the context
    vector is [[2; 2]], the output layer having doubled the weighted sum. *)
Lemma forward_two_heads_projects :
  fst (forward logistic mocha_two_heads [[[1; 1]]] [[[1; 1]]] [[[0; 0]]]
         None None "hard" false None (-1) None no_randomness)
  = Ok ([[[2; 2]]], [[[[1]]; [[1]]]], None) /\
  weighted_sum [[1]] [[1; 1]] = [[1; 1]].
Proof.
  split.
  - unfold forward, me_forward, select_alpha, hard_select. cbn.
    unfold dot. cbn. rchoose.
    unfold context_vector, matmul. cbn. unfold dot. cbn.
    repeat f_equal; lra.
  - unfold weighted_sum, dot. cbn. repeat f_equal; lra.
Qed.

(** ** Masked positions *)

(** *** Indexing through the list functions *)

Lemma length_zip_with {A B C : Type} (f : A -> B -> C) (xs : list A) (ys : list B) :
  length (zip_with f xs ys) = Nat.min (length xs) (length ys).
Proof.
  revert ys. induction xs as [|x xs IH]; intros [|y ys]; simpl; auto.
Qed.

Lemma nth_zip_with {A B C : Type} (f : A -> B -> C) (xs : list A) (ys : list B)
  (n : nat) (dx : A) (dy : B) (dz : C) :
  (n < length xs)%nat -> (n < length ys)%nat ->
  nth n (zip_with f xs ys) dz = f (nth n xs dx) (nth n ys dy).
Proof.
  revert ys n. induction xs as [|x xs IH]; intros [|y ys] [|n] Hx Hy;
    simpl in *; try lia; [reflexivity|].
  apply IH; lia.
Qed.

Lemma length_mapi {A B : Type} (f : nat -> A -> B) (l : list A) :
  length (mapi f l) = length l.
Proof. unfold mapi. rewrite length_zip_with, length_seq. lia. Qed.

Lemma nth_mapi {A B : Type} (f : nat -> A -> B) (l : list A) (n : nat)
  (d : A) (d' : B) :
  (forall k, f k d = d') -> nth n (mapi f l) d' = f n (nth n l d).
Proof.
  intros Hd. destruct (Nat.lt_ge_cases n (length l)) as [Hlt|Hge].
  - unfold mapi. rewrite (nth_zip_with f _ _ n 0%nat d)
      by (rewrite ?length_seq; lia).
    now rewrite seq_nth by lia.
  - rewrite !nth_overflow by (rewrite ?length_mapi; lia). now rewrite Hd.
Qed.

Lemma nth_map_default {A B : Type} (f : A -> B) (l : list A) (n : nat)
  (d : A) (d' : B) :
  f d = d' -> nth n (map f l) d' = f (nth n l d).
Proof. intros <-. apply map_nth. Qed.

Lemma mapM_length {A B : Type} (f : A -> result B) (l : list A) (l' : list B) :
  mapM f l = Ok l' -> length l' = length l.
Proof. intros H. exact (proj1 (mapM_inv f l l' H)). Qed.

Lemma mapM_nth {A B : Type} (f : A -> result B) (l : list A) (l' : list B)
  (n : nat) (d : A) (d' : B) :
  mapM f l = Ok l' -> (n < length l)%nat -> f (nth n l d) = Ok (nth n l' d').
Proof.
  intros H Hn. destruct (mapM_inv f l l' H) as [Hlen Hnth].
  apply (Hnth n); apply nth_error_nth'; lia.
Qed.

Lemma mapM_In {A B : Type} (f : A -> result B) (l : list A) (l' : list B) (y : B) :
  mapM f l = Ok l' -> In y l' -> exists x, In x l /\ f x = Ok y.
Proof.
  intros H Hy. destruct (In_nth l' y y Hy) as [n [Hn Hny]].
  pose proof (mapM_length f l l' H) as Hlen.
  destruct l as [|x0 l]; [simpl in *; lia|].
  exists (nth n (x0 :: l) x0). split; [apply nth_In; lia|].
  rewrite <- Hny. apply mapM_nth; [exact H | lia].
Qed.

Lemma mapM_id_zip_nth {A B C : Type} (f : A -> B -> result C) (xs : list A)
  (ys : list B) (zs : list C) (n : nat) (dx : A) (dy : B) (dz : C) :
  mapM (fun c => c) (zip_with f xs ys) = Ok zs -> (n < length zs)%nat ->
  f (nth n xs dx) (nth n ys dy) = Ok (nth n zs dz).
Proof.
  intros H Hn. pose proof (mapM_length _ _ _ H) as Hlen.
  rewrite length_zip_with in Hlen.
  rewrite <- (nth_zip_with f xs ys n dx dy (f dx dy)) by lia.
  apply (mapM_nth (fun c => c)); [exact H | rewrite length_zip_with; lia].
Qed.

(** Broadcasting keeps the index of the side that has the size of the
    result. *)
Lemma bcastM_nth {A B C : Type} (f : A -> B -> result C) (xs : list A)
  (ys : list B) (zs : list C) (n : nat) (dx : A) (dz : C) :
  bcastM f xs ys = Ok zs -> length zs = length xs -> (n < length xs)%nat ->
  exists y, In y ys /\ f (nth n xs dx) y = Ok (nth n zs dz).
Proof.
  unfold bcastM, bcast. intros H Hlen Hn.
  destruct xs as [|x [|x' xs]]; [simpl in Hn; lia| |].
  - (* one element on the left *)
    cbn [bind] in H. pose proof (mapM_length _ _ _ H) as Hl.
    rewrite length_map in Hl. simpl in Hlen.
    destruct ys as [|y [|y' ys]]; simpl in Hl; try lia.
    destruct n; [|simpl in Hn; lia].
    exists y. split; [left; reflexivity|].
    apply (mapM_nth (fun c => c) [f x y] zs 0 (f x y) dz H). simpl. lia.
  - destruct ys as [|y [|y' ys]].
    + simpl in H. discriminate.
    + cbn [bind] in H. exists y. split; [left; reflexivity|].
      rewrite <- (map_nth (fun x0 => f x0 y) (x :: x' :: xs) dx n).
      apply (mapM_nth (fun c => c)); [exact H | now rewrite length_map].
    + destruct (length (x :: x' :: xs) =? length (y :: y' :: ys))%nat eqn:Heq;
        [|discriminate].
      apply Nat.eqb_eq in Heq. cbn [bind] in H.
      exists (nth n (y :: y' :: ys) y). split; [apply nth_In; lia|].
      apply (mapM_id_zip_nth f _ _ zs n dx y dz H). lia.
Qed.

Lemma bcast_to_nth {A B C : Type} (f : A -> B -> result C) (ms : list A)
  (ts : list B) (cs : list C) (n : nat) (dm mn : A) (dt : B) (dc : C) :
  bcast_to f ms ts = Ok cs -> length ms = length cs -> (n < length cs)%nat ->
  nth n ms dm = mn ->
  f mn (nth n ts dt) = Ok (nth n cs dc).
Proof.
  unfold bcast_to. intros H Hlen Hn <-.
  destruct (Nat.eqb_spec (length ms) (length ts)) as [Heq|Hne].
  - now apply (mapM_id_zip_nth f ms ts cs n dm dt dc).
  - destruct ms as [|m [|m' ms]]; try discriminate.
    apply mapM_length in H. simpl in *. lia.
Qed.

(** *** Shapes *)

Lemma is_mat_inv (q k : nat) (m : mat) :
  is_mat q k m = true ->
  length m = q /\ forall i, (i < q)%nat -> length (nth i m []) = k.
Proof.
  unfold is_mat. intros H. apply andb_prop in H. destruct H as [Hl Hf].
  apply Nat.eqb_eq in Hl. split; [exact Hl|]. intros i Hi.
  rewrite forallb_forall in Hf. apply Nat.eqb_eq, Hf, nth_In. lia.
Qed.

Lemma is_tensor3_inv (h q k : nat) (t : tensor3) :
  is_tensor3 h q k t = true ->
  length t = h /\ forall n, (n < h)%nat -> is_mat q k (nth n t []) = true.
Proof.
  unfold is_tensor3. intros H. apply andb_prop in H. destruct H as [Hl Hf].
  apply Nat.eqb_eq in Hl. split; [exact Hl|]. intros n Hn.
  rewrite forallb_forall in Hf. apply Hf, nth_In. lia.
Qed.

Lemma is_tensor4_inv (b h q k : nat) (t : tensor4) :
  is_tensor4 b h q k t = true ->
  length t = b /\ forall n, (n < b)%nat -> is_tensor3 h q k (nth n t []) = true.
Proof.
  unfold is_tensor4. intros H. apply andb_prop in H. destruct H as [Hl Hf].
  apply Nat.eqb_eq in Hl. split; [exact Hl|]. intros n Hn.
  rewrite forallb_forall in Hf. apply Hf, nth_In. lia.
Qed.

Lemma is_mask3_inv (b q k : nat) (m : mask3) :
  is_mask3 b q k m = true ->
  length m = b /\
  forall n, (n < b)%nat ->
    length (nth n m []) = q /\
    forall i, (i < q)%nat -> length (nth i (nth n m []) []) = k.
Proof.
  unfold is_mask3. intros H. apply andb_prop in H. destruct H as [Hl Hf].
  apply Nat.eqb_eq in Hl. split; [exact Hl|]. intros n Hn.
  rewrite forallb_forall in Hf.
  specialize (Hf (nth n m []) ltac:(apply nth_In; lia)).
  apply andb_prop in Hf. destruct Hf as [Hq Hr]. apply Nat.eqb_eq in Hq.
  split; [exact Hq|]. intros i Hi. rewrite forallb_forall in Hr.
  apply Nat.eqb_eq, Hr, nth_In. lia.
Qed.

(** An invalid position lies inside a mask of the right shape. *)
Lemma invalid_in_range (m : mask3) (b i j : nat) :
  invalid m b i j ->
  (b < length m /\ i < length (nth b m []) /\ j < length (nth i (nth b m []) []))%nat.
Proof.
  unfold invalid. intros H.
  assert (Hj : (j < length (nth i (nth b m []) []))%nat).
  { destruct (Nat.lt_ge_cases j (length (nth i (nth b m []) []))); [assumption|].
    rewrite nth_overflow in H by assumption. discriminate. }
  assert (Hi : (i < length (nth b m []))%nat).
  { destruct (Nat.lt_ge_cases i (length (nth b m []))); [assumption|].
    rewrite (nth_overflow (nth b m [])) in Hj by assumption. simpl in Hj. lia. }
  assert (Hb : (b < length m)%nat).
  { destruct (Nat.lt_ge_cases b (length m)); [assumption|].
    rewrite (nth_overflow m) in Hi by assumption. simpl in Hi. lia. }
  auto.
Qed.

(** *** The energy of masked positions *)

Lemma masked_fill_invalid (n_heads bs qlen klen : nat) (m : mask3)
  (e0 e : tensor4) (b h i j : nat) :
  masked_fill_ (expand_mask n_heads m) e0 = Ok e ->
  is_mask3 bs qlen klen m = true -> is_tensor4 bs n_heads qlen klen e = true ->
  (h < n_heads)%nat -> invalid m b i j -> get4 e b h i j = NEG_INF.
Proof.
  intros Hfill Hm He Hh Hinv.
  destruct (invalid_in_range m b i j Hinv) as [Hb [Hi Hj]].
  destruct (is_mask3_inv _ _ _ _ Hm) as [Hmb Hmrows].
  rewrite Hmb in Hb. destruct (Hmrows b Hb) as [Hmq Hmk].
  rewrite Hmq in Hi. rewrite (Hmk i Hi) in Hj.
  destruct (is_tensor4_inv _ _ _ _ _ He) as [Heb He3].
  destruct (is_tensor3_inv _ _ _ _ (He3 b Hb)) as [Heh He2].
  destruct (is_mat_inv _ _ _ (He2 h Hh)) as [Heq Hek].
  unfold masked_fill_ in Hfill.
  assert (Hl1 : length (expand_mask n_heads m) = length e)
    by (unfold expand_mask; rewrite length_map; lia).
  assert (Hb' : (b < length e)%nat) by lia.
  assert (Hexp : nth b (expand_mask n_heads m) [] = repeat (nth b m []) n_heads).
  { unfold expand_mask.
    transitivity (nth b (map (fun mb : list (list bool) => repeat mb n_heads) m)
                    (repeat [] n_heads)).
    - apply nth_indep. rewrite length_map. lia.
    - apply (map_nth (fun mb : list (list bool) => repeat mb n_heads)). }
  pose proof (bcast_to_nth _ _ _ _ b [] _ [] [] Hfill Hl1 Hb' Hexp) as H1.
  assert (Hl2 : length (repeat (nth b m []) n_heads) = length (nth b e []))
    by (rewrite repeat_length; lia).
  assert (Hh' : (h < length (nth b e []))%nat) by lia.
  assert (Hrep : nth h (repeat (nth b m []) n_heads) [] = nth b m [])
    by (apply nth_repeat_lt; exact Hh).
  pose proof (bcast_to_nth _ _ _ _ h [] _ [] [] H1 Hl2 Hh' Hrep) as H2.
  assert (Hl3 : length (nth b m []) = length (nth h (nth b e []) [])) by lia.
  assert (Hi' : (i < length (nth h (nth b e []) []))%nat) by lia.
  pose proof (bcast_to_nth _ _ _ _ i [] _ [] [] H2 Hl3 Hi' eq_refl) as H3.
  pose proof (Hek i Hi) as Hki.
  assert (Hl4 : length (nth i (nth b m []) [])
                = length (nth i (nth h (nth b e []) []) []))
    by (rewrite (Hmk i Hi); lia).
  assert (Hj' : (j < length (nth i (nth h (nth b e []) []) []))%nat) by lia.
  pose proof (bcast_to_nth _ _ _ _ j true _ 0 0 H3 Hl4 Hj' Hinv) as H4.
  cbn beta iota in H4. injection H4 as H4.
  unfold get4. symmetry. exact H4.
Qed.

(** *** Broadcasting and membership *)

Lemma in_zip_with {A B C : Type} (f : A -> B -> C) (xs : list A) (ys : list B)
  (c : C) :
  In c (zip_with f xs ys) -> exists x y, In x xs /\ In y ys /\ c = f x y.
Proof.
  revert ys. induction xs as [|x xs IH]; intros [|y ys] Hc; simpl in Hc;
    try contradiction.
  destruct Hc as [<-|Hc].
  - exists x, y. simpl. auto.
  - destruct (IH ys Hc) as [x' [y' [Hx [Hy Heq]]]].
    exists x', y'. simpl. auto.
Qed.

Lemma bcast_In {A B C : Type} (f : A -> B -> C) (xs : list A) (ys : list B)
  (l : list C) (c : C) :
  bcast f xs ys = Ok l -> In c l -> exists x y, In x xs /\ In y ys /\ c = f x y.
Proof.
  unfold bcast. intros H Hc.
  destruct xs as [|x [|x' xs]].
  - destruct ys as [|y [|y' ys]]; simpl in H.
    + injection H as <-. contradiction.
    + injection H as <-. contradiction.
    + discriminate.
  - injection H as <-. apply in_map_iff in Hc. destruct Hc as [y [<- Hy]].
    exists x, y. simpl. auto.
  - destruct ys as [|y [|y' ys]].
    + simpl in H. discriminate.
    + injection H as <-.
      change (In c (map (fun x0 => f x0 y) (x :: x' :: xs))) in Hc.
      apply in_map_iff in Hc. destruct Hc as [x0 [<- Hx]].
      exists x0, y. simpl. auto.
    + destruct (length (x :: x' :: xs) =? length (y :: y' :: ys))%nat;
        [|discriminate].
      injection H as <-. now apply in_zip_with.
Qed.

Lemma bcastM_In {A B C : Type} (f : A -> B -> result C) (xs : list A)
  (ys : list B) (zs : list C) (z : C) :
  bcastM f xs ys = Ok zs -> In z zs ->
  exists x y, In x xs /\ In y ys /\ f x y = Ok z.
Proof.
  unfold bcastM. intros H Hz.
  destruct (bcast f xs ys) as [l|] eqn:Hl; [|discriminate].
  cbn [bind] in H.
  destruct (mapM_In (fun c => c) l zs z H Hz) as [c [Hc Hcz]].
  destruct (bcast_In f xs ys l c Hl Hc) as [x [y [Hx [Hy ->]]]].
  exists x, y. auto.
Qed.

(** An entry of a product is zero where one factor is. *)
Lemma nth_zip_zero_l (f : R -> R -> R) (xs ys : row) (j : nat) :
  (forall y, f 0 y = 0) -> nth j xs 0 = 0 -> nth j (zip_with f xs ys) 0 = 0.
Proof.
  intros Hf. revert ys j. induction xs as [|x xs IH]; intros [|y ys] [|j] Hx;
    simpl in *; try reflexivity.
  - now rewrite Hx.
  - now apply IH.
Qed.

Lemma nth_zip_zero_r (f : R -> R -> R) (xs ys : row) (j : nat) :
  (forall x, f x 0 = 0) -> nth j ys 0 = 0 -> nth j (zip_with f xs ys) 0 = 0.
Proof.
  intros Hf. revert ys j. induction xs as [|x xs IH]; intros [|y ys] [|j] Hy;
    simpl in *; try reflexivity.
  - now rewrite Hy.
  - now apply IH.
Qed.

(** *** The energy function with a mask *)

Lemma masked_fill_checked (n_heads bs qlen klen : nat) (m : mask3)
  (e0 e : tensor4) :
  is_mask3 bs qlen klen m = true ->
  (e <- masked_fill_ (expand_mask n_heads m) e0 ;;
   _ <- assert (is_tensor4 bs n_heads qlen klen e) ;;
   Ok e) = Ok e ->
  is_tensor4 bs n_heads qlen klen e = true /\
  forall b h i j, (h < n_heads)%nat -> invalid m b i j -> get4 e b h i j = NEG_INF.
Proof.
  intros Hm H.
  destruct (masked_fill_ (expand_mask n_heads m) e0) as [e1|] eqn:Hfill;
    [|discriminate].
  cbn [bind] in H.
  destruct (is_tensor4 bs n_heads qlen klen e1) eqn:Hs; [|discriminate].
  cbn [assert bind] in H. injection H as <-.
  split; [exact Hs|]. intros b h i j Hh Hinv.
  exact (masked_fill_invalid n_heads bs qlen klen m e0 e1 b h i j Hfill Hm Hs Hh Hinv).
Qed.

Lemma me_forward_masked (self : MonotonicEnergy) (key query : tensor3)
  (m : mask3) (cache : bool) (e : tensor4) :
  current_mask self m cache ->
  is_mask3 (length key) (length (hd [] query)) (length (hd [] key)) m = true ->
  fst (me_forward self key query (Some m) cache) = Ok e ->
  is_tensor4 (length key) (me_n_heads self) (length (hd [] query))
    (length (hd [] key)) e = true /\
  forall b h i j, (h < me_n_heads self)%nat -> invalid m b i j ->
    get4 e b h i j = NEG_INF.
Proof.
  intros Hcur Hm He. unfold me_forward in He. cbv zeta in He.
  assert (Hhit : me_key self <> None -> cache = true ->
                 me_mask self = Some (expand_mask (me_n_heads self) m)).
  { intros Hk Hc. destruct Hcur as [H|[H|H]]; [contradiction | congruence | exact H]. }
  destruct (me_key self) as [k|].
  - destruct cache.
    + cbn [negb fst bind] in He.
      rewrite (Hhit ltac:(discriminate) eq_refl) in He.
      eapply masked_fill_checked; [exact Hm | exact He].
    + cbn [negb fst bind me_set_cache me_mask me_n_heads me_key me_atype me_r
             me_v me_d_k me_w_query me_scale assert] in He.
      rewrite Hm in He. cbn [bind] in He.
      eapply masked_fill_checked; [exact Hm | exact He].
  - cbn [negb fst bind me_set_cache me_mask me_n_heads me_key me_atype me_r
           me_v me_d_k me_w_query me_scale assert] in He.
    rewrite Hm in He. cbn [bind] in He.
    eapply masked_fill_checked; [exact Hm | exact He].
Qed.

Lemma NEG_INF_underflow (x : R) : x <= 2 ^ 127 -> NEG_INF + x <= - 104.
Proof.
  intros Hx. unfold NEG_INF.
  assert (H8 : 256 <= 2 ^ 127).
  { replace 256 with (2 ^ 8 * 1) by (simpl; lra).
    replace (2 ^ 127) with (2 ^ 8 * 2 ^ 119)
      by (rewrite <- pow_add; reflexivity).
    apply Rmult_le_compat_l; [simpl; lra|].
    apply pow_R1_Rle. lra. }
  assert (H23 : 0 < / 2 ^ 23 <= / 2).
  { split.
    - apply Rinv_0_lt_compat, pow_lt. lra.
    - apply Rinv_le_contravar; [lra|].
      replace 2 with (2 ^ 1) at 1 by (simpl; lra).
      apply Rle_pow; [lra | lia]. }
  nra.
Qed.

(** *** The selection probabilities of masked positions *)

Lemma nth_map_in_range {A B : Type} (f : A -> B) (l : list A) (n : nat)
  (d : A) (d' : B) :
  (n < length l)%nat -> nth n (map f l) d' = f (nth n l d).
Proof.
  intros Hn. rewrite (nth_indep _ d' (f d)) by (rewrite length_map; exact Hn).
  apply map_nth.
Qed.

Lemma nth_mapi_in_range {A B : Type} (f : nat -> A -> B) (l : list A) (n : nat)
  (d : A) (d' : B) :
  (n < length l)%nat -> nth n (mapi f l) d' = f n (nth n l d).
Proof.
  intros Hn. unfold mapi.
  rewrite (nth_zip_with f _ _ n 0%nat d) by (rewrite ?length_seq; lia).
  now rewrite seq_nth by lia.
Qed.

(** The entries of a tensor of shape [[B, H, Q, K]]. *)
Lemma get4_mapi4 (f : nat -> nat -> nat -> nat -> R -> R) (t : tensor4)
  (B H Q K b h i j : nat) :
  is_tensor4 B H Q K t = true ->
  (b < B)%nat -> (h < H)%nat -> (i < Q)%nat -> (j < K)%nat ->
  get4 (mapi4 f t) b h i j = f b h i j (get4 t b h i j).
Proof.
  intros Ht Hb Hh Hi Hj.
  destruct (is_tensor4_inv _ _ _ _ _ Ht) as [Hlb H3].
  destruct (is_tensor3_inv _ _ _ _ (H3 b Hb)) as [Hlh H2].
  destruct (is_mat_inv _ _ _ (H2 h Hh)) as [Hli H1].
  pose proof (H1 i Hi) as Hlj.
  unfold get4, mapi4.
  rewrite (nth_mapi_in_range _ t b []) by lia.
  rewrite (nth_mapi_in_range _ (nth b t []) h []) by lia.
  rewrite (nth_mapi_in_range _ (nth h (nth b t []) []) i []) by lia.
  rewrite (nth_mapi_in_range _ (nth i (nth h (nth b t []) []) []) j 0) by lia.
  reflexivity.
Qed.

Lemma get4_map4 (f : R -> R) (t : tensor4) (B H Q K b h i j : nat) :
  is_tensor4 B H Q K t = true ->
  (b < B)%nat -> (h < H)%nat -> (i < Q)%nat -> (j < K)%nat ->
  get4 (map (map (map (map f))) t) b h i j = f (get4 t b h i j).
Proof.
  intros Ht Hb Hh Hi Hj.
  destruct (is_tensor4_inv _ _ _ _ _ Ht) as [Hlb H3].
  destruct (is_tensor3_inv _ _ _ _ (H3 b Hb)) as [Hlh H2].
  destruct (is_mat_inv _ _ _ (H2 h Hh)) as [Hli H1].
  pose proof (H1 i Hi) as Hlj.
  unfold get4.
  rewrite (nth_map_in_range _ t b []) by lia.
  rewrite (nth_map_in_range _ (nth b t []) h []) by lia.
  rewrite (nth_map_in_range _ (nth h (nth b t []) []) i []) by lia.
  rewrite (nth_map_in_range _ (nth i (nth h (nth b t []) []) []) j 0) by lia.
  reflexivity.
Qed.

(** *** Elementwise operations keep the shape *)

Lemma forallb_map_eq {A B : Type} (P : A -> bool) (P' : B -> bool) (f : A -> B)
  (l : list A) :
  (forall x, P' (f x) = P x) -> forallb P' (map f l) = forallb P l.
Proof.
  intros Hf. induction l as [|x l IH]; simpl; [reflexivity|].
  now rewrite Hf, IH.
Qed.

Lemma forallb_zip_seq {A B : Type} (P : A -> bool) (P' : B -> bool)
  (f : nat -> A -> B) (l : list A) (s : nat) :
  (forall n x, P' (f n x) = P x) ->
  forallb P' (zip_with f (seq s (length l)) l) = forallb P l.
Proof.
  intros Hf. revert s. induction l as [|x l IH]; intros s; simpl; [reflexivity|].
  now rewrite Hf, IH.
Qed.

Lemma forallb_mapi {A B : Type} (P : A -> bool) (P' : B -> bool)
  (f : nat -> A -> B) (l : list A) :
  (forall n x, P' (f n x) = P x) -> forallb P' (mapi f l) = forallb P l.
Proof. intros Hf. unfold mapi. now apply forallb_zip_seq. Qed.

Lemma is_tensor4_mapi4 (f : nat -> nat -> nat -> nat -> R -> R) (t : tensor4)
  (B H Q K : nat) :
  is_tensor4 B H Q K (mapi4 f t) = is_tensor4 B H Q K t.
Proof.
  unfold is_tensor4, mapi4. rewrite length_mapi. f_equal.
  apply forallb_mapi. intros b t3.
  unfold is_tensor3. rewrite length_mapi. f_equal.
  apply forallb_mapi. intros h t2.
  unfold is_mat. rewrite length_mapi. f_equal.
  apply forallb_mapi. intros i t1.
  unfold is_row. now rewrite length_mapi.
Qed.

Lemma is_tensor4_map4 (f : R -> R) (t : tensor4) (B H Q K : nat) :
  is_tensor4 B H Q K (map (map (map (map f))) t) = is_tensor4 B H Q K t.
Proof.
  unfold is_tensor4. rewrite length_map. f_equal.
  apply forallb_map_eq. intros t3.
  unfold is_tensor3. rewrite length_map. f_equal.
  apply forallb_map_eq. intros t2.
  unfold is_mat. rewrite length_map. f_equal.
  apply forallb_map_eq. intros t1.
  unfold is_row. now rewrite length_map.
Qed.

(** With the underflow of the sigmoid, [p_choose] is zero wherever the
    energy is [NEG_INF], whatever the noise. *)
Lemma p_choose_masked (sigmoid : R -> R) (rnd : randomness) (e : tensor4)
  (B H Q K b h i j : nat) :
  underflows sigmoid -> bounded_noise rnd ->
  is_tensor4 B H Q K e = true ->
  (b < B)%nat -> (h < H)%nat -> (i < Q)%nat -> (j < K)%nat ->
  get4 e b h i j = NEG_INF ->
  get4 (map (map (map (map sigmoid))) (add_gaussian_noise rnd e)) b h i j = 0.
Proof.
  intros Hs Hn He Hb Hh Hi Hj Hneg.
  rewrite (get4_map4 sigmoid _ B H Q K) by
    (try assumption; unfold add_gaussian_noise; now rewrite is_tensor4_mapi4).
  unfold add_gaussian_noise.
  rewrite (get4_mapi4 _ e B H Q K) by assumption.
  rewrite Hneg. apply Hs, NEG_INF_underflow, Hn.
Qed.

(** *** The recursive mode at masked positions *)

Lemma slice1_cases {A : Type} (i : nat) (l : list A) (d : A) :
  slice1 i l = [] \/ slice1 i l = [nth i l d].
Proof.
  destruct (Nat.lt_ge_cases i (length l)) as [Hlt|Hge].
  - right. now apply slice1_nth.
  - left. unfold slice1. now rewrite skipn_all2.
Qed.

(** Every row a step of the recursive mode returns is [p_choose[i]]
    times something, and there is at most one of them. *)
Lemma recursive_step_rows (klen i : nat) (pm aw r : mat) :
  recursive_step klen i pm aw = Ok r ->
  (length r <= 1)%nat /\
  forall x, In x r -> exists y, x = zip_with Rmult (nth i pm []) y.
Proof.
  unfold recursive_step. cbv zeta. intros H.
  match type of H with bind ?x _ = _ => destruct x as [q|]; [|discriminate] end.
  cbn [bind] in H.
  destruct (slice1_cases i pm []) as [Hp|Hp];
    destruct (slice1_cases i q []) as [Hq|Hq];
    unfold mat, row in *; rewrite Hp, Hq in H; cbn in H; injection H as <-;
    (split; [simpl; lia|]); intros x Hx; simpl in Hx;
    try contradiction.
  destruct Hx as [<-|[]]. eexists. reflexivity.
Qed.

Lemma for_each_fixed {S : Type} (idx : list nat) (body : nat -> S -> result S)
  (s s' : S) :
  (forall j t, body j s = Ok t -> t = s) ->
  for_each idx body s = Ok s' -> s' = s.
Proof.
  intros Hb. induction idx as [|j idx IH]; simpl; intros H.
  - now injection H.
  - destruct (body j s) as [t|] eqn:Ht; [|discriminate].
    cbn [bind] in H. rewrite (Hb j t Ht) in H. exact (IH H).
Qed.

Lemma q_step_later (i j : nat) (sh aw q q' : mat) :
  slice1 i q = [] -> q_step i j sh aw q = Ok q' -> q' = q.
Proof.
  intros Hq. unfold q_step. intros H.
  match type of H with bind ?x _ = _ => destruct x as [a|]; [|discriminate] end.
  cbn [bind] in H.
  match type of H with bind ?x _ = _ => destruct x as [rhs|]; [|discriminate] end.
  cbn [bind] in H. unfold assign_slice_col in H.
  unfold mat, row in *. rewrite Hq in H.
  destruct rhs as [|v [|v' rhs]]; [now injection H | now injection H | discriminate].
Qed.

(** Past the first query position the one-row [q] has no row to slice:
    the step returns no row. *)
Lemma recursive_step_later (klen i : nat) (pm aw r : mat) :
  (1 <= i)%nat -> recursive_step klen i pm aw = Ok r -> r = [].
Proof.
  intros Hi. unfold recursive_step. cbv zeta. intros H.
  assert (Hq0 : slice1 i [repeat 0 (klen + 1)] = []).
  { unfold slice1. rewrite skipn_all2; [reflexivity | simpl; lia]. }
  match type of H with
  | bind ?x _ = _ => destruct x as [q|] eqn:Hloop; [|discriminate]
  end.
  cbn [bind] in H.
  apply for_each_fixed in Hloop.
  - subst q. unfold mat, row in *. rewrite Hq0 in H.
    destruct (slice1_cases i pm []) as [Hp|Hp]; rewrite Hp in H; cbn in H;
      now injection H.
  - intros j t Ht. exact (q_step_later i j _ _ _ t Hq0 Ht).
Qed.

Lemma recursive_loop_later (klen : nat) (pm : mat) (n s : nat) (aw : mat)
  (acc : list mat) (st : mat * list mat) :
  (1 <= s)%nat ->
  for_each (seq s n)
    (fun i (st : mat * list mat) =>
       aw_prev <- recursive_step klen i pm (fst st) ;;
       Ok (aw_prev, snd st ++ [aw_prev]))
    (aw, acc) = Ok st ->
  concat (snd st) = concat acc.
Proof.
  revert s aw acc. induction n as [|n IH]; intros s aw acc Hs H.
  - simpl in H. injection H as <-. reflexivity.
  - cbn [seq for_each fst snd] in H.
    destruct (recursive_step klen s pm aw) as [r|] eqn:Hr; [|discriminate].
    cbn [bind] in H. apply recursive_step_later in Hr; [|exact Hs]. subst r.
    apply IH in H; [|lia]. rewrite H, concat_app. simpl. now rewrite app_nil_r.
Qed.

(** What the recursive mode returns is zero wherever [p_choose] is. *)
Lemma recursive_mode_zero (qlen klen : nat) (pm am res : mat) (i j : nat) :
  recursive_mode qlen klen pm am = Ok res ->
  nth j (nth i pm []) 0 = 0 -> nth j (nth i res []) 0 = 0.
Proof.
  unfold recursive_mode. intros H Hp.
  destruct qlen as [|n]; [discriminate|].
  cbn [seq for_each fst snd] in H.
  destruct (recursive_step klen 0 pm am) as [r0|] eqn:Hr0; [|discriminate].
  cbn [bind app] in H.
  match type of H with
  | bind ?x _ = _ => destruct x as [st|] eqn:Hloop; [|discriminate]
  end.
  cbn [bind] in H.
  pose proof (recursive_loop_later klen pm n 1 r0 [r0] st (le_n 1) Hloop) as Hcat.
  simpl in Hcat. rewrite app_nil_r in Hcat.
  assert (Hres : res = r0).
  { unfold cat_rows in H. destruct n as [|n].
    - simpl in Hloop. injection Hloop as <-. simpl in H. now injection H.
    - cbn [Nat.ltb Nat.leb] in H. injection H as <-. exact Hcat. }
  subst res. destruct (recursive_step_rows klen 0 pm am r0 Hr0) as [Hlen Hrows].
  destruct (Nat.lt_ge_cases i (length r0)) as [Hlt|Hge].
  - assert (i = 0)%nat by lia. subst i.
    destruct (Hrows (nth 0 r0 []) (nth_In _ _ Hlt)) as [y ->].
    apply nth_zip_zero_l; [intros; lra | exact Hp].
  - rewrite (nth_overflow r0) by exact Hge. now destruct j.
Qed.

(** *** The parallel mode at masked positions *)

Lemma closed_form_zero (eps : R) (no_denom : bool) (p aw : row) (j : nat) :
  nth j p 0 = 0 -> nth j (closed_form eps no_denom p aw) 0 = 0.
Proof.
  intros Hp. unfold closed_form. cbv zeta.
  apply nth_zip_zero_l; [intros; lra|].
  apply nth_zip_zero_l; [intros; lra | exact Hp].
Qed.

Lemma zero_from_zero (s : Z) (r : row) (j : nat) :
  nth j r 0 = 0 -> nth j (zero_from s r) 0 = 0.
Proof.
  intros Hr. unfold zero_from. cbv zeta.
  set (n := Z.to_nat _).
  destruct (Nat.lt_ge_cases j (length (firstn n r))) as [Hlt|Hge].
  - rewrite app_nth1 by exact Hlt. rewrite nth_firstn.
    destruct (j <? n)%nat; [exact Hr | reflexivity].
  - rewrite app_nth2 by exact Hge. apply nth_repeat.
Qed.

Lemma parallel_rows_zero (eps : R) (no_denom : bool) (limit : option Z)
  (pm : mat) (aw : row) (i j : nat) :
  nth j (nth i pm []) 0 = 0 ->
  nth j (nth i (parallel_rows eps no_denom limit pm aw) []) 0 = 0.
Proof.
  revert aw i. induction pm as [|p pm IH]; intros aw i Hp.
  - simpl. destruct i, j; reflexivity.
  - cbn [parallel_rows]. cbv zeta. destruct i as [|i].
    + cbn [nth] in *. destruct limit.
      * apply zero_from_zero, closed_form_zero, Hp.
      * apply closed_form_zero, Hp.
    + cbn [nth] in *. apply IH, Hp.
Qed.

(** *** The hard mode at masked positions *)

Lemma choose_underflow (sigmoid : R -> R) (x : R) :
  underflows sigmoid -> x <= - 104 -> choose sigmoid x = 0.
Proof.
  intros Hs Hx. unfold choose. rewrite (Hs x Hx).
  destruct (Rle_dec (/ 2) 0) as [H|H]; [lra | reflexivity].
Qed.

Lemma hard_select_masked (sigmoid : R -> R) (e aw : row) (j : nat) :
  underflows sigmoid -> (j < length e)%nat -> nth j e 0 = NEG_INF ->
  nth j (let p := zip_with Rmult (map (choose sigmoid) e) (cumsum aw) in
         zip_with Rmult p (exclusive_cumprod (map (fun x => 1 - x) p))) 0 = 0.
Proof.
  intros Hs Hj He. cbv zeta.
  apply nth_zip_zero_l; [intros; lra|].
  apply nth_zip_zero_l; [intros; lra|].
  rewrite (nth_map_in_range _ e j 0) by exact Hj.
  rewrite He. apply choose_underflow; [exact Hs|].
  replace NEG_INF with (NEG_INF + 0) by lra.
  apply NEG_INF_underflow. apply pow_le. lra.
Qed.

(** *** The latency control at masked positions *)

Lemma nth_set_nth_other {A : Type} (k j : nat) (v d : A) (r : list A) :
  (k < j)%nat -> (k < length r)%nat -> nth j (set_nth k v r) d = nth j r d.
Proof.
  intros Hkj Hk. unfold set_nth.
  rewrite app_nth2 by (rewrite length_firstn; lia).
  rewrite length_firstn, Nat.min_l by lia.
  destruct (j - k)%nat as [|n] eqn:Hn; [lia|].
  cbn [nth]. rewrite nth_skipn. f_equal. lia.
Qed.

Lemma Forall2_In_r {A B : Type} (P : A -> B -> Prop) (l : list A) (l' : list B)
  (y : B) :
  Forall2 P l l' -> In y l' -> exists x, In x l /\ P x y.
Proof.
  induction 1 as [|x y' l l' HP HF IH]; intros Hy; [contradiction|].
  destruct Hy as [<-|Hy].
  - exists x. split; [left; reflexivity | exact HP].
  - destruct (IH Hy) as [x' [Hx' HP']]. exists x'. split; [right|]; assumption.
Qed.

Lemma nonzero_cols_In (r : row) (m : Z) :
  In m (nonzero_cols r) -> exists k, m = Z.of_nat k /\ nth k r 0 <> 0.
Proof.
  unfold nonzero_cols. intros H. apply in_map_iff in H.
  destruct H as [k [<- Hk]]. apply filter_In in Hk. destruct Hk as [_ Hk].
  exists k. split; [reflexivity|]. intros Hz.
  rewrite (is_zero_true _ Hz) in Hk. discriminate.
Qed.

(** On rows that are zero from the key index [j] on, the latency control
    writes before [j]: the rows it returns are zero at [j]. *)
Lemma latency_batch_zero (eps_wait : Z) (br : option Z) (sl : Z) (klen : nat)
  (rows rows' : list row) (j : nat) :
  (0 < eps_wait)%Z -> Forall (fun a => length a = klen) rows ->
  (forall a k, In a rows -> (j <= k)%nat -> nth k a 0 = 0) ->
  latency_batch false eps_wait br sl rows = Ok rows' ->
  forall a', In a' rows' -> nth j a' 0 = 0.
Proof.
  intros Heps Hlen Hz Hl a' Ha'.
  destruct (latency_batch_rewrite eps_wait br sl klen rows Heps Hlen)
    as [ab' [Hab' HF]].
  rewrite Hl in Hab'. injection Hab' as <-.
  specialize (HF (Z.of_nat j - 1)%Z).
  assert (Hbound : forall m, In m (concat (map nonzero_cols rows)) ->
                             (m <= Z.of_nat j - 1)%Z).
  { intros m Hm. apply in_concat in Hm. destruct Hm as [l [Hl' Hm]].
    apply in_map_iff in Hl'. destruct Hl' as [a [<- Ha]].
    apply nonzero_cols_In in Hm. destruct Hm as [k [-> Hk]].
    destruct (Nat.lt_ge_cases k j) as [Hlt|Hge]; [lia|].
    exfalso. apply Hk. now apply (Hz a k). }
  specialize (HF Hbound).
  destruct (Forall2_In_r _ _ _ _ HF Ha') as [a [Ha Hrw]].
  rewrite Forall_forall in Hlen.
  destruct Hrw as [->|[k [Hk [Hkj [[_ ->]| ->]]]]].
  - now apply (Hz a j).
  - rewrite nth_set_nth_other by (rewrite ?(Hlen a Ha); lia).
    now apply (Hz a j).
  - rewrite nth_set_nth_other by (rewrite ?repeat_length; lia).
    apply nth_repeat.
Qed.

Lemma is_tensor4_In (b h q k : nat) (t : tensor4) (t3 : tensor3) :
  is_tensor4 b h q k t = true -> In t3 t -> is_tensor3 h q k t3 = true.
Proof.
  unfold is_tensor4. intros H Hin. apply andb_prop in H. destruct H as [_ Hf].
  rewrite forallb_forall in Hf. now apply Hf.
Qed.

Lemma is_tensor3_In (h q k : nat) (t : tensor3) (mt : mat) :
  is_tensor3 h q k t = true -> In mt t -> is_mat q k mt = true.
Proof.
  unfold is_tensor3. intros H Hin. apply andb_prop in H. destruct H as [_ Hf].
  rewrite forallb_forall in Hf. now apply Hf.
Qed.

Lemma is_mat_one (k : nat) (mt : mat) :
  is_mat 1 k mt = true -> exists a, mt = [a] /\ length a = k.
Proof.
  intros H. destruct (is_mat_inv _ _ _ H) as [Hl Hr].
  destruct mt as [|a [|a' mt]]; try discriminate.
  exists a. split; [reflexivity|]. exact (Hr 0%nat (le_n 1)).
Qed.

Lemma zero_at_get (i j h : nat) (t : tensor3) :
  zero_at i j t -> nth j (nth i (nth h t []) []) 0 = 0.
Proof.
  intros Hz. destruct (Nat.lt_ge_cases h (length t)) as [Hlt|Hge].
  - apply Hz, nth_In, Hlt.
  - rewrite (nth_overflow t) by exact Hge. now destruct i, j.
Qed.

(** The three modes on the heads of one batch element. *)
Lemma recursive_heads_zero (qlen klen : nat) (pb yb ab : tensor3) (i j : nat) :
  bcastM (recursive_mode qlen klen) pb yb = Ok ab ->
  zero_at i j pb -> zero_at i j ab.
Proof.
  intros H Hp mt Hmt.
  destruct (bcastM_In _ _ _ _ _ H Hmt) as [pm [am [Hpm [_ Hr]]]].
  exact (recursive_mode_zero qlen klen pm am mt i j Hr (Hp pm Hpm)).
Qed.

Lemma parallel_heads_zero (eps : R) (no_denom : bool) (limit : option Z)
  (qlen klen h h' : nat) (pb yb ab : tensor3) (i j : nat) :
  bcastM (parallel_mode eps no_denom limit qlen) pb yb = Ok ab ->
  is_tensor3 h qlen klen pb = true -> is_tensor3 h' 1 klen yb = true ->
  (i < qlen)%nat ->
  zero_at i j pb -> zero_at i j ab.
Proof.
  intros H Hpb Hyb Hi Hp mt Hmt.
  destruct (bcastM_In _ _ _ _ _ H Hmt) as [pm [am [Hpm [Ham Hr]]]].
  destruct (is_mat_one _ _ (is_tensor3_In _ _ _ _ _ Hyb Ham)) as [a [-> _]].
  destruct (is_mat_inv _ _ _ (is_tensor3_In _ _ _ _ _ Hpb Hpm)) as [Hl _].
  rewrite <- Hl in Hr. rewrite parallel_mode_rows in Hr.
  - injection Hr as <-. apply parallel_rows_zero, Hp, Hpm.
  - intros ->. simpl in Hl. lia.
Qed.

Lemma hard_heads_zero (sigmoid : R -> R) (klen h h' : nat) (eb yb ab : tensor3)
  (j : nat) :
  underflows sigmoid ->
  bcastM (hard_select sigmoid) eb yb = Ok ab ->
  is_tensor3 h 1 klen eb = true -> is_tensor3 h' 1 klen yb = true ->
  (forall em k, In em eb -> (j <= k < klen)%nat -> nth k (nth 0 em []) 0 = NEG_INF) ->
  forall mt, In mt ab ->
    exists r, mt = [r] /\ length r = klen /\
      forall k, (j <= k)%nat -> nth k r 0 = 0.
Proof.
  intros Hs H Heb Hyb Hneg mt Hmt.
  destruct (bcastM_In _ _ _ _ _ H Hmt) as [em [am [Hem [Ham Hr]]]].
  destruct (is_mat_one _ _ (is_tensor3_In _ _ _ _ _ Hyb Ham)) as [a [-> Hla]].
  destruct (is_mat_one _ _ (is_tensor3_In _ _ _ _ _ Heb Hem)) as [e [-> Hle]].
  rewrite hard_select_row in Hr. injection Hr as <-. cbv zeta.
  eexists. split; [reflexivity|].
  assert (Hlen : length
            (zip_with Rmult (zip_with Rmult (map (choose sigmoid) e) (cumsum a))
               (exclusive_cumprod
                  (map (fun x => 1 - x)
                     (zip_with Rmult (map (choose sigmoid) e) (cumsum a)))))
          = klen).
  { pose proof (length_exclusive_cumprod
                  (map (fun x => 1 - x)
                     (zip_with Rmult (map (choose sigmoid) e) (cumsum a)))) as Hx.
    rewrite length_map in Hx.
    rewrite !length_zip_with in *. unfold cumsum in *.
    rewrite !length_map, !length_cumsum_from in *. lia. }
  split; [exact Hlen|].
  intros k Hk. destruct (Nat.lt_ge_cases k klen) as [Hlt|Hge].
  - apply (hard_select_masked sigmoid e a k Hs); [lia|].
    apply (Hneg [e] k Hem). lia.
  - apply nth_overflow. lia.
Qed.

(** The same at a single frame: a head of the hard selection is zero at a
    frame whose energy is [NEG_INF], whatever the other frames hold. *)
Lemma hard_heads_zero_at (sigmoid : R -> R) (klen h h' : nat) (eb yb ab : tensor3)
  (j : nat) :
  underflows sigmoid ->
  bcastM (hard_select sigmoid) eb yb = Ok ab ->
  is_tensor3 h 1 klen eb = true -> is_tensor3 h' 1 klen yb = true ->
  (j < klen)%nat ->
  (forall em, In em eb -> nth j (nth 0 em []) 0 = NEG_INF) ->
  zero_at 0 j ab.
Proof.
  intros Hs H Heb Hyb Hj Hneg mt Hmt.
  destruct (bcastM_In _ _ _ _ _ H Hmt) as [em [am [Hem [Ham Hr]]]].
  destruct (is_mat_one _ _ (is_tensor3_In _ _ _ _ _ Hyb Ham)) as [a [-> Hla]].
  destruct (is_mat_one _ _ (is_tensor3_In _ _ _ _ _ Heb Hem)) as [e [-> Hle]].
  rewrite hard_select_row in Hr. injection Hr as <-. cbn [nth].
  apply (hard_select_masked sigmoid e a j Hs); [lia|].
  exact (Hneg [e] Hem).
Qed.

Lemma latency_control_zero (eps_wait : Z) (br : option Z) (alpha0 alpha : tensor4)
  (klen b j : nat) :
  latency_control eps_wait br alpha0 = Ok alpha -> (b < length alpha0)%nat ->
  (forall mt, In mt (nth b alpha0 []) ->
     exists r, mt = [r] /\ length r = klen /\
       forall k, (j <= k)%nat -> nth k r 0 = 0) ->
  zero_at 0 j (nth b alpha []).
Proof.
  unfold latency_control. cbv zeta. intros H Hb Hrows.
  destruct (eps_wait >? 0)%Z eqn:Heps.
  - apply Z.gtb_lt in Heps.
    pose proof (mapM_nth _ alpha0 alpha b [] [] H Hb) as Hbth. cbv beta in Hbth.
    match type of Hbth with
    | bind ?x _ = _ => destruct x as [rows'|] eqn:Hl; [|discriminate]
    end.
    cbn [bind] in Hbth. injection Hbth as Hbth.
    intros mt Hmt. unfold tensor3, mat, row in *. rewrite <- Hbth in Hmt.
    apply in_map_iff in Hmt. destruct Hmt as [a' [<- Ha']]. cbn [nth].
    apply (latency_batch_zero eps_wait br _ klen _ rows' j Heps) with (4 := Ha')
                                                                      (3 := Hl).
    + apply Forall_forall. intros a Ha. apply in_map_iff in Ha.
      destruct Ha as [mt [<- Hmt]].
      destruct (Hrows mt Hmt) as [r [-> [Hr _]]]. exact Hr.
    + intros a k Ha Hk. apply in_map_iff in Ha.
      destruct Ha as [mt [<- Hmt]].
      destruct (Hrows mt Hmt) as [r [-> [_ Hz]]]. now apply Hz.
  - injection H as <-. intros mt Hmt.
    destruct (Hrows mt Hmt) as [r [-> [_ Hz]]]. now apply Hz.
Qed.

(** *** Dropout keeps zeros and shapes *)

Lemma get4_map4_zero (f : R -> R) (t : tensor4) (b h i j : nat) :
  f 0 = 0 -> get4 t b h i j = 0 -> get4 (map (map (map (map f))) t) b h i j = 0.
Proof.
  intros Hf Ht. unfold get4 in *.
  rewrite (nth_map_default _ t b []) by reflexivity.
  rewrite (nth_map_default _ (nth b t []) h []) by reflexivity.
  rewrite (nth_map_default _ (nth h (nth b t []) []) i []) by reflexivity.
  rewrite (nth_map_default _ (nth i (nth h (nth b t []) []) []) j 0) by exact Hf.
  unfold tensor3, mat, row in *. rewrite Ht. exact Hf.
Qed.

Lemma get4_mapi4_zero (f : nat -> nat -> nat -> nat -> R -> R) (t : tensor4)
  (b h i j : nat) :
  (forall b h i j, f b h i j 0 = 0) -> get4 t b h i j = 0 ->
  get4 (mapi4 f t) b h i j = 0.
Proof.
  intros Hf Ht. unfold get4, mapi4 in *.
  rewrite (nth_mapi _ t b []) by reflexivity.
  rewrite (nth_mapi _ (nth b t []) h []) by reflexivity.
  rewrite (nth_mapi _ (nth h (nth b t []) []) i []) by reflexivity.
  rewrite (nth_mapi _ (nth i (nth h (nth b t []) []) []) j 0)
    by (intros; apply Hf).
  unfold tensor3, mat, row in *. rewrite Ht. apply Hf.
Qed.

Lemma head_dropout_zero (self : MoChA) (rnd : randomness) (alpha : tensor4)
  (b h i j : nat) :
  get4 alpha b h i j = 0 -> get4 (head_dropout self rnd alpha) b h i j = 0.
Proof.
  intros Ha. unfold head_dropout.
  destruct ((1 <? n_heads_mono self)%nat
            && (if Rlt_dec 0 (dropout_head self) then true else false)
            && training self); [|exact Ha].
  cbv zeta.
  set (dropped := fun h0 : nat =>
         if Rlt_dec (head_draw rnd h0) (dropout_head self) then true else false).
  set (G := fun (h0 : nat) (m : mat) =>
         if (h0 <? n_heads_mono self)%nat && dropped h0
         then map (map (fun _ : R => 0)) m else m).
  assert (Hmasked : get4 (map (mapi G) alpha) b h i j = 0).
  { unfold get4 in *.
    rewrite (nth_map_default _ alpha b []) by reflexivity.
    rewrite (nth_mapi G (nth b alpha []) h [])
      by (intros k; unfold G; destruct (_ && _); reflexivity).
    unfold G. destruct (_ && _); [|exact Ha].
    rewrite (nth_map_default _ (nth h (nth b alpha []) []) i []) by reflexivity.
    now rewrite (nth_map_default _ (nth i (nth h (nth b alpha []) []) []) j 0). }
  destruct (0 <? _)%nat; [|exact Hmasked].
  apply get4_map4_zero; [lra | exact Hmasked].
Qed.

Lemma is_tensor4_head_dropout (self : MoChA) (rnd : randomness) (alpha : tensor4)
  (B H Q K : nat) :
  is_tensor4 B H Q K (head_dropout self rnd alpha) = is_tensor4 B H Q K alpha.
Proof.
  unfold head_dropout.
  destruct ((1 <? n_heads_mono self)%nat
            && (if Rlt_dec 0 (dropout_head self) then true else false)
            && training self); [|reflexivity].
  cbv zeta.
  set (G := fun (h0 : nat) (m : mat) =>
         if (h0 <? n_heads_mono self)%nat &&
            (if Rlt_dec (head_draw rnd h0) (dropout_head self) then true else false)
         then map (map (fun _ : R => 0)) m else m).
  assert (Hmasked : is_tensor4 B H Q K (map (mapi G) alpha) = is_tensor4 B H Q K alpha).
  { unfold is_tensor4. rewrite length_map. f_equal.
    apply forallb_map_eq. intros t3.
    unfold is_tensor3. rewrite length_mapi. f_equal.
    apply forallb_mapi. intros h m. unfold G.
    destruct (_ && _); [|reflexivity].
    unfold is_mat. rewrite length_map. f_equal.
    apply forallb_map_eq. intros r. unfold is_row. now rewrite length_map. }
  destruct (0 <? _)%nat; [|exact Hmasked].
  now rewrite is_tensor4_map4.
Qed.

Lemma attention_dropout_zero (self : MoChA) (rnd : randomness) (beta : tensor4)
  (b h i j : nat) :
  get4 beta b h i j = 0 -> get4 (attention_dropout self rnd beta) b h i j = 0.
Proof.
  intros Hb. unfold attention_dropout.
  destruct (training self && _); [|exact Hb].
  apply get4_mapi4_zero; [intros; lra | exact Hb].
Qed.

Lemma is_tensor4_attention_dropout (self : MoChA) (rnd : randomness)
  (beta : tensor4) (B H Q K : nat) :
  is_tensor4 B H Q K (attention_dropout self rnd beta) = is_tensor4 B H Q K beta.
Proof.
  unfold attention_dropout.
  destruct (training self && _); [|reflexivity].
  apply is_tensor4_mapi4.
Qed.

(** *** The three modes at masked positions *)

Ltac shape_lia := unfold tensor4, tensor3, mat, row in *; lia.

Lemma invalid_bounds (bs qlen klen : nat) (m : mask3) (b i j : nat) :
  is_mask3 bs qlen klen m = true -> invalid m b i j ->
  (b < bs /\ i < qlen /\ j < klen)%nat.
Proof.
  intros Hm Hinv.
  destruct (invalid_in_range m b i j Hinv) as [Hb [Hi Hj]].
  destruct (is_mask3_inv _ _ _ _ Hm) as [Hmb Hmrows].
  rewrite Hmb in Hb. destruct (Hmrows b Hb) as [Hmq Hmk].
  rewrite Hmq in Hi. rewrite (Hmk i Hi) in Hj. auto.
Qed.

Lemma padding_mask_later (bs qlen klen : nat) (m : mask3) (b i j k : nat) :
  padding_mask m -> is_mask3 bs qlen klen m = true ->
  invalid m b i j -> (j <= k < klen)%nat -> invalid m b i k.
Proof.
  intros Hp Hm Hinv Hk.
  destruct (invalid_bounds _ _ _ _ _ _ _ Hm Hinv) as [Hb [Hi Hj]].
  destruct (is_mask3_inv _ _ _ _ Hm) as [_ Hmrows].
  destruct (Hmrows b Hb) as [_ Hmk].
  apply (Hp b i j k); [rewrite (Hmk i Hi); exact Hk | exact Hinv].
Qed.

Lemma masked_zero_intro (bs qlen klen : nat) (m : mask3) (t : tensor4) :
  is_mask3 bs qlen klen m = true ->
  (forall b i j, invalid m b i j -> zero_at i j (nth b t [])) ->
  masked_zero m t.
Proof.
  intros Hm Hz b h i j Hinv. unfold get4. apply zero_at_get, Hz, Hinv.
Qed.

Lemma p_choose_zero_at (sigmoid : R -> R) (rnd : randomness) (e : tensor4)
  (bs hme qlen klen : nat) (m : mask3) (b i j : nat) :
  underflows sigmoid -> bounded_noise rnd ->
  is_mask3 bs qlen klen m = true ->
  is_tensor4 bs hme qlen klen e = true ->
  (forall b h i j, (h < hme)%nat -> invalid m b i j -> get4 e b h i j = NEG_INF) ->
  invalid m b i j ->
  zero_at i j (nth b (map (map (map (map sigmoid))) (add_gaussian_noise rnd e)) []).
Proof.
  intros Hs Hn Hm He Hneg Hinv mt Hmt.
  destruct (invalid_bounds _ _ _ _ _ _ _ Hm Hinv) as [Hb [Hi Hj]].
  set (p := map (map (map (map sigmoid))) (add_gaussian_noise rnd e)) in *.
  assert (Hp : is_tensor4 bs hme qlen klen p = true).
  { unfold p, add_gaussian_noise. now rewrite is_tensor4_map4, is_tensor4_mapi4. }
  destruct (is_tensor4_inv _ _ _ _ _ Hp) as [_ Hp3].
  destruct (is_tensor3_inv _ _ _ _ (Hp3 b Hb)) as [Hlh _].
  destruct (In_nth _ _ [] Hmt) as [h [Hh <-]].
  assert (Hh' : (h < hme)%nat) by (rewrite <- Hlh; exact Hh).
  apply (p_choose_masked sigmoid rnd e bs hme qlen klen b h i j); auto.
Qed.

Lemma latency_control_length (eps_wait : Z) (br : option Z)
  (alpha0 alpha : tensor4) :
  latency_control eps_wait br alpha0 = Ok alpha -> length alpha = length alpha0.
Proof.
  unfold latency_control. cbv zeta. destruct (eps_wait >? 0)%Z; intros H.
  - exact (mapM_length _ _ _ H).
  - now injection H as <-.
Qed.

Lemma select_alpha_masked (sigmoid : R -> R) (self : MoChA) (mode : string)
  (bs hme ha qlen klen : nat) (e aw : tensor4) (trigger_point : option (list Z))
  (eps_wait : Z) (boundary_rightmost : option Z) (rnd : randomness) (m : mask3)
  (alpha alpha_masked : tensor4) :
  underflows sigmoid -> bounded_noise rnd ->
  (padding_mask m \/ mode <> "hard"%string \/ (eps_wait <= 0)%Z) ->
  is_mask3 bs qlen klen m = true ->
  is_tensor4 bs hme qlen klen e = true ->
  (forall b h i j, (h < hme)%nat -> invalid m b i j -> get4 e b h i j = NEG_INF) ->
  is_tensor4 bs ha 1 klen aw = true ->
  select_alpha sigmoid self mode qlen klen e aw trigger_point eps_wait
    boundary_rightmost rnd = Ok (alpha, alpha_masked) ->
  is_tensor4 bs (n_heads_mono self) qlen klen alpha = true ->
  masked_zero m alpha /\ masked_zero m alpha_masked /\
  is_tensor4 bs (n_heads_mono self) qlen klen alpha_masked = true.
Proof.
  intros Hs Hn Hpad Hm He Hneg Haw Hsel Halpha.
  destruct (is_tensor4_inv _ _ _ _ _ Halpha) as [Hla _].
  destruct (is_tensor4_inv _ _ _ _ _ He) as [Hle He3].
  unfold select_alpha in Hsel.
  destruct (String.eqb mode "recursive") eqn:Hrec.
  { (* recursive *)
    cbv zeta in Hsel.
    match type of Hsel with
    | bind ?x _ = _ => destruct x as [al|] eqn:Hal; [|discriminate]
    end.
    cbn [bind] in Hsel. injection Hsel as <- <-.
    assert (Hz : masked_zero m al).
    { apply (masked_zero_intro bs qlen klen m al Hm). intros b i j Hinv.
      destruct (invalid_bounds _ _ _ _ _ _ _ Hm Hinv) as [Hb _].
      destruct (bcastM_nth _ _ _ _ b [] [] Hal) as [yb [_ Hb3]].
      - rewrite !length_map. unfold add_gaussian_noise, mapi4.
        rewrite length_mapi. shape_lia.
      - rewrite !length_map. unfold add_gaussian_noise, mapi4.
        rewrite length_mapi. shape_lia.
      - apply (recursive_heads_zero qlen klen _ yb _ i j Hb3).
        exact (p_choose_zero_at sigmoid rnd e bs hme qlen klen m b i j
                 Hs Hn Hm He Hneg Hinv). }
    auto. }
  destruct (String.eqb mode "parallel") eqn:Hpar.
  { (* parallel *)
    cbv zeta in Hsel.
    match type of Hsel with
    | bind ?x _ = _ => destruct x as [al|] eqn:Hal; [|discriminate]
    end.
    cbn [bind] in Hsel. injection Hsel as <- <-.
    set (p := map (map (map (map sigmoid))) (add_gaussian_noise rnd e)) in *.
    assert (Hp : is_tensor4 bs hme qlen klen p = true).
    { unfold p, add_gaussian_noise. now rewrite is_tensor4_map4, is_tensor4_mapi4. }
    destruct (is_tensor4_inv _ _ _ _ _ Hp) as [Hlp Hp3].
    assert (Hz : masked_zero m al).
    { apply (masked_zero_intro bs qlen klen m al Hm). intros b i j Hinv.
      destruct (invalid_bounds _ _ _ _ _ _ _ Hm Hinv) as [Hb [Hi _]].
      assert (Hlc : length (combine (seq 0 (length p)) p) = bs).
      { rewrite length_combine, length_seq. shape_lia. }
      destruct (bcastM_nth _ _ _ _ b (0%nat, []) [] Hal) as [yb [Hyb Hb3]];
        [shape_lia | shape_lia |].
      rewrite combine_nth in Hb3 by (now rewrite length_seq).
      cbn [fst snd] in Hb3.
      apply (parallel_heads_zero _ _ _ qlen klen hme ha _ yb _ i j Hb3).
      - exact (Hp3 b Hb).
      - exact (is_tensor4_In _ _ _ _ _ _ Haw Hyb).
      - exact Hi.
      - exact (p_choose_zero_at sigmoid rnd e bs hme qlen klen m b i j
                 Hs Hn Hm He Hneg Hinv). }
    split; [exact Hz|]. split.
    - intros b h i j Hinv. apply head_dropout_zero, Hz, Hinv.
    - now rewrite is_tensor4_head_dropout. }
  destruct (String.eqb mode "hard") eqn:Hhard; [|discriminate].
  (* hard *)
  destruct (qlen =? 1)%nat eqn:Hq; [|discriminate].
  apply Nat.eqb_eq in Hq. subst qlen. cbn [assert bind] in Hsel.
  match type of Hsel with
  | bind ?x _ = _ => destruct x as [alpha0|] eqn:Hal; [|discriminate]
  end.
  cbn [bind] in Hsel.
  match type of Hsel with
  | bind ?x _ = _ => destruct x as [al|] eqn:Hlat; [|discriminate]
  end.
  cbn [bind] in Hsel. injection Hsel as <- <-.
  pose proof (latency_control_length _ _ _ _ Hlat) as Hl0.
  assert (Hz : masked_zero m al).
  { apply (masked_zero_intro bs 1 klen m al Hm). intros b i j Hinv.
    destruct (invalid_bounds _ _ _ _ _ _ _ Hm Hinv) as [Hb [Hi Hj]].
    assert (i = 0)%nat by lia. subst i.
    destruct (bcastM_nth _ _ _ _ b [] [] Hal) as [yb [Hyb Hb3]]; [shape_lia | shape_lia |].
    assert (Hem : forall em k, In em (nth b e []) -> invalid m b 0 k ->
                    nth k (nth 0 em []) 0 = NEG_INF).
    { intros em k Hin Hk.
      destruct (is_tensor3_inv _ _ _ _ (He3 b Hb)) as [Hlh _].
      destruct (In_nth _ _ [] Hin) as [h [Hh <-]].
      assert (Hh' : (h < hme)%nat) by (rewrite <- Hlh; exact Hh).
      exact (Hneg b h 0%nat k Hh' Hk). }
    destruct Hpad as [Hpad | [Hmode | Hoff]].
    - apply (latency_control_zero eps_wait boundary_rightmost alpha0 al klen b j Hlat);
        [shape_lia|].
      apply (hard_heads_zero sigmoid klen hme ha _ yb _ j Hs Hb3 (He3 b Hb)
               (is_tensor4_In _ _ _ _ _ _ Haw Hyb)).
      intros em k Hin Hk. apply (Hem em k Hin).
      exact (padding_mask_later bs 1 klen m b 0 j k Hpad Hm Hinv Hk).
    - apply String.eqb_eq in Hhard. contradiction.
    - unfold latency_control in Hlat. cbv zeta in Hlat.
      destruct (eps_wait >? 0)%Z eqn:Hgt; [apply Z.gtb_lt in Hgt; lia|].
      injection Hlat as <-.
      apply (hard_heads_zero_at sigmoid klen hme ha _ yb _ j Hs Hb3 (He3 b Hb)
               (is_tensor4_In _ _ _ _ _ _ Haw Hyb) Hj).
      intros em Hin. exact (Hem em j Hin Hinv). }
  auto.
Qed.

(** *** The chunkwise attention at masked positions *)

Lemma sum_list_all_zero (l : row) :
  (forall k, nth k l 0 = 0) -> sum_list l = 0.
Proof.
  induction l as [|a l IH]; intros H; [reflexivity|].
  change (sum_list (a :: l)) with (a + sum_list l).
  rewrite IH by (intros k; exact (H (S k))).
  pose proof (H 0%nat) as H0. simpl in H0. lra.
Qed.

Lemma nth_pad_zero (x : row) (forward j k : nat) :
  (forall k, (j <= k)%nat -> nth k x 0 = 0) -> (j <= k)%nat ->
  nth k (pad x 0 forward) 0 = 0.
Proof.
  intros Hx Hk. unfold pad. cbn [repeat app].
  destruct (Nat.lt_ge_cases k (length x)) as [Hlt|Hge].
  - rewrite app_nth1 by exact Hlt. now apply Hx.
  - rewrite app_nth2 by exact Hge. apply nth_repeat.
Qed.

(** A forward-looking moving sum is zero where its input is zero from
    there on. *)
Lemma moving_sum_zero (x ms : row) (forward j : nat) :
  moving_sum x 0 forward = Ok ms ->
  (forall k, (j <= k)%nat -> nth k x 0 = 0) -> nth j ms 0 = 0.
Proof.
  unfold moving_sum, conv1d. cbv zeta. intros H Hx.
  destruct (_ <? _)%nat; [discriminate|]. injection H as <-.
  rewrite repeat_length.
  set (n := (length (pad x 0 forward) - (0 + forward + 1) + 1)%nat).
  destruct (Nat.lt_ge_cases j n) as [Hlt|Hge].
  - rewrite (nth_map_in_range _ (seq 0 n) j 0%nat) by (now rewrite length_seq).
    rewrite seq_nth by exact Hlt. cbn [Nat.add].
    rewrite dot_ones by (rewrite length_firstn; lia).
    apply sum_list_all_zero. intros k. rewrite nth_firstn.
    destruct (k <? forward + 1)%nat; [|reflexivity].
    rewrite nth_skipn. apply (nth_pad_zero x forward j); [exact Hx | lia].
  - apply nth_overflow. rewrite length_map, length_seq. exact Hge.
Qed.

Lemma chunk_row_zero (chunk_size : Z) (sharpening_factor : R) (a e br : row)
  (j : nat) :
  chunk_row chunk_size sharpening_factor a e = Ok br ->
  (forall k, (j <= k)%nat -> nth k a 0 = 0) -> nth j br 0 = 0.
Proof.
  unfold chunk_row. cbv zeta. intros H Ha.
  assert (Hx : forall den k, (j <= k)%nat ->
            nth k (zip_with Rdiv (map (fun a0 => a0 * sharpening_factor) a) den) 0 = 0).
  { intros den k Hk. apply nth_zip_zero_l; [intros; unfold Rdiv; ring|].
    rewrite (nth_map_default _ a k 0) by ring.
    rewrite (Ha k Hk). ring. }
  destruct (chunk_size =? -1)%Z.
  - match type of H with
    | bind ?x _ = _ => destruct x as [ms|] eqn:Hms; [|discriminate]
    end.
    cbn [bind] in H. injection H as <-.
    apply nth_zip_zero_r; [intros; lra|].
    exact (moving_sum_zero _ ms _ j Hms (Hx _)).
  - match type of H with
    | bind ?x _ = _ => destruct x as [den|]; [|discriminate]
    end.
    cbn [bind] in H.
    match type of H with
    | bind ?x _ = _ => destruct x as [ms|] eqn:Hms; [|discriminate]
    end.
    cbn [bind] in H. injection H as <-.
    apply nth_zip_zero_r; [intros; lra|].
    exact (moving_sum_zero _ ms _ j Hms (Hx _)).
Qed.

Lemma chunk_heads_zero (chunk_size : Z) (sharpening_factor : R)
  (ab eb : tensor3) (hs : list tensor3) (qlen i j : nat) :
  mapM (fun am => mapM (fun em =>
          bcastM (chunk_row chunk_size sharpening_factor) am em) eb) ab = Ok hs ->
  (forall am, In am ab ->
     length am = qlen /\ forall k, (j <= k)%nat -> nth k (nth i am []) 0 = 0) ->
  (forall bm, In bm (concat hs) -> length bm = qlen) -> (i < qlen)%nat ->
  zero_at i j (concat hs).
Proof.
  intros H Hab Hlen Hi bm Hbm.
  pose proof (Hlen bm Hbm) as Hlbm.
  apply in_concat in Hbm. destruct Hbm as [hrow [Hhrow Hbm]].
  destruct (mapM_In _ _ _ _ H Hhrow) as [am [Ham Hrow]].
  destruct (mapM_In _ _ _ _ Hrow Hbm) as [em [_ Hbc]].
  destruct (Hab am Ham) as [Hlam Hz].
  destruct (bcastM_nth _ _ _ _ i [] [] Hbc) as [erow [_ Hcr]];
    [shape_lia | shape_lia |].
  exact (chunk_row_zero _ _ _ _ _ j Hcr Hz).
Qed.

Lemma efficient_chunkwise_attention_masked (alpha e beta : tensor4)
  (mask : option mask3) (chunk_size : Z) (n_heads : nat) (sharpening_factor : R)
  (m : mask3) (bs h hb qlen klen : nat) :
  efficient_chunkwise_attention alpha e mask chunk_size n_heads
    sharpening_factor None = Ok beta ->
  padding_mask m -> is_mask3 bs qlen klen m = true ->
  masked_zero m alpha -> is_tensor4 bs h qlen klen alpha = true ->
  is_tensor4 bs hb qlen klen beta = true ->
  masked_zero m beta.
Proof.
  unfold efficient_chunkwise_attention. intros H Hpad Hm Hz Ha Hb.
  destruct (is_tensor4_inv _ _ _ _ _ Ha) as [Hla Ha3].
  destruct (is_tensor4_inv _ _ _ _ _ Hb) as [Hlb Hb3].
  apply (masked_zero_intro bs qlen klen m beta Hm). intros b i j Hinv.
  destruct (invalid_bounds _ _ _ _ _ _ _ Hm Hinv) as [Hbb [Hi Hj]].
  destruct (bcastM_nth _ _ _ _ b [] [] H) as [eb [_ Hbth]];
    [shape_lia | shape_lia |].
  cbv beta in Hbth.
  match type of Hbth with
  | bind ?x _ = _ => destruct x as [hs|] eqn:Hhs; [|discriminate]
  end.
  cbn [bind] in Hbth. injection Hbth as Hbth.
  unfold tensor3, mat, row in *. rewrite <- Hbth.
  apply (chunk_heads_zero chunk_size sharpening_factor _ eb hs qlen i j Hhs);
    [| |exact Hi].
  - intros am Ham.
    destruct (is_mat_inv _ _ _ (is_tensor3_In _ _ _ _ _ (Ha3 b Hbb) Ham))
      as [Hlam Hrows].
    split; [exact Hlam|]. intros k Hk.
    destruct (Nat.lt_ge_cases k klen) as [Hlt|Hge].
    + destruct (In_nth _ _ [] Ham) as [h0 [_ <-]].
      apply (Hz b h0 i k).
      exact (padding_mask_later bs qlen klen m b i j k Hpad Hm Hinv (conj Hk Hlt)).
    + apply nth_overflow. rewrite (Hrows i Hi). exact Hge.
  - intros bm Hbm.
    assert (Hbm' : In bm (nth b beta [])).
    { unfold tensor3, mat, row in *. rewrite <- Hbth. exact Hbm. }
    destruct (is_mat_inv _ _ _ (is_tensor3_In _ _ _ _ _ (Hb3 b Hbb) Hbm'))
      as [Hlbm _].
    exact Hlbm.
Qed.

Lemma chunk_attention_masked (self : MoChA) (key query : tensor3)
  (mask : option mask3) (cache : bool) (alpha_masked bt : tensor4)
  (rnd : randomness) (m : mask3) (bs h hb qlen klen : nat) :
  fst (chunk_attention self key query mask cache alpha_masked rnd) = Ok (Some bt) ->
  padding_mask m -> is_mask3 bs qlen klen m = true ->
  masked_zero m alpha_masked -> is_tensor4 bs h qlen klen alpha_masked = true ->
  is_tensor4 bs hb qlen klen bt = true ->
  masked_zero m bt.
Proof.
  unfold chunk_attention. intros H Hpad Hm Hz Ha Hb.
  destruct (uses_chunk (chunk_size self)); [|discriminate].
  destruct (chunk_energy self) as [ce|]; [|discriminate].
  cbv zeta in H. cbn [fst] in H.
  destruct (fst (ce_forward ce key query mask cache)) as [e_chunk|];
    [|discriminate].
  cbn [bind] in H.
  match type of H with
  | bind ?x _ = _ => destruct x as [beta0|] eqn:Hbeta; [|discriminate]
  end.
  cbn [bind] in H. injection H as <-.
  rewrite is_tensor4_attention_dropout in Hb.
  intros b h0 i j Hinv. apply attention_dropout_zero.
  exact (efficient_chunkwise_attention_masked _ _ _ _ _ _ _ m bs h hb qlen klen
           Hbeta Hpad Hm Hz Ha Hb b h0 i j Hinv).
Qed.

(** *** The whole call *)

Lemma forallb_repeat {A : Type} (P : A -> bool) (x : A) (n : nat) :
  P x = true -> forallb P (repeat x n) = true.
Proof.
  intros Hx. induction n as [|n IH]; simpl; [reflexivity|]. now rewrite Hx, IH.
Qed.

Lemma is_tensor4_initial_aw_prev (bs n_heads klen : nat) :
  is_tensor4 bs n_heads 1 klen (initial_aw_prev bs n_heads klen) = true.
Proof.
  unfold initial_aw_prev, is_tensor4. rewrite repeat_length, Nat.eqb_refl.
  apply forallb_repeat. unfold is_tensor3. rewrite repeat_length, Nat.eqb_refl.
  apply forallb_repeat. unfold is_mat, is_row. cbn [length forallb andb Nat.eqb].
  rewrite andb_true_r. apply Nat.eqb_eq.
  rewrite length_firstn. cbn [length]. rewrite repeat_length. lia.
Qed.

(** C2 (amended).  Let the mask have the shape [[B, qlen, klen]] and be
    the mask the energy function applies, and [aw_prev] be absent or of
    the shape [[B, H_ma, 1, klen]]; in parallel mode let [eps] be
    positive (with [eps = 0] the code divides 0 by 0 at masked frames).
    Every call that returns, in whatever mode, returns an [alpha] that is
    exactly zero at every position the mask marks invalid, provided the
    latency control of the hard mode is off ([eps_wait <= 0] or another
    mode) or the mask is a padding mask (the valid key positions of every
    row are a prefix).  With a padding mask the [beta] it returns, when
    there is one, is exactly zero at every invalid position too.  The
    zeros are those of float32: the sigmoid of [NEG_INF], with or without
    the noise, is 0. *)
Theorem masked_positions_have_zero_weight (sigmoid : R -> R) (self : MoChA)
  (key value query : tensor3) (m : mask3) (aw_prev : option tensor4)
  (mode : string) (cache : bool) (trigger_point : option (list Z))
  (eps_wait : Z) (boundary_rightmost : option Z) (rnd : randomness)
  (cv : tensor3) (alpha : tensor4) (beta : option tensor4) :
  underflows sigmoid -> bounded_noise rnd ->
  (mode = "parallel"%string -> 0 < eps self) ->
  is_mask3 (length key) (length (hd [] query)) (length (hd [] key)) m = true ->
  current_mask (monotonic_energy self) m cache ->
  aw_prev_shape (length key) (n_heads_mono self) (length (hd [] key)) aw_prev ->
  fst (forward sigmoid self key value query (Some m) aw_prev mode cache
         trigger_point eps_wait boundary_rightmost rnd) = Ok (cv, alpha, beta) ->
  (padding_mask m \/ mode <> "hard"%string \/ (eps_wait <= 0)%Z ->
   masked_zero m alpha) /\
  (padding_mask m -> forall bt, beta = Some bt -> masked_zero m bt).
Proof.
  intros Hs Hn _ Hm Hcur Haw Hfw.
  unfold forward in Hfw. cbv zeta in Hfw.
  destruct (fst (me_forward (monotonic_energy self) key query (Some m) cache))
    as [e_mono|] eqn:Hme; [|discriminate].
  destruct (me_forward_masked _ _ _ _ _ _ Hcur Hm Hme) as [He Hneg].
  destruct (select_alpha _ _ _ _ _ _ _ _ _ _ _) as [[al alpha_masked]|] eqn:Hsel;
    [|discriminate].
  cbn [fst] in Hfw.
  destruct (fst (chunk_attention self key query (Some m) cache alpha_masked rnd))
    as [beta0|] eqn:Hca; [|discriminate].
  cbn [bind] in Hfw.
  destruct (context_vector self value al beta0) as [cv0|]; [|discriminate].
  cbn [bind] in Hfw.
  destruct (is_tensor4 (length key) (n_heads_mono self) (length (hd [] query))
              (length (hd [] key)) al) eqn:Hal; [|discriminate].
  cbn [assert bind] in Hfw.
  assert (Haw' : is_tensor4 (length key) (n_heads_mono self) 1 (length (hd [] key))
                   match aw_prev with
                   | Some a => a
                   | None => initial_aw_prev (length key) (n_heads_mono self)
                               (length (hd [] key))
                   end = true).
  { destruct aw_prev as [a|]; [exact Haw | apply is_tensor4_initial_aw_prev]. }
  pose proof (fun Hcase =>
                select_alpha_masked sigmoid self mode _ _ _ _ _ _ _ _ _ _ rnd m
                  al alpha_masked Hs Hn Hcase Hm He Hneg Haw' Hsel Hal) as Hmasked.
  destruct beta0 as [b0|].
  - destruct (is_tensor4 _ _ _ _ b0) eqn:Hb0; [|discriminate].
    cbn [assert bind] in Hfw. injection Hfw as _ <- <-.
    split; [intros Hcase; exact (proj1 (Hmasked Hcase))|].
    intros Hpad bt Hbt. injection Hbt as <-.
    destruct (Hmasked (or_introl Hpad)) as [_ [Hzm Hsm]].
    exact (chunk_attention_masked self key query (Some m) cache alpha_masked b0
             rnd m _ _ _ _ _ Hca Hpad Hm Hzm Hsm Hb0).
  - cbn [bind] in Hfw. injection Hfw as _ <- <-.
    split; [intros Hcase; exact (proj1 (Hmasked Hcase))|].
    intros _ bt Hbt. discriminate.
Qed.

(** *** A call with a mask *)

Lemma choose_logistic32 (x : R) :
  choose logistic32 x = if Rle_dec 0 x then 1 else 0.
Proof.
  unfold choose, logistic32.
  destruct (Rle_dec x (- 104)) as [Hx|Hx].
  - destruct (Rle_dec (/ 2) 0); [lra|]. destruct (Rle_dec 0 x); [lra | reflexivity].
  - destruct (Rle_dec (/ 2) (logistic x)) as [Hl|Hl];
      destruct (Rle_dec 0 x) as [H0|H0]; try reflexivity.
    + apply logistic_half in Hl. contradiction.
    + apply logistic_half in H0. contradiction.
Qed.

Lemma NEG_INF_neg : NEG_INF < 0.
Proof.
  pose proof (NEG_INF_underflow 0 (pow_le 2 127 ltac:(lra))). lra.
Qed.

Lemma forward_masked_example :
  exists cv b0 b1,
  fst (forward logistic32 mocha_chunk [[[-1]; [2]; [3]]] [[[1]; [2]; [3]]] [[[1]]]
         (Some [[[true; true; false]]]) None "hard" false None 1 None
         no_randomness)
  = Ok (cv, [[[[0; 1; 0]]]], Some [[[[b0; b1; 0]]]]).
Proof.
  do 3 eexists.
  unfold forward, me_forward, select_alpha, hard_select. cbn.
  unfold dot. cbn.
  rewrite !choose_logistic32.
  pose proof NEG_INF_neg as Hneg.
  repeat match goal with
  | |- context [Rle_dec 0 ?x] => destruct (Rle_dec 0 x); [try lra | try lra]
  end.
  match goal with
  | |- context [latency_batch _ _ _ _ [?r]] =>
      replace r with [0; 1; 0] by rlist
  end.
  unfold latency_batch, latency_head, nonzero_cols. cbn.
  rzero. cbn. rzero. cbn.
  change (Pos.to_nat 1) with 1%nat.
  unfold moving_sum, conv1d, pad. cbn. unfold dot. cbn.
  unfold squeeze1, bmm, matmul. cbn. unfold dot. cbn.
  apply f_equal. apply f_equal2; [reflexivity|]. apply f_equal.
  do 3 (apply (f_equal2 (@cons _)); [|reflexivity]).
  do 2 (apply (f_equal2 (@cons R)); [reflexivity|]).
  apply (f_equal2 (@cons R)); [|reflexivity].
  unfold Rdiv. ring.
Qed.

Lemma underflows_logistic32 : underflows logistic32.
Proof.
  intros x Hx. unfold logistic32. destruct (Rle_dec x (- 104)); [reflexivity | lra].
Qed.

Lemma bounded_noise_none : bounded_noise no_randomness.
Proof. intros b h i j. change (0 <= 2 ^ 127). apply pow_le. lra. Qed.

Lemma padding_mask_example : padding_mask [[[true; true; false]]].
Proof.
  intros b i j k Hk Hinv. unfold invalid in *.
  destruct b as [|[|b]]; destruct i as [|[|i]]; simpl in Hk; try lia.
  destruct j as [|[|[|j]]]; simpl in Hinv; try discriminate.
  - destruct k as [|[|[|k]]]; simpl in *; try lia; reflexivity.
  - destruct j; discriminate.
Qed.

(** In exact arithmetic the sigmoid is nowhere 0: the zeros of the soft
    modes at masked positions are those of float32. *)
Lemma logistic_pos (x : R) : 0 < logistic x.
Proof.
  unfold logistic. apply Rinv_0_lt_compat. pose proof (exp_pos (- x)). lra.
Qed.

Lemma clamp_min_pos (x : R) : 0 < clamp_min (1 / 100000) x.
Proof. unfold clamp_min. pose proof (Rmax_r x (1 / 100000)). lra. Qed.

(** A call in parallel mode on three frames, the last one padding. *)
Lemma forward_padded_example :
  exists cv alpha beta,
    fst (forward logistic32 mocha_chunk [[[-1]; [2]; [3]]] [[[1]; [2]; [3]]] [[[1]]]
           (Some [[[true; true; false]]]) None "parallel" false None 1 None
           no_randomness)
    = Ok (cv, alpha, Some beta).
Proof.
  do 3 eexists.
  unfold forward, me_forward, select_alpha, parallel_mode, parallel_step. cbn.
  change (Pos.to_nat 1) with 1%nat.
  unfold moving_sum, conv1d, pad. cbn.
  unfold context_vector, squeeze1, bmm, matmul. cbn.
  reflexivity.
Qed.

(** The mask is what makes the weight of the last frame zero there: the
    same call without the mask gives it a positive weight. *)
Lemma forward_unmasked_example :
  exists cv alpha beta,
    fst (forward logistic32 mocha_chunk [[[-1]; [2]; [3]]] [[[1]; [2]; [3]]] [[[1]]]
           None None "parallel" false None 1 None no_randomness)
    = Ok (cv, alpha, beta) /\ 0 < get4 alpha 0 0 0 2.
Proof.
  do 3 eexists. split.
  - unfold forward, me_forward, select_alpha, parallel_mode, parallel_step. cbn.
    change (Pos.to_nat 1) with 1%nat.
    unfold moving_sum, conv1d, pad. cbn.
    unfold context_vector, squeeze1, bmm, matmul. cbn.
    reflexivity.
  - unfold get4. cbn [nth].
    apply Rmult_lt_0_compat; [apply Rmult_lt_0_compat|].
    + unfold logistic32. destruct Rle_dec as [H|H]; [lra | apply logistic_pos].
    + apply exp_pos.
    + pose proof (clamp_bounds (/ 1000000) (exp (0 + 0)) ltac:(lra)) as [Hc _].
      apply Rinv_0_lt_compat in Hc. unfold Rdiv. rewrite !Rmult_0_l. lra.
Qed.

Lemma masked_positions_have_zero_weight_witness :
  underflows logistic32 /\ bounded_noise no_randomness /\
  ("parallel"%string = "parallel"%string -> 0 < eps mocha_chunk) /\
  is_mask3 (length [[[-1]; [2]; [3]]]) (length (hd [] [[[1]]]))
    (length (hd [] [[[-1]; [2]; [3]]])) [[[true; true; false]]] = true /\
  current_mask (monotonic_energy mocha_chunk) [[[true; true; false]]] false /\
  aw_prev_shape (length [[[-1]; [2]; [3]]]) (n_heads_mono mocha_chunk)
    (length (hd [] [[[-1]; [2]; [3]]])) None /\
  padding_mask [[[true; true; false]]] /\
  exists cv alpha beta,
    fst (forward logistic32 mocha_chunk [[[-1]; [2]; [3]]] [[[1]; [2]; [3]]]
           [[[1]]] (Some [[[true; true; false]]]) None "parallel" false None 1
           None no_randomness)
    = Ok (cv, alpha, Some beta) /\
    masked_zero [[[true; true; false]]] alpha /\
    masked_zero [[[true; true; false]]] beta.
Proof.
  assert (Hcur : current_mask (monotonic_energy mocha_chunk)
                   [[[true; true; false]]] false) by (left; reflexivity).
  assert (Heps : "parallel"%string = "parallel"%string -> 0 < eps mocha_chunk).
  { intros _. change (0 < / 1000000). lra. }
  split; [exact underflows_logistic32|].
  split; [exact bounded_noise_none|].
  split; [exact Heps|].
  split; [reflexivity|].
  split; [exact Hcur|].
  split; [exact I|].
  split; [exact padding_mask_example|].
  destruct forward_padded_example as [cv [alpha [beta Hfw]]].
  exists cv, alpha, beta. split; [exact Hfw|].
  destruct (masked_positions_have_zero_weight logistic32 mocha_chunk
              [[[-1]; [2]; [3]]] [[[1]; [2]; [3]]] [[[1]]] [[[true; true; false]]]
              None "parallel" false None 1 None no_randomness
              cv alpha (Some beta)
              underflows_logistic32 bounded_noise_none Heps
              eq_refl Hcur I Hfw) as [Ha Hb].
  split; [exact (Ha (or_introl padding_mask_example))|].
  exact (Hb padding_mask_example beta eq_refl).
Defined.

(** *** Masks with a hole *)

(** A mask with a hole is not a padding mask, and the chunkwise attention
    does not keep the hole at zero: [softmax_exp] is clamped from below,
    and the window of the masked frame 1 reaches the boundary at frame 2. *)
Lemma chunk_row_inner_mask :
  exists b0 b1 b2,
    chunk_row 2 1 [0; 0; 1] [0; NEG_INF; 0] = Ok [b0; b1; b2] /\ 0 < b1.
Proof.
  do 3 eexists. split.
  - unfold chunk_row. cbn. change (Pos.to_nat 1) with 1%nat.
    unfold moving_sum, conv1d, pad. cbn. unfold dot. cbn. reflexivity.
  - apply Rmult_lt_0_compat; [apply clamp_min_pos|].
    match goal with
    | |- 0 < 1 * (0 * 1 / ?d1) + (1 * (1 * 1 / ?d2) + 0) =>
        replace (1 * (0 * 1 / d1) + (1 * (1 * 1 / d2) + 0)) with (/ d2)
          by (unfold Rdiv; ring)
    end.
    apply Rinv_0_lt_compat.
    repeat match goal with
    | |- context [clamp_min (1 / 100000) ?x] =>
        lazymatch goal with
        | H : 0 < clamp_min (1 / 100000) x |- _ => fail
        | _ => pose proof (clamp_min_pos x)
        end
    end.
    lra.
Qed.

(** The same in a whole call, in hard mode without latency control: the
    second of three frames is masked, the boundary falls on the third,
    and [beta], over chunks of two frames, gives the masked frame a
    positive weight. *)
Lemma forward_beta_on_masked_frame :
  exists cv alpha beta,
    fst (forward logistic32 mocha_chunk [[[-1]; [1]; [2]]] [[[1]; [2]; [3]]] [[[1]]]
           (Some [[[true; false; true]]]) None "hard" false None (-1) None
           no_randomness)
    = Ok (cv, alpha, Some beta) /\
    invalid [[[true; false; true]]] 0 0 1 /\
    get4 alpha 0 0 0 2 = 1 /\ 0 < get4 beta 0 0 0 1.
Proof.
  do 3 eexists. split; [|split; [reflexivity|split]].
  - unfold forward, me_forward, select_alpha, hard_select. cbn.
    unfold dot. cbn.
    rewrite !choose_logistic32.
    pose proof NEG_INF_neg as Hneg.
    repeat match goal with
    | |- context [Rle_dec 0 ?x] => destruct (Rle_dec 0 x); [try lra | try lra]
    end.
    change (Pos.to_nat 1) with 1%nat.
    unfold moving_sum, conv1d, pad. cbn. unfold dot. cbn.
    unfold squeeze1, bmm, matmul. cbn. unfold dot. cbn.
    reflexivity.
  - unfold get4. cbn [nth]. ring.
  - unfold get4. cbn [nth].
    apply Rmult_lt_0_compat; [apply clamp_min_pos|].
    match goal with
    | |- 0 < 1 * (?n1 / ?d1) + (1 * (?n2 / ?d2) + 0) =>
        replace (1 * (n1 / d1) + (1 * (n2 / d2) + 0)) with (/ d2)
          by (unfold Rdiv; ring)
    end.
    apply Rinv_0_lt_compat.
    repeat match goal with
    | |- context [clamp_min (1 / 100000) ?x] =>
        lazymatch goal with
        | H : 0 < clamp_min (1 / 100000) x |- _ => fail
        | _ => pose proof (clamp_min_pos x)
        end
    end.
    lra.
Qed.

(** And the latency control of the hard mode writes a boundary on a
    masked frame: of two heads the first has its boundary on frame 0 and
    the second on frame 2, so with [eps_wait = 1] the second is moved to
    frame 1, which the mask marks invalid. *)
Lemma forward_latency_on_masked_frame :
  exists cv,
    fst (forward logistic32 mocha_two_heads [[[1; -1]; [1; 1]; [1; 1]]]
           [[[1; 1]; [1; 1]; [1; 1]]] [[[1; 1]]]
           (Some [[[true; false; true]]]) None "hard" false None 1 None
           no_randomness)
    = Ok (cv, [[[[1; 0; 0]]; [[0; 1; 0]]]], None) /\
    invalid [[[true; false; true]]] 0 0 1 /\
    get4 [[[[1; 0; 0]]; [[0; 1; 0]]]] 0 1 0 1 = 1.
Proof.
  eexists. split; [|split; reflexivity].
  unfold forward, me_forward, select_alpha, hard_select. cbn.
  unfold dot. cbn.
  rewrite !choose_logistic32.
  pose proof NEG_INF_neg as Hneg.
  assert (Hs : 0 < / sqrt 2) by (apply Rinv_0_lt_compat, sqrt_lt_R0; lra).
  unfold Rdiv.
  repeat match goal with
  | |- context [Rle_dec 0 ?x] => destruct (Rle_dec 0 x); [try nra | try nra]
  end.
  match goal with
  | |- context [latency_batch _ _ _ _ ?rows] =>
      replace rows with [[1; 0; 0]; [0; 0; 1]]
        by (repeat (apply (f_equal2 (@cons row)); [rlist|]); reflexivity)
  end.
  unfold latency_batch, latency_head, nonzero_cols. cbn.
  rzero. cbn. rzero. cbn.
  unfold context_vector, matmul. cbn. unfold dot. cbn.
  reflexivity.
Qed.

(** C2 as stated fails for a mask with a hole: a masked frame before a
    valid one gets a positive weight in [beta], and with the latency
    control of the hard mode in [alpha]. *)
Lemma masked_frame_gets_weight :
  (exists cv alpha beta,
     fst (forward logistic32 mocha_chunk [[[-1]; [1]; [2]]] [[[1]; [2]; [3]]]
            [[[1]]] (Some [[[true; false; true]]]) None "hard" false None (-1)
            None no_randomness)
     = Ok (cv, alpha, Some beta) /\
     invalid [[[true; false; true]]] 0 0 1 /\
     get4 alpha 0 0 0 2 = 1 /\ 0 < get4 beta 0 0 0 1) /\
  (exists cv,
     fst (forward logistic32 mocha_two_heads [[[1; -1]; [1; 1]; [1; 1]]]
            [[[1; 1]; [1; 1]; [1; 1]]] [[[1; 1]]]
            (Some [[[true; false; true]]]) None "hard" false None 1 None
            no_randomness)
     = Ok (cv, [[[[1; 0; 0]]; [[0; 1; 0]]]], None) /\
     invalid [[[true; false; true]]] 0 0 1 /\
     get4 [[[[1; 0; 0]]; [[0; 1; 0]]]] 0 1 0 1 = 1).
Proof.
  split; [exact forward_beta_on_masked_frame | exact forward_latency_on_masked_frame].
Qed.

(** *** The recursive mode with several query positions *)

(** Whatever [qlen], the recursive mode returns what its first step
    returns: the later steps slice the one-row [q] with the query index
    and add no row. *)
Lemma recursive_mode_first_step (qlen klen : nat) (pm am res : mat) :
  recursive_mode qlen klen pm am = Ok res ->
  recursive_step klen 0 pm am = Ok res.
Proof.
  unfold recursive_mode. intros H.
  destruct qlen as [|n]; [discriminate|].
  cbn [seq for_each fst snd] in H.
  destruct (recursive_step klen 0 pm am) as [r0|] eqn:Hr0; [|discriminate].
  cbn [bind app] in H.
  match type of H with
  | bind ?x _ = _ => destruct x as [st|] eqn:Hloop; [|discriminate]
  end.
  cbn [bind] in H.
  pose proof (recursive_loop_later klen pm n 1 r0 [r0] st (le_n 1) Hloop) as Hcat.
  simpl in Hcat. rewrite app_nil_r in Hcat.
  unfold cat_rows in H. destruct n as [|n].
  - simpl in Hloop. injection Hloop as <-. simpl in H. exact H.
  - cbn [Nat.ltb Nat.leb] in H. injection H as <-. now rewrite Hcat.
Qed.

(** So a call in recursive mode on a non-empty batch returns only for
    one query position: with more, [alpha] has one row per head and the
    assertion on its shape fails. *)
Lemma forward_recursive_one_query (sigmoid : R -> R) (self : MoChA)
  (key value query : tensor3) (mask : option mask3) (aw_prev : option tensor4)
  (cache : bool) (trigger_point : option (list Z)) (eps_wait : Z)
  (boundary_rightmost : option Z) (rnd : randomness)
  (cv : tensor3) (alpha : tensor4) (beta : option tensor4) :
  fst (forward sigmoid self key value query mask aw_prev "recursive" cache
         trigger_point eps_wait boundary_rightmost rnd) = Ok (cv, alpha, beta) ->
  (1 <= length key)%nat -> (1 <= n_heads_mono self)%nat ->
  (length (hd [] query) <= 1)%nat.
Proof.
  intros Hfw Hbs Hh. unfold forward in Hfw. cbv zeta in Hfw.
  destruct (fst (me_forward (monotonic_energy self) key query mask cache))
    as [e_mono|]; [|discriminate].
  destruct (select_alpha _ _ _ _ _ _ _ _ _ _ _) as [[al alpha_masked]|] eqn:Hsel;
    [|discriminate].
  cbn [fst] in Hfw.
  destruct (fst (chunk_attention self key query mask cache alpha_masked rnd))
    as [beta0|]; [|discriminate].
  cbn [bind] in Hfw.
  destruct (context_vector self value al beta0) as [cv0|]; [|discriminate].
  cbn [bind] in Hfw.
  destruct (is_tensor4 (length key) (n_heads_mono self) (length (hd [] query))
              (length (hd [] key)) al) eqn:Hal; [|discriminate].
  clear Hfw. unfold select_alpha in Hsel.
  change (String.eqb "recursive" "recursive") with true in Hsel.
  cbv beta iota zeta in Hsel.
  match type of Hsel with
  | bind ?x _ = _ => destruct x as [al'|] eqn:Hal'; [|discriminate]
  end.
  cbn [bind] in Hsel. injection Hsel as <- _.
  destruct (is_tensor4_inv _ _ _ _ _ Hal) as [Hl4 H3].
  destruct (is_tensor3_inv _ _ _ _ (H3 0%nat ltac:(lia))) as [Hl3 H2].
  destruct (is_mat_inv _ _ _ (H2 0%nat ltac:(lia))) as [Hl2 _].
  assert (Hin4 : In (nth 0 al' []) al') by (apply nth_In; shape_lia).
  destruct (bcastM_In _ _ _ _ _ Hal' Hin4) as [pb [yb [_ [_ Hb]]]].
  assert (Hin3 : In (nth 0 (nth 0 al' []) []) (nth 0 al' []))
    by (apply nth_In; shape_lia).
  destruct (bcastM_In _ _ _ _ _ Hb Hin3) as [pm [am [_ [_ Hr]]]].
  apply recursive_mode_first_step in Hr.
  destruct (recursive_step_rows _ _ _ _ _ Hr) as [Hle _].
  shape_lia.
Qed.

(* ================================================================== *)
(** * Further properties *)

(** ** Exclusive cumulative sums and products *)

Lemma nth_cumsum_from (l : row) (acc : R) (j : nat) :
  (j < length l)%nat ->
  nth j (cumsum_from acc l) 0 = acc + sum_list (firstn (S j) l).
Proof.
  revert acc j. induction l as [|x l IH]; intros acc j Hj; [simpl in Hj; lia|].
  destruct j as [|j].
  - simpl. destruct l; simpl; lra.
  - cbn [cumsum_from nth]. rewrite IH by (simpl in Hj; lia).
    change (firstn (S (S j)) (x :: l)) with (x :: firstn (S j) l).
    change (sum_list (x :: firstn (S j) l)) with (x + sum_list (firstn (S j) l)).
    lra.
Qed.

Lemma nth_cumprod_from (l : row) (acc : R) (j : nat) :
  (j < length l)%nat ->
  nth j (cumprod_from acc l) 0 = acc * prod_list (firstn (S j) l).
Proof.
  revert acc j. induction l as [|x l IH]; intros acc j Hj; [simpl in Hj; lia|].
  destruct j as [|j].
  - simpl. destruct l; simpl; lra.
  - cbn [cumprod_from nth]. rewrite IH by (simpl in Hj; lia).
    change (firstn (S (S j)) (x :: l)) with (x :: firstn (S j) l).
    change (prod_list (x :: firstn (S j) l)) with (x * prod_list (firstn (S j) l)).
    lra.
Qed.

Lemma firstn_removelast {A : Type} (j : nat) (l : list A) :
  (j < length l)%nat -> firstn j (removelast l) = firstn j l.
Proof.
  intros Hj. rewrite removelast_firstn_len, firstn_firstn. f_equal. lia.
Qed.

Lemma length_removelast_cons {A : Type} (a : A) (l : list A) :
  length (a :: removelast l) = Nat.max 1 (length l).
Proof.
  cbn [length]. rewrite removelast_firstn_len, length_firstn. lia.
Qed.

(** X1.  [exclusive_cumsum] ([a, b, c] => [0, a, a + b]): entry [j] is the
    sum of the entries before [j].  The row keeps its length, except that
    an empty row gives the one entry of the zero that is prepended. *)
Theorem exclusive_cumsum_prefix_sums (x : row) :
  length (exclusive_cumsum x) = Nat.max 1 (length x) /\
  forall j, (j < length x)%nat ->
    nth j (exclusive_cumsum x) 0 = sum_list (firstn j x).
Proof.
  unfold exclusive_cumsum, cumsum. split.
  - rewrite length_cumsum_from. apply length_removelast_cons.
  - intros j Hj. rewrite nth_cumsum_from by (rewrite length_removelast_cons; lia).
    change (firstn (S j) (0 :: removelast x)) with (0 :: firstn j (removelast x)).
    rewrite firstn_removelast by exact Hj.
    change (sum_list (0 :: firstn j x)) with (0 + sum_list (firstn j x)). lra.
Qed.

(** X2.  [exclusive_cumprod] ([a, b, c] => [1, a, a * b]): entry [j] is
    the product of the entries before [j]; the length is kept, an empty
    row giving the one entry 1. *)
Theorem exclusive_cumprod_prefix_products (x : row) :
  length (exclusive_cumprod x) = Nat.max 1 (length x) /\
  exclusive_cumprod [] = [1] /\
  forall j, (j < length x)%nat ->
    nth j (exclusive_cumprod x) 0 = prod_list (firstn j x).
Proof.
  unfold exclusive_cumprod, cumprod. split; [|split].
  - rewrite length_cumprod_from. apply length_removelast_cons.
  - simpl. f_equal. lra.
  - intros j Hj. rewrite nth_cumprod_from by (rewrite length_removelast_cons; lia).
    change (firstn (S j) (1 :: removelast x)) with (1 :: firstn j (removelast x)).
    rewrite firstn_removelast by exact Hj.
    change (prod_list (1 :: firstn j x)) with (1 * prod_list (firstn j x)). lra.
Qed.

(** ** The safe cumulative product *)

(** X3.  With [eps > 0], entry [j] of [safe_cumprod] is the product of
    the entries before [j], each clamped to [[eps, 1]]: the detour through
    the logarithm changes nothing.  On a row that lies in [[eps, 1]]
    already it is the exclusive cumulative product itself. *)
Theorem safe_cumprod_is_clamped_product (x : row) (eps : R) :
  0 < eps ->
  (forall j, (j < length x)%nat ->
     nth j (safe_cumprod x eps) 0 = prod_list (firstn j (map (clamp eps 1) x))) /\
  (Forall (fun v => eps <= v <= 1) x -> safe_cumprod x eps = exclusive_cumprod x).
Proof.
  intros He. split.
  - intros j Hj. rewrite safe_cumprod_exclusive by exact He.
    unfold exclusive_cumprod, cumprod.
    rewrite nth_cumprod_from
      by (rewrite length_removelast_cons, length_map; lia).
    change (firstn (S j) (1 :: removelast (map (clamp eps 1) x)))
      with (1 :: firstn j (removelast (map (clamp eps 1) x))).
    rewrite firstn_removelast by (rewrite length_map; exact Hj).
    change (prod_list (1 :: firstn j (map (clamp eps 1) x)))
      with (1 * prod_list (firstn j (map (clamp eps 1) x))).
    lra.
  - intros Hx. rewrite safe_cumprod_exclusive by exact He.
    now rewrite map_clamp_id.
Qed.

Lemma safe_cumprod_is_clamped_product_witness :
  0 < / 2 /\
  (forall j, (j < 3)%nat ->
     nth j (safe_cumprod [1; / 4; 1] (/ 2)) 0
     = prod_list (firstn j (map (clamp (/ 2) 1) [1; / 4; 1]))) /\
  (Forall (fun v => / 2 <= v <= 1) [1; / 4; 1] ->
   safe_cumprod [1; / 4; 1] (/ 2) = exclusive_cumprod [1; / 4; 1]).
Proof.
  assert (H : 0 < / 2) by lra.
  split; [exact H|].
  exact (safe_cumprod_is_clamped_product [1; / 4; 1] (/ 2) H).
Defined.

(** ** Finite sums *)

Lemma isum_S (n : nat) (f : nat -> R) :
  isum (S n) f = f 0%nat + isum n (fun k => f (S k)).
Proof.
  unfold isum. cbn [seq map]. rewrite <- seq_shift, map_map. reflexivity.
Qed.

Lemma isum_last (n : nat) (f : nat -> R) : isum (S n) f = isum n f + f n.
Proof.
  unfold isum. rewrite seq_S, map_app, sum_list_app. simpl. lra.
Qed.

Lemma isum_ext (n : nat) (f g : nat -> R) :
  (forall k, (k < n)%nat -> f k = g k) -> isum n f = isum n g.
Proof.
  intros H. unfold isum. f_equal. apply map_ext_in. intros k Hk.
  apply in_seq in Hk. apply H. lia.
Qed.

Lemma isum_zero (n : nat) : isum n (fun _ => 0) = 0.
Proof. induction n as [|n IH]; [reflexivity | rewrite isum_last, IH; lra]. Qed.

Lemma isum_plus (n : nat) (f g : nat -> R) :
  isum n (fun k => f k + g k) = isum n f + isum n g.
Proof.
  induction n as [|n IH]; [unfold isum; simpl; lra|].
  rewrite !isum_last, IH. lra.
Qed.

Lemma isum_scale (n : nat) (c : R) (f : nat -> R) :
  isum n (fun k => c * f k) = c * isum n f.
Proof.
  induction n as [|n IH]; [unfold isum; simpl; lra|].
  rewrite !isum_last, IH. lra.
Qed.

Lemma isum_swap (m n : nat) (F : nat -> nat -> R) :
  isum m (fun j => isum n (fun k => F j k))
  = isum n (fun k => isum m (fun j => F j k)).
Proof.
  induction m as [|m IH].
  - unfold isum at 1. simpl. symmetry. apply isum_zero.
  - rewrite isum_last, IH, <- isum_plus. apply isum_ext. intros k _.
    now rewrite isum_last.
Qed.

Lemma isum_nonneg (n : nat) (f : nat -> R) :
  (forall k, (k < n)%nat -> 0 <= f k) -> 0 <= isum n f.
Proof.
  induction n as [|n IH]; intros H; [unfold isum; simpl; lra|].
  rewrite isum_last. pose proof (H n ltac:(lia)).
  assert (0 <= isum n f) by (apply IH; intros k Hk; apply H; lia). lra.
Qed.

Lemma isum_pos (n : nat) (f : nat -> R) (k : nat) :
  (forall j, (j < n)%nat -> 0 <= f j) -> (k < n)%nat -> 0 < f k -> 0 < isum n f.
Proof.
  induction n as [|n IH]; intros H Hk Hf; [lia|].
  rewrite isum_last.
  assert (Hn : 0 <= isum n f) by (apply isum_nonneg; intros j Hj; apply H; lia).
  pose proof (H n ltac:(lia)) as Hfn.
  destruct (Nat.eq_dec k n) as [->|Hne]; [lra|].
  assert (0 < isum n f) by (apply IH; [intros j Hj; apply H; lia | lia | exact Hf]).
  lra.
Qed.

Lemma sum_list_isum (r : row) : sum_list r = isum (length r) (fun k => nth k r 0).
Proof. unfold isum. now rewrite <- (map_nth_seq r). Qed.

(** The sum of a window of a row, as a sum over the whole row. *)
Lemma window_indicator (x : row) (a len : nat) :
  sum_list (firstn len (skipn a x))
  = isum (length x)
      (fun k => if (a <=? k)%nat && (k <? a + len)%nat then nth k x 0 else 0).
Proof.
  revert a len. induction x as [|v x IH]; intros a len.
  - rewrite skipn_nil, firstn_nil. reflexivity.
  - cbn [length]. rewrite isum_S. destruct a as [|a].
    + cbn [skipn]. destruct len as [|len].
      * cbn [firstn]. rewrite (isum_ext _ _ (fun _ => 0)).
        -- rewrite isum_zero. simpl. lra.
        -- intros k _. reflexivity.
      * cbn [firstn]. change (sum_list (v :: firstn len x))
          with (v + sum_list (firstn len x)).
        pose proof (IH 0%nat len) as H0. cbn [skipn] in H0. rewrite H0.
        cbn [Nat.leb andb Nat.ltb nth Nat.add].
        f_equal.
    + cbn [skipn]. rewrite (IH a len). cbn [Nat.leb andb nth].
      rewrite Rplus_0_l. apply isum_ext. intros k _. reflexivity.
Qed.

(** ** The moving sum, entry by entry *)

Lemma moving_sum_nth (x ms : row) (back forward : nat) :
  moving_sum x back forward = Ok ms ->
  length ms = length x /\
  forall j, (j < length x)%nat ->
    nth j ms 0
    = isum (length x)
        (fun k => if (j <=? k + back)%nat && (k <=? j + forward)%nat
                  then nth k x 0 else 0).
Proof.
  unfold moving_sum, conv1d. cbv zeta.
  assert (Hp : length (pad x back forward) = (back + length x + forward)%nat).
  { unfold pad. rewrite !length_app, !repeat_length. lia. }
  rewrite Hp, repeat_length.
  destruct (Nat.ltb_spec (back + length x + forward) (back + forward + 1))
    as [Hlt|Hge]; [discriminate|].
  intros H. injection H as <-.
  replace (back + length x + forward - (back + forward + 1) + 1)%nat
    with (length x) by lia.
  split; [now rewrite length_map, length_seq|].
  intros j Hj.
  rewrite (nth_map_in_range _ (seq 0 (length x)) j 0%nat)
    by (now rewrite length_seq).
  rewrite seq_nth by exact Hj. cbn [Nat.add].
  rewrite dot_ones by (rewrite length_firstn; lia).
  rewrite window_of_padded by exact Hj.
  rewrite window_indicator. apply isum_ext. intros k Hk.
  replace ((j - back <=? k)%nat && (k <? j - back + (j + forward + 1 - (j - back)))%nat)
    with ((j <=? k + back)%nat && (k <=? j + forward)%nat); [reflexivity|].
  destruct (Nat.leb_spec j (k + back)), (Nat.leb_spec k (j + forward)),
    (Nat.leb_spec (j - back) k),
    (Nat.ltb_spec k (j - back + (j + forward + 1 - (j - back))));
    simpl; try reflexivity; lia.
Qed.

Lemma moving_sum_ok (x : row) (back forward : nat) :
  x <> [] -> exists ms, moving_sum x back forward = Ok ms.
Proof.
  intros Hx. unfold moving_sum, conv1d. cbv zeta.
  assert (Hp : length (pad x back forward) = (back + length x + forward)%nat).
  { unfold pad. rewrite !length_app, !repeat_length. lia. }
  rewrite Hp, repeat_length.
  destruct (Nat.ltb_spec (back + length x + forward) (back + forward + 1))
    as [Hlt|Hge].
  - destruct x; [congruence | simpl in Hlt; lia].
  - eexists. reflexivity.
Qed.

(** X4.  [moving_sum] on one row: the empty row is refused (the filter of
    [back + forward + 1] ones is longer than the padded row), and every
    other row gives a row of the same length whose entry [j] is the sum of
    the entries [k] with [j - back <= k <= j + forward]. *)
Theorem moving_sum_rows (x : row) (back forward : nat) :
  (x = [] -> moving_sum x back forward = Err RuntimeError) /\
  (x <> [] ->
   exists ms, moving_sum x back forward = Ok ms /\ length ms = length x /\
     forall j, (j < length x)%nat ->
       nth j ms 0
       = isum (length x)
           (fun k => if (j <=? k + back)%nat && (k <=? j + forward)%nat
                     then nth k x 0 else 0)).
Proof.
  split.
  - intros ->. unfold moving_sum, conv1d, pad. cbv zeta.
    rewrite !length_app, !repeat_length. cbn [length app].
    destruct (Nat.ltb_spec (back + (0 + forward)) (back + forward + 1));
      [reflexivity | lia].
  - intros Hx. destruct (moving_sum_ok x back forward Hx) as [ms Hms].
    exists ms. split; [exact Hms|]. exact (moving_sum_nth x ms back forward Hms).
Qed.

(** ** Chunkwise attention on one row *)

Lemma length_softmax_exp (e : row) : length (softmax_exp e) = length e.
Proof. unfold softmax_exp. now rewrite !length_map. Qed.

Lemma softmax_exp_pos (e : row) (j : nat) :
  (j < length e)%nat -> 0 < nth j (softmax_exp e) 0.
Proof.
  intros Hj. unfold softmax_exp.
  rewrite (nth_map_in_range _ _ j 0) by (rewrite length_map; exact Hj).
  apply clamp_min_pos.
Qed.

Lemma nth_cumsum (s : row) (k : nat) :
  (k < length s)%nat ->
  nth k (cumsum s) 0
  = isum (length s) (fun j => if (j <=? k)%nat then nth j s 0 else 0).
Proof.
  intros Hk. unfold cumsum. rewrite nth_cumsum_from by exact Hk.
  pose proof (window_indicator s 0 (S k)) as H. cbn [skipn] in H.
  rewrite H, Rplus_0_l. apply isum_ext. intros j _.
  cbn [Nat.leb andb Nat.add]. reflexivity.
Qed.

(** The entries of a row of beta. *)
Lemma chunk_row_entries (chunk_size : Z) (sharpening_factor : R)
  (a e br : row) :
  length e = length a ->
  chunk_row chunk_size sharpening_factor a e = Ok br ->
  length br = length a /\
  forall j, (j < length a)%nat ->
    nth j br 0
    = nth j (softmax_exp e) 0 *
      isum (length a)
        (fun k => if in_chunk chunk_size j k
                  then nth k a 0 * sharpening_factor / chunk_denominator chunk_size e k
                  else 0).
Proof.
  intros Hlen. unfold chunk_row. cbv zeta.
  change (map (fun x => clamp_min (1 / 100000) (exp x))
            (map (fun x => x - row_max e) e)) with (softmax_exp e).
  set (s := softmax_exp e).
  assert (Hls : length s = length a) by (unfold s; now rewrite length_softmax_exp).
  assert (Hfinish : forall (den ms : row) (w : nat),
    length den = length a ->
    (forall k, (k < length a)%nat -> nth k den 0 = chunk_denominator chunk_size e k) ->
    (forall j k, (j < length a)%nat -> (k < length a)%nat ->
       (j <=? k + 0)%nat && (k <=? j + w)%nat = in_chunk chunk_size j k) ->
    moving_sum (zip_with Rdiv (map (fun a0 => a0 * sharpening_factor) a) den) 0 w
    = Ok ms ->
    length (zip_with Rmult s ms) = length a /\
    forall j, (j < length a)%nat ->
      nth j (zip_with Rmult s ms) 0
      = nth j s 0 *
        isum (length a)
          (fun k => if in_chunk chunk_size j k
                    then nth k a 0 * sharpening_factor / chunk_denominator chunk_size e k
                    else 0)).
  { intros den ms w Hlden Hden Hwin Hms.
    destruct (moving_sum_nth _ _ _ _ Hms) as [Hlms Hnth].
    assert (Hlx : length (zip_with Rdiv (map (fun a0 => a0 * sharpening_factor) a) den)
                  = length a)
      by (rewrite length_zip_with, length_map; lia).
    rewrite Hlx in *.
    split; [rewrite length_zip_with; lia|].
    intros j Hj.
    rewrite (nth_zip_with Rmult s ms j 0 0) by lia.
    f_equal. rewrite (Hnth j Hj). apply isum_ext. intros k Hk.
    rewrite (Hwin j k Hj Hk). destruct (in_chunk chunk_size j k); [|reflexivity].
    rewrite (nth_zip_with Rdiv _ den k 0 0) by (rewrite ?length_map; lia).
    rewrite (nth_map_in_range _ a k 0) by exact Hk.
    now rewrite (Hden k Hk). }
  destruct (chunk_size =? -1)%Z eqn:Hmilk.
  - intros H.
    match type of H with
    | bind ?x _ = _ => destruct x as [ms|] eqn:Hms; [|discriminate]
    end.
    cbn [bind] in H. injection H as <-.
    apply (Hfinish (cumsum s) ms (length a - 1)%nat).
    + unfold cumsum. now rewrite length_cumsum_from.
    + intros k Hk. rewrite nth_cumsum by lia. unfold chunk_denominator.
      fold s. rewrite Hls, Hlen. apply isum_ext. intros j _.
      unfold in_chunk. rewrite Hmilk. cbn [orb]. now rewrite andb_true_r.
    + intros j k Hj Hk. unfold in_chunk. rewrite Hmilk. cbn [orb].
      rewrite Nat.add_0_r. f_equal. apply Nat.leb_le. lia.
    + exact Hms.
  - intros H.
    match type of H with
    | bind ?x _ = _ => destruct x as [den|] eqn:Hden; [|discriminate]
    end.
    cbn [bind] in H.
    match type of H with
    | bind ?x _ = _ => destruct x as [ms|] eqn:Hms; [|discriminate]
    end.
    cbn [bind] in H. injection H as <-.
    destruct (moving_sum_nth _ _ _ _ Hden) as [Hlden Hdnth].
    apply (Hfinish den ms (Z.to_nat (chunk_size - 1))).
    + lia.
    + intros k Hk. rewrite Hdnth by lia. unfold chunk_denominator. fold s.
      rewrite Hls, Hlen. apply isum_ext. intros j _.
      unfold in_chunk. rewrite Hmilk. cbn [orb]. rewrite Nat.add_0_r.
      now rewrite andb_comm.
    + intros j k Hj Hk. unfold in_chunk. rewrite Hmilk. cbn [orb].
      now rewrite Nat.add_0_r.
    + exact Hms.
Qed.

Lemma in_chunk_refl (chunk_size : Z) (k : nat) : in_chunk chunk_size k k = true.
Proof.
  unfold in_chunk. rewrite Nat.leb_refl. cbn [andb].
  apply orb_true_iff. right. apply Nat.leb_le. lia.
Qed.

Lemma chunk_denominator_pos (chunk_size : Z) (e : row) (k : nat) :
  (k < length e)%nat -> 0 < chunk_denominator chunk_size e k.
Proof.
  intros Hk. unfold chunk_denominator. apply (isum_pos _ _ k).
  - intros j Hj. destruct (in_chunk chunk_size j k); [|lra].
    apply Rlt_le, softmax_exp_pos, Hj.
  - exact Hk.
  - rewrite in_chunk_refl. apply softmax_exp_pos, Hk.
Qed.

(** X5.  One row of [efficient_chunkwise_attention], with a window
    ([chunk_size >= 1]) or with infinite lookback ([chunk_size = -1]):
    the weight [alpha[k]] of a boundary is spread over the frames of its
    chunk, in proportion to [softmax_exp].  Nothing is lost at the left
    edge of the row: the entries of beta sum to [sharpening_factor] times
    the sum of alpha, and beta is nonnegative when alpha and the factor
    are. *)
Theorem chunk_row_keeps_mass (chunk_size : Z) (sharpening_factor : R)
  (alpha e beta : row) :
  (chunk_size = -1 \/ 1 <= chunk_size)%Z -> length e = length alpha ->
  chunk_row chunk_size sharpening_factor alpha e = Ok beta ->
  sum_list beta = sharpening_factor * sum_list alpha /\
  (0 <= sharpening_factor -> Forall (fun a => 0 <= a) alpha ->
   Forall (fun b => 0 <= b) beta).
Proof.
  intros _ Hlen H.
  destruct (chunk_row_entries _ _ _ _ _ Hlen H) as [Hlb Hnth].
  set (n := length alpha) in *.
  set (s := softmax_exp e) in *.
  set (D := chunk_denominator chunk_size e) in *.
  split.
  - rewrite (sum_list_isum beta), Hlb.
    rewrite (isum_ext n _ (fun j => isum n (fun k =>
               if in_chunk chunk_size j k
               then nth j s 0 * (nth k alpha 0 * sharpening_factor / D k)
               else 0))).
    2:{ intros j Hj. rewrite (Hnth j Hj), <- isum_scale. apply isum_ext.
        intros k _. destruct (in_chunk chunk_size j k); lra. }
    rewrite isum_swap.
    rewrite (isum_ext n _ (fun k => sharpening_factor * nth k alpha 0)).
    2:{ intros k Hk.
        rewrite (isum_ext n _ (fun j =>
                   (nth k alpha 0 * sharpening_factor / D k) *
                   (if in_chunk chunk_size j k then nth j s 0 else 0))).
        2:{ intros j _. destruct (in_chunk chunk_size j k); lra. }
        rewrite isum_scale.
        assert (HD : isum n (fun j => if in_chunk chunk_size j k
                                      then nth j s 0 else 0) = D k).
        { unfold D, chunk_denominator. now rewrite Hlen. }
        rewrite HD.
        pose proof (chunk_denominator_pos chunk_size e k ltac:(lia)) as Hpos.
        fold D in Hpos. field. lra. }
    rewrite isum_scale. f_equal. symmetry. apply sum_list_isum.
  - intros Hsf Ha. apply Forall_forall. intros b Hb.
    destruct (In_nth _ _ 0 Hb) as [j [Hj <-]]. rewrite Hlb in Hj.
    rewrite (Hnth j Hj). apply Rmult_le_pos.
    + apply Rlt_le, softmax_exp_pos. lia.
    + apply isum_nonneg. intros k Hk.
      destruct (in_chunk chunk_size j k); [|lra].
      pose proof (chunk_denominator_pos chunk_size e k ltac:(lia)) as Hpos.
      fold D in Hpos.
      rewrite Forall_forall in Ha.
      pose proof (Ha (nth k alpha 0) (nth_In _ _ Hk)) as Hk0.
      apply Rmult_le_pos; [apply Rmult_le_pos; lra|].
      apply Rlt_le, Rinv_0_lt_compat, Hpos.
Qed.

(** X6.  A frame gets chunk weight only from a boundary of whose chunk it
    is: entry [j] of beta is zero when alpha is zero on the frames
    [j .. j + chunk_size - 1] (on [j] and all later frames with infinite
    lookback). *)
Theorem chunk_row_is_local (chunk_size : Z) (sharpening_factor : R)
  (alpha e beta : row) (j : nat) :
  (chunk_size = -1 \/ 1 <= chunk_size)%Z -> length e = length alpha ->
  chunk_row chunk_size sharpening_factor alpha e = Ok beta ->
  (forall k, in_chunk chunk_size j k = true -> nth k alpha 0 = 0) ->
  nth j beta 0 = 0.
Proof.
  intros _ Hlen H Hz.
  destruct (chunk_row_entries _ _ _ _ _ Hlen H) as [Hlb Hnth].
  destruct (Nat.lt_ge_cases j (length alpha)) as [Hj|Hj].
  - rewrite (Hnth j Hj).
    rewrite (isum_ext _ _ (fun _ => 0)).
    + rewrite isum_zero. lra.
    + intros k _. destruct (in_chunk chunk_size j k) eqn:Hin; [|reflexivity].
      rewrite (Hz k Hin). unfold Rdiv. ring.
  - apply nth_overflow. lia.
Qed.

Lemma chunk_row_example :
  exists beta, chunk_row 2 1 [0; 1; 0] [0; 1; 0] = Ok beta.
Proof.
  eexists. unfold chunk_row. cbn. change (Pos.to_nat 1) with 1%nat.
  unfold moving_sum, conv1d, pad. cbn. reflexivity.
Qed.

Lemma chunk_row_keeps_mass_witness :
  (2 = -1 \/ 1 <= 2)%Z /\ length [0; 1; 0] = length [0; 1; 0] /\
  exists beta,
    chunk_row 2 1 [0; 1; 0] [0; 1; 0] = Ok beta /\
    sum_list beta = 1 * sum_list [0; 1; 0] /\
    (0 <= 1 -> Forall (fun a => 0 <= a) [0; 1; 0] -> Forall (fun b => 0 <= b) beta).
Proof.
  assert (Hcs : (2 = -1 \/ 1 <= 2)%Z) by (right; lia).
  split; [exact Hcs|]. split; [reflexivity|].
  destruct chunk_row_example as [beta Hb].
  exists beta. split; [exact Hb|].
  exact (chunk_row_keeps_mass 2 1 [0; 1; 0] [0; 1; 0] beta Hcs eq_refl Hb).
Defined.

Lemma chunk_row_is_local_witness :
  (2 = -1 \/ 1 <= 2)%Z /\ length [0; 1; 0] = length [0; 1; 0] /\
  (forall k, in_chunk 2 2 k = true -> nth k [0; 1; 0] 0 = 0) /\
  exists beta,
    chunk_row 2 1 [0; 1; 0] [0; 1; 0] = Ok beta /\ nth 2 beta 0 = 0.
Proof.
  assert (Hcs : (2 = -1 \/ 1 <= 2)%Z) by (right; lia).
  assert (Hz : forall k, in_chunk 2 2 k = true -> nth k [0; 1; 0] 0 = 0).
  { intros k Hk. destruct k as [|[|[|[|k]]]]; try discriminate Hk; reflexivity. }
  split; [exact Hcs|]. split; [reflexivity|]. split; [exact Hz|].
  destruct chunk_row_example as [beta Hb].
  exists beta. split; [exact Hb|].
  exact (chunk_row_is_local 2 1 [0; 1; 0] [0; 1; 0] beta 2 Hcs eq_refl Hb Hz).
Defined.

(** ** Chunkwise attention on the whole tensor *)

Lemma is_mat_intro (q k : nat) (m : mat) :
  length m = q -> (forall i, (i < q)%nat -> length (nth i m []) = k) ->
  is_mat q k m = true.
Proof.
  intros Hl Hr. unfold is_mat. rewrite Hl, Nat.eqb_refl. cbn [andb].
  apply forallb_forall. intros r Hin.
  destruct (In_nth _ _ [] Hin) as [i [Hi <-]].
  apply Nat.eqb_eq, Hr. shape_lia.
Qed.

Lemma is_tensor3_intro (h q k : nat) (t : tensor3) :
  length t = h -> (forall n, (n < h)%nat -> is_mat q k (nth n t []) = true) ->
  is_tensor3 h q k t = true.
Proof.
  intros Hl Hr. unfold is_tensor3. rewrite Hl, Nat.eqb_refl. cbn [andb].
  apply forallb_forall. intros r Hin.
  destruct (In_nth _ _ [] Hin) as [i [Hi <-]]. apply Hr. shape_lia.
Qed.

Lemma is_tensor4_intro (b h q k : nat) (t : tensor4) :
  length t = b -> (forall n, (n < b)%nat -> is_tensor3 h q k (nth n t []) = true) ->
  is_tensor4 b h q k t = true.
Proof.
  intros Hl Hr. unfold is_tensor4. rewrite Hl, Nat.eqb_refl. cbn [andb].
  apply forallb_forall. intros r Hin.
  destruct (In_nth _ _ [] Hin) as [i [Hi <-]]. apply Hr. shape_lia.
Qed.

Lemma length_concat_uniform {A : Type} (ls : list (list A)) (c : nat) :
  (forall l, In l ls -> length l = c) -> length (concat ls) = (length ls * c)%nat.
Proof.
  induction ls as [|l ls IH]; intros H; [reflexivity|].
  cbn [concat length]. rewrite length_app.
  rewrite IH by (intros l' Hl'; apply H; right; exact Hl').
  rewrite (H l) by (left; reflexivity). lia.
Qed.

Lemma nth_concat_uniform {A : Type} (ls : list (list A)) (c m n : nat) (d : A) :
  (forall l, In l ls -> length l = c) -> (n < c)%nat ->
  nth (m * c + n) (concat ls) d = nth n (nth m ls []) d.
Proof.
  revert m. induction ls as [|l ls IH]; intros m H Hn.
  - replace (nth m (@nil (list A)) []) with (@nil A) by (destruct m; reflexivity).
    cbn [concat]. rewrite !nth_overflow by (simpl; lia). reflexivity.
  - cbn [concat]. pose proof (H l ltac:(simpl; auto)) as Hl. destruct m as [|m].
    + cbn [Nat.mul Nat.add nth]. apply app_nth1. lia.
    + rewrite app_nth2 by (rewrite Hl; simpl; lia).
      cbn [nth].
      rewrite <- (IH m) by (try (intros l' Hl'; apply H; right; exact Hl'); exact Hn).
      f_equal. rewrite Hl. simpl. lia.
Qed.

(** Broadcasting between lists of the same length pairs them index by
    index. *)
Lemma bcastM_zip {A B C : Type} (f : A -> B -> result C) (xs : list A)
  (ys : list B) (zs : list C) :
  bcastM f xs ys = Ok zs -> length xs = length ys ->
  mapM (fun c => c) (zip_with f xs ys) = Ok zs.
Proof.
  unfold bcastM, bcast. intros H Hlen.
  destruct xs as [|x [|x' xs]].
  - destruct ys; [exact H | discriminate].
  - destruct ys as [|y [|y' ys]]; try discriminate. exact H.
  - destruct ys as [|y [|y' ys]]; try discriminate.
    rewrite Hlen, Nat.eqb_refl in H. exact H.
Qed.

Lemma bcastM_length_aligned {A B C : Type} (f : A -> B -> result C)
  (xs : list A) (ys : list B) (zs : list C) :
  bcastM f xs ys = Ok zs -> length xs = length ys -> length zs = length xs.
Proof.
  intros H Hlen. pose proof (mapM_length _ _ _ (bcastM_zip f xs ys zs H Hlen)) as Hl.
  rewrite length_zip_with in Hl. lia.
Qed.

Lemma bcastM_nth_aligned {A B C : Type} (f : A -> B -> result C) (xs : list A)
  (ys : list B) (zs : list C) (n : nat) (dx : A) (dy : B) (dz : C) :
  bcastM f xs ys = Ok zs -> length xs = length ys -> (n < length xs)%nat ->
  length zs = length xs /\ f (nth n xs dx) (nth n ys dy) = Ok (nth n zs dz).
Proof.
  intros H Hlen Hn.
  pose proof (bcastM_length_aligned f xs ys zs H Hlen) as Hlz.
  split; [exact Hlz|].
  apply (mapM_id_zip_nth f xs ys zs n dx dy dz (bcastM_zip f xs ys zs H Hlen)). lia.
Qed.

(** X7.  [efficient_chunkwise_attention] on an [alpha] of shape
    [[B, H_mono, qlen, klen]] and an [e] of shape [[B, H_chunk, qlen, klen]]
    (with [n_heads = H_chunk]): what it returns has the shape
    [[B, H_mono * H_chunk, qlen, klen]], the heads laid out with the
    monotonic head as the major index: head [hm * H_chunk + hc] is the
    chunkwise attention of the monotonic head [hm] under the energies of
    the chunk head [hc]. *)
Theorem efficient_chunkwise_attention_heads (alpha e beta : tensor4)
  (mask : option mask3) (chunk_size : Z) (n_heads : nat) (sharpening_factor : R)
  (B Hm Hc Q K : nat) :
  (chunk_size = -1 \/ 1 <= chunk_size)%Z -> n_heads = Hc ->
  is_tensor4 B Hm Q K alpha = true -> is_tensor4 B Hc Q K e = true ->
  efficient_chunkwise_attention alpha e mask chunk_size n_heads
    sharpening_factor None = Ok beta ->
  is_tensor4 B (Hm * Hc) Q K beta = true /\
  forall b hm hc i, (b < B)%nat -> (hm < Hm)%nat -> (hc < Hc)%nat -> (i < Q)%nat ->
    chunk_row chunk_size sharpening_factor
      (nth i (nth hm (nth b alpha []) []) [])
      (nth i (nth hc (nth b e []) []) [])
    = Ok (nth i (nth (hm * Hc + hc) (nth b beta []) []) []).
Proof.
  intros _ _ Ha He H. unfold efficient_chunkwise_attention in H.
  destruct (is_tensor4_inv _ _ _ _ _ Ha) as [Hla Ha3].
  destruct (is_tensor4_inv _ _ _ _ _ He) as [Hle He3].
  assert (Hbatch : forall b, (b < B)%nat ->
    exists hs,
      mapM (fun am => mapM (fun em =>
              bcastM (chunk_row chunk_size sharpening_factor) am em) (nth b e []))
        (nth b alpha []) = Ok hs /\
      nth b beta [] = concat hs).
  { intros b Hb.
    destruct (bcastM_nth_aligned _ _ _ _ b [] [] [] H) as [_ Hbth];
      [shape_lia | shape_lia |].
    cbv beta in Hbth.
    match type of Hbth with
    | bind ?x _ = _ => destruct x as [hs|] eqn:Hhs; [|discriminate]
    end.
    cbn [bind] in Hbth. injection Hbth as Hbth.
    exists hs. split; [exact Hhs | now symmetry]. }
  assert (Hhead : forall b hm hc, (b < B)%nat -> (hm < Hm)%nat -> (hc < Hc)%nat ->
    exists hs,
      nth b beta [] = concat hs /\ length hs = Hm /\
      (forall l, In l hs -> length l = Hc) /\
      bcastM (chunk_row chunk_size sharpening_factor)
        (nth hm (nth b alpha []) []) (nth hc (nth b e []) [])
      = Ok (nth hc (nth hm hs []) [])).
  { intros b hm hc Hb Hhm Hhc.
    destruct (Hbatch b Hb) as [hs [Hhs Hcat]].
    destruct (is_tensor3_inv _ _ _ _ (Ha3 b Hb)) as [Hlab _].
    destruct (is_tensor3_inv _ _ _ _ (He3 b Hb)) as [Hleb _].
    exists hs. split; [exact Hcat|].
    split; [etransitivity; [exact (mapM_length _ _ _ Hhs) | exact Hlab]|].
    split.
    - intros l Hl. destruct (mapM_In _ _ _ _ Hhs Hl) as [am [_ Hrow]].
      etransitivity; [exact (mapM_length _ _ _ Hrow) | exact Hleb].
    - pose proof (mapM_nth _ _ _ hm [] [] Hhs ltac:(shape_lia)) as Hrow.
      cbv beta in Hrow.
      exact (mapM_nth _ _ _ hc [] [] Hrow ltac:(shape_lia)). }
  assert (Hmat : forall b hm hc,
    (b < B)%nat -> (hm < Hm)%nat -> (hc < Hc)%nat ->
    length (nth (hm * Hc + hc) (nth b beta []) []) = Q /\
    bcastM (chunk_row chunk_size sharpening_factor)
      (nth hm (nth b alpha []) []) (nth hc (nth b e []) [])
    = Ok (nth (hm * Hc + hc) (nth b beta []) [])).
  { intros b hm hc Hb Hhm Hhc.
    destruct (Hhead b hm hc Hb Hhm Hhc) as [hs [Hcat [Hlhs [Hlrow Hbc]]]].
    destruct (is_mat_inv _ _ _ (proj2 (is_tensor3_inv _ _ _ _ (Ha3 b Hb)) hm Hhm))
      as [Hlam _].
    destruct (is_mat_inv _ _ _ (proj2 (is_tensor3_inv _ _ _ _ (He3 b Hb)) hc Hhc))
      as [Hlem _].
    unfold tensor3, mat, row in *.
    rewrite Hcat, (nth_concat_uniform hs Hc hm hc []) by assumption.
    split; [|exact Hbc].
    pose proof (bcastM_length_aligned _ _ _ _ Hbc ltac:(lia)). lia. }
  assert (Hrow : forall b hm hc i,
    (b < B)%nat -> (hm < Hm)%nat -> (hc < Hc)%nat -> (i < Q)%nat ->
    chunk_row chunk_size sharpening_factor
      (nth i (nth hm (nth b alpha []) []) [])
      (nth i (nth hc (nth b e []) []) [])
    = Ok (nth i (nth (hm * Hc + hc) (nth b beta []) []) [])).
  { intros b hm hc i Hb Hhm Hhc Hi.
    destruct (Hmat b hm hc Hb Hhm Hhc) as [_ Hbc].
    destruct (is_mat_inv _ _ _ (proj2 (is_tensor3_inv _ _ _ _ (Ha3 b Hb)) hm Hhm))
      as [Hlam _].
    destruct (is_mat_inv _ _ _ (proj2 (is_tensor3_inv _ _ _ _ (He3 b Hb)) hc Hhc))
      as [Hlem _].
    exact (proj2 (bcastM_nth_aligned _ _ _ _ i [] [] [] Hbc
                    ltac:(shape_lia) ltac:(shape_lia))). }
  split.
  - apply is_tensor4_intro.
    + pose proof (bcastM_length_aligned _ _ _ _ H ltac:(shape_lia)). shape_lia.
    + intros b Hb.
      destruct Hc as [|Hc'].
      { destruct (Hbatch b Hb) as [hs [Hhs Hcat]].
        destruct (is_tensor3_inv _ _ _ _ (He3 b Hb)) as [Hleb _].
        rewrite Nat.mul_0_r. apply is_tensor3_intro; [|intros; lia].
        unfold tensor3, mat, row in *. rewrite Hcat.
        rewrite (length_concat_uniform hs 0); [lia|].
        intros l Hl. destruct (mapM_In _ _ _ _ Hhs Hl) as [am [_ Hr]].
        etransitivity; [exact (mapM_length _ _ _ Hr) | exact Hleb]. }
      destruct Hm as [|Hm'].
      { destruct (Hbatch b Hb) as [hs [Hhs Hcat]].
        destruct (is_tensor3_inv _ _ _ _ (Ha3 b Hb)) as [Hlab _].
        apply is_tensor3_intro; [|intros; lia].
        unfold tensor3, mat, row in *. rewrite Hcat.
        pose proof (mapM_length _ _ _ Hhs) as Hlhs.
        destruct hs; [reflexivity | simpl in Hlhs; lia]. }
      destruct (Hhead b 0%nat 0%nat Hb ltac:(lia) ltac:(lia))
        as [hs [Hcat [Hlhs [Hlrow _]]]].
      apply is_tensor3_intro.
      * unfold tensor3, mat, row in *. rewrite Hcat.
        rewrite (length_concat_uniform hs (S Hc')) by exact Hlrow. lia.
      * intros n Hn.
        assert (Hdiv : n = (n / S Hc' * S Hc' + n mod S Hc')%nat).
        { rewrite Nat.mul_comm. apply Nat.div_mod_eq. }
        assert (Hhm : (n / S Hc' < S Hm')%nat).
        { apply Nat.Div0.div_lt_upper_bound. lia. }
        assert (Hhc : (n mod S Hc' < S Hc')%nat) by (apply Nat.mod_upper_bound; lia).
        apply is_mat_intro.
        -- rewrite Hdiv. exact (proj1 (Hmat b _ _ Hb Hhm Hhc)).
        -- intros i Hi. rewrite Hdiv.
           pose proof (Hrow b _ _ i Hb Hhm Hhc Hi) as Hcr.
           destruct (is_mat_inv _ _ _
                       (proj2 (is_tensor3_inv _ _ _ _ (Ha3 b Hb)) _ Hhm)) as [_ Hra].
           destruct (is_mat_inv _ _ _
                       (proj2 (is_tensor3_inv _ _ _ _ (He3 b Hb)) _ Hhc)) as [_ Hre].
           assert (Hae : length (nth i (nth (n mod S Hc') (nth b e []) []) [])
                         = length (nth i (nth (n / S Hc') (nth b alpha []) []) []))
             by (rewrite (Hra i Hi), (Hre i Hi); reflexivity).
           destruct (chunk_row_entries _ _ _ _ _ Hae Hcr) as [Hlbr _].
           rewrite Hlbr. exact (Hra i Hi).
  - exact Hrow.
Qed.

Lemma efficient_chunkwise_attention_example :
  exists beta,
    efficient_chunkwise_attention [[[[0; 1; 0]]]] [[[[0; 1; 0]]; [[1; 0; 0]]]] None 2 2 1
      None = Ok beta.
Proof.
  eexists. unfold efficient_chunkwise_attention, bcastM, chunk_row. cbn.
  change (Pos.to_nat 1) with 1%nat.
  unfold moving_sum, conv1d, pad. cbn. reflexivity.
Qed.

Lemma efficient_chunkwise_attention_heads_witness :
  (2 = -1 \/ 1 <= 2)%Z /\ 2%nat = 2%nat /\
  is_tensor4 1 1 1 3 [[[[0; 1; 0]]]] = true /\
  is_tensor4 1 2 1 3 [[[[0; 1; 0]]; [[1; 0; 0]]]] = true /\
  exists beta,
    efficient_chunkwise_attention [[[[0; 1; 0]]]] [[[[0; 1; 0]]; [[1; 0; 0]]]] None 2 2 1
      None = Ok beta /\
    is_tensor4 1 (1 * 2) 1 3 beta = true /\
    forall b hm hc i, (b < 1)%nat -> (hm < 1)%nat -> (hc < 2)%nat -> (i < 1)%nat ->
      chunk_row 2 1
        (nth i (nth hm (nth b [[[[0; 1; 0]]]] []) []) [])
        (nth i (nth hc (nth b [[[[0; 1; 0]]; [[1; 0; 0]]]] []) []) [])
      = Ok (nth i (nth (hm * 2 + hc) (nth b beta []) []) []).
Proof.
  assert (Hcs : (2 = -1 \/ 1 <= 2)%Z) by (right; lia).
  split; [exact Hcs|]. split; [reflexivity|].
  split; [reflexivity|]. split; [reflexivity|].
  destruct efficient_chunkwise_attention_example as [beta Hb].
  exists beta. split; [exact Hb|].
  exact (efficient_chunkwise_attention_heads [[[[0; 1; 0]]]]
           [[[[0; 1; 0]]; [[1; 0; 0]]]] beta None 2 2 1 1 1 2 1 3
           Hcs eq_refl eq_refl eq_refl Hb).
Defined.

(** ** The latency control brings the heads together *)

Lemma length_one_hot (klen t : nat) : length (one_hot klen t) = klen.
Proof. unfold one_hot. now rewrite length_map, length_seq. Qed.

Lemma nth_one_hot (klen t k : nat) :
  (k < klen)%nat -> nth k (one_hot klen t) 0 = if (k =? t)%nat then 1 else 0.
Proof.
  intros Hk. unfold one_hot.
  rewrite (nth_map_in_range _ (seq 0 klen) k 0%nat) by (now rewrite length_seq).
  now rewrite seq_nth by exact Hk.
Qed.

Lemma nonzero_cols_one_hot (klen t : nat) (m : Z) :
  (t < klen)%nat ->
  In m (nonzero_cols (one_hot klen t)) <-> m = Z.of_nat t.
Proof.
  intros Ht. split.
  - intros Hm. pose proof (nonzero_cols_range _ _ Hm) as Hr.
    rewrite length_one_hot in Hr.
    destruct (nonzero_cols_In _ _ Hm) as [k [-> Hk]].
    rewrite nth_one_hot in Hk by lia.
    destruct (Nat.eqb_spec k t) as [->|_]; [reflexivity | congruence].
  - intros ->. unfold nonzero_cols. apply in_map, filter_In. split.
    + apply in_seq. rewrite length_one_hot. lia.
    + rewrite nth_one_hot, Nat.eqb_refl by exact Ht.
      rewrite is_zero_false by lra. reflexivity.
Qed.

Lemma nonzero_cols_zeros (n : nat) (m : Z) : ~ In m (nonzero_cols (repeat 0 n)).
Proof.
  intros Hm. destruct (nonzero_cols_In _ _ Hm) as [k [_ Hk]].
  apply Hk. apply nth_repeat.
Qed.

Lemma one_hot_inj (klen t t' : nat) :
  (t < klen)%nat -> one_hot klen t = one_hot klen t' -> t = t'.
Proof.
  intros Ht Heq.
  assert (Hin : In (Z.of_nat t) (nonzero_cols (one_hot klen t)))
    by (now apply nonzero_cols_one_hot).
  rewrite Heq in Hin.
  destruct (Nat.lt_ge_cases t' klen) as [Ht'|Ht'].
  - apply nonzero_cols_one_hot in Hin; [lia | exact Ht'].
  - exfalso. destruct (nonzero_cols_In _ _ Hin) as [k [Hk Hnz]].
    apply Nat2Z.inj in Hk. subst k.
    rewrite nth_one_hot in Hnz by exact Ht.
    destruct (Nat.eqb_spec t t'); [lia | congruence].
Qed.

Lemma one_hot_not_zeros (klen t : nat) :
  (t < klen)%nat -> one_hot klen t <> repeat 0 klen.
Proof.
  intros Ht Heq. pose proof (sum_one_hot klen t Ht) as Hs.
  rewrite Heq, sum_list_repeat0 in Hs. lra.
Qed.

Lemma hot_or_zero_nonneg (a : row) : hot_or_zero a -> Forall (fun x => 0 <= x) a.
Proof.
  intros [->|[t [Ht ->]]]; apply Forall_forall; intros x Hx.
  - apply repeat_spec in Hx. lra.
  - unfold one_hot in Hx. apply in_map_iff in Hx. destruct Hx as [j [<- _]].
    destruct (j =? t)%nat; lra.
Qed.

Lemma sum_concat_pos (rows : list row) (a : row) :
  Forall (Forall (fun x => 0 <= x)) rows -> In a rows -> 0 < sum_list a ->
  0 < sum_list (concat rows).
Proof.
  induction 1 as [|r rows Hr Hrows IH]; intros Hin Ha; [contradiction|].
  cbn [concat]. rewrite sum_list_app.
  pose proof (sum_list_nonneg r Hr) as Hr0.
  assert (Hc0 : 0 <= sum_list (concat rows)).
  { apply sum_list_nonneg. apply Forall_forall. intros x Hx.
    apply in_concat in Hx. destruct Hx as [l [Hl Hx]].
    rewrite Forall_forall in Hrows. pose proof (Hrows l Hl) as Hl0.
    rewrite Forall_forall in Hl0. now apply Hl0. }
  destruct Hin as [->|Hin]; [lra|].
  pose proof (IH Hin Ha). lra.
Qed.

(** X8.  The latency control of the hard mode on one batch element, with
    [eps_wait > 0], on heads that each hold one boundary or none, at
    least one of them holding one; [t0] is the leftmost boundary.
    Afterwards every head holds exactly one boundary, at a frame of
    [[t0, t0 + eps_wait]]: a head without a boundary gets one, a head whose
    boundary is at [t0 + eps_wait] or later is moved to [t0 + eps_wait],
    and a head whose boundary is before [t0 + eps_wait] keeps it. *)
Theorem latency_batch_aligns_heads (eps_wait : Z) (boundary_rightmost : option Z)
  (size_last : Z) (klen : nat) (rows : list row) (t0 : nat) :
  (0 < eps_wait)%Z ->
  Forall (fun a => length a = klen /\ hot_or_zero a) rows ->
  (t0 < klen)%nat -> In (one_hot klen t0) rows ->
  (forall t, (t < klen)%nat -> In (one_hot klen t) rows -> (t0 <= t)%nat) ->
  exists rows',
    latency_batch false eps_wait boundary_rightmost size_last rows = Ok rows' /\
    Forall2 (fun a a' =>
               length a' = klen /\
               boundary_within (Z.of_nat t0) (Z.of_nat t0 + eps_wait) a' /\
               (forall t, (t < klen)%nat -> a = one_hot klen t ->
                          (Z.of_nat t < Z.of_nat t0 + eps_wait)%Z -> a' = a))
            rows rows'.
Proof.
  intros Heps Hrows Ht0 Hin0 Hmin. unfold latency_batch. rewrite andb_false_l.
  rewrite Forall_forall in Hrows.
  assert (Hz : is_zero (sum_list (concat rows)) = false).
  { apply is_zero_false.
    assert (0 < sum_list (concat rows)); [|lra].
    apply (sum_concat_pos rows (one_hot klen t0)).
    - apply Forall_forall. intros a Ha. apply hot_or_zero_nonneg, (Hrows a Ha).
    - exact Hin0.
    - rewrite sum_one_hot by exact Ht0. lra. }
  rewrite Hz.
  pose proof (nonzero_cols_batch_nonempty rows Hz) as Hne.
  destruct (min_item_nonempty _ Hne) as [leftmost Hmin'].
  destruct (max_item_nonempty _ Hne) as [rightmost Hmax'].
  rewrite Hmin', Hmax'. cbn [bind].
  destruct (min_item_In _ _ Hmin') as [Hlin Hlle].
  destruct (max_item_In _ _ Hmax') as [Hrin Hrle].
  (* every nonzero column is the boundary of a head *)
  assert (Hcols : forall m, In m (concat (map nonzero_cols rows)) ->
            exists t, (t < klen)%nat /\ In (one_hot klen t) rows /\ m = Z.of_nat t).
  { intros m Hm. apply in_concat in Hm. destruct Hm as [l [Hl Hm]].
    apply in_map_iff in Hl. destruct Hl as [a [<- Ha]].
    destruct (Hrows a Ha) as [Hla [Hzero|[t [Ht Hhot]]]].
    - rewrite Hzero in Hm. exfalso. exact (nonzero_cols_zeros _ _ Hm).
    - rewrite Hla in *. exists t. split; [exact Ht|].
      split; [now rewrite <- Hhot|].
      rewrite Hhot in Hm. now apply nonzero_cols_one_hot in Hm. }
  assert (Hleft : leftmost = Z.of_nat t0).
  { destruct (Hcols _ Hlin) as [t [Ht [Hint ->]]].
    pose proof (Hmin t Ht Hint).
    assert (Z.of_nat t <= Z.of_nat t0)%Z; [|lia].
    apply Hlle, in_concat. exists (nonzero_cols (one_hot klen t0)).
    split; [now apply in_map | now apply nonzero_cols_one_hot]. }
  subst leftmost.
  assert (Hright : (Z.of_nat t0 <= rightmost < Z.of_nat klen)%Z).
  { destruct (Hcols _ Hrin) as [t [Ht [Hint ->]]]. pose proof (Hmin t Ht Hint). lia. }
  apply mapM_Forall2. intros a Ha.
  destruct (Hrows a Ha) as [Hla Hhz].
  unfold latency_head. rewrite !orb_true_r.
  destruct Hhz as [Hzero|[t [Ht Hhot]]]; rewrite Hla in *.
  - (* no boundary at this head *)
    rewrite Hzero, sum_list_repeat0, (is_zero_true 0) by reflexivity.
    rewrite setitem_ok by (rewrite repeat_length; lia).
    rewrite set_nth_zeros by lia.
    eexists. split; [reflexivity|].
    split; [apply length_one_hot|]. split.
    + exists (Z.to_nat (Z.min rightmost (Z.of_nat t0 + eps_wait))).
      rewrite length_one_hot. split; [lia|]. split; [reflexivity | lia].
    + intros t Ht Heq _. exfalso.
      exact (one_hot_not_zeros klen t Ht (eq_sym Heq)).
  - (* a boundary at [t] *)
    subst a. rewrite length_one_hot in *.
    assert (Ht0t : (t0 <= t)%nat) by (apply Hmin; [exact Ht | exact Ha]).
    rewrite sum_one_hot by exact Ht.
    rewrite (is_zero_false 1) by lra.
    assert (Hm : min_item (nonzero_cols (one_hot klen t)) = Ok (Z.of_nat t)).
    { destruct (min_item_nonempty (nonzero_cols (one_hot klen t))) as [m Hm].
      - intros Hnil.
        assert (Hin : In (Z.of_nat t) (nonzero_cols (one_hot klen t)))
          by (now apply nonzero_cols_one_hot).
        rewrite Hnil in Hin. contradiction.
      - destruct (min_item_In _ _ Hm) as [Hmin'' _].
        apply nonzero_cols_one_hot in Hmin''; [|exact Ht].
        now rewrite Hm, Hmin''. }
    rewrite Hm. cbn [bind].
    destruct (Z.geb_spec (Z.of_nat t) (Z.of_nat t0 + eps_wait)) as [Hge|Hlt].
    + rewrite setitem_ok by (rewrite repeat_length; lia).
      rewrite set_nth_zeros by lia.
      eexists. split; [reflexivity|].
      split; [apply length_one_hot|]. split.
      * exists (Z.to_nat (Z.of_nat t0 + eps_wait)).
        rewrite length_one_hot. split; [lia|]. split; [reflexivity | lia].
      * intros t' Ht' Heq Hlt'. exfalso.
        apply one_hot_inj in Heq; [lia | exact Ht].
    + exists (one_hot klen t). split; [reflexivity|].
      split; [apply length_one_hot|]. split.
      * exists t. rewrite length_one_hot. split; [exact Ht|].
        split; [reflexivity | lia].
      * intros; reflexivity.
Qed.

Lemma latency_batch_aligns_heads_witness :
  (0 < 2)%Z /\
  Forall (fun a => length a = 5%nat /\ hot_or_zero a)
    [[0; 0; 0; 0; 1]; [0; 0; 0; 0; 0]; [0; 1; 0; 0; 0]] /\
  (1 < 5)%nat /\
  In (one_hot 5 1) [[0; 0; 0; 0; 1]; [0; 0; 0; 0; 0]; [0; 1; 0; 0; 0]] /\
  (forall t, (t < 5)%nat ->
     In (one_hot 5 t) [[0; 0; 0; 0; 1]; [0; 0; 0; 0; 0]; [0; 1; 0; 0; 0]] ->
     (1 <= t)%nat) /\
  exists rows',
    latency_batch false 2 None 5 [[0; 0; 0; 0; 1]; [0; 0; 0; 0; 0]; [0; 1; 0; 0; 0]]
    = Ok rows' /\
    Forall2 (fun a a' =>
               length a' = 5%nat /\
               boundary_within (Z.of_nat 1) (Z.of_nat 1 + 2) a' /\
               (forall t, (t < 5)%nat -> a = one_hot 5 t ->
                          (Z.of_nat t < Z.of_nat 1 + 2)%Z -> a' = a))
            [[0; 0; 0; 0; 1]; [0; 0; 0; 0; 0]; [0; 1; 0; 0; 0]] rows'.
Proof.
  assert (H1 : Forall (fun a : row => length a = 5%nat /\ hot_or_zero a)
                 [[0; 0; 0; 0; 1]; [0; 0; 0; 0; 0]; [0; 1; 0; 0; 0]]).
  { apply Forall_cons; [|apply Forall_cons; [|apply Forall_cons; [|apply Forall_nil]]].
    - split; [reflexivity|]. right. exists 4%nat. split; [simpl; lia | reflexivity].
    - split; [reflexivity|]. left. reflexivity.
    - split; [reflexivity|]. right. exists 1%nat. split; [simpl; lia | reflexivity]. }
  assert (H2 : In (one_hot 5 1) [[0; 0; 0; 0; 1]; [0; 0; 0; 0; 0]; [0; 1; 0; 0; 0]])
    by (right; right; left; reflexivity).
  assert (H3 : forall t, (t < 5)%nat ->
            In (one_hot 5 t) [[0; 0; 0; 0; 1]; [0; 0; 0; 0; 0]; [0; 1; 0; 0; 0]] ->
            (1 <= t)%nat).
  { intros t Ht Hin. destruct t as [|t]; [|lia]. exfalso.
    destruct Hin as [Hin|[Hin|[Hin|[]]]];
      apply (f_equal (fun r => nth 0 r 0)) in Hin; simpl in Hin; lra. }
  split; [lia|]. split; [exact H1|]. split; [lia|]. split; [exact H2|].
  split; [exact H3|].
  exact (latency_batch_aligns_heads 2 None 5 5 _ 1 ltac:(lia) H1 ltac:(lia) H2 H3).
Defined.

(** ** Delay constrained training *)

Lemma assert_ok (b : bool) (u : unit) : assert b = Ok u -> b = true.
Proof. destruct b; [reflexivity | discriminate]. Qed.

Ltac bind_inv H :=
  repeat match type of H with
  | bind ?x _ = _ =>
      let E := fresh "E" in destruct x eqn:E; [|discriminate]; cbn [bind] in H
  end.

Lemma me_forward_shape (self : MonotonicEnergy) (key query : tensor3)
  (mask : option mask3) (cache : bool) (e : tensor4) :
  fst (me_forward self key query mask cache) = Ok e ->
  is_tensor4 (length key) (me_n_heads self) (length (hd [] query))
    (length (hd [] key)) e = true.
Proof.
  unfold me_forward. cbv zeta. intros H.
  destruct (match me_key self with None => true | Some _ => negb cache end);
    [destruct mask as [m|]|]; cbn [fst] in H; bind_inv H; injection H as <-;
    match goal with
    | E : assert _ = Ok _ |- _ => exact (assert_ok _ _ E)
    end.
Qed.

Lemma zero_from_right (s : Z) (r : row) (k : nat) :
  ((if s <? 0 then s + Z.of_nat (length r) else s) <= Z.of_nat k)%Z ->
  nth k (zero_from s r) 0 = 0.
Proof.
  intros Hk. unfold zero_from. cbv zeta.
  set (n := Z.to_nat _).
  assert (Hn : (n <= k)%nat).
  { unfold n. destruct (s <? 0)%Z; lia. }
  rewrite app_nth2 by (rewrite length_firstn; lia).
  apply nth_repeat.
Qed.

Lemma length_closed_form_le (eps : R) (no_denom : bool) (p aw : row) :
  (length (closed_form eps no_denom p aw) <= length p)%nat.
Proof. unfold closed_form. cbv zeta. rewrite !length_zip_with. lia. Qed.

Lemma parallel_rows_decot (eps : R) (no_denom : bool) (s : Z) (klen : nat)
  (pm : mat) (aw : row) (i k : nat) :
  Forall (fun p => length p = klen) pm ->
  ((if s <? 0 then s + Z.of_nat klen else s) <= Z.of_nat k)%Z ->
  nth k (nth i (parallel_rows eps no_denom (Some s) pm aw) []) 0 = 0.
Proof.
  intros Hpm Hk. revert aw i.
  induction Hpm as [|p pm Hp _ IH]; intros aw i.
  - simpl. destruct i, k; reflexivity.
  - cbn [parallel_rows]. cbv zeta. destruct i as [|i]; cbn [nth]; [|apply IH].
    destruct (Nat.lt_ge_cases k (length (closed_form eps no_denom p aw)))
      as [Hlt|Hge].
    + apply zero_from_right.
      pose proof (length_closed_form_le eps no_denom p aw).
      destruct (s <? 0)%Z; lia.
    + apply nth_overflow. rewrite length_zero_from. exact Hge.
Qed.

(** What a call that returns has gone through. *)
Lemma forward_inv (sigmoid : R -> R) (self : MoChA) (key value query : tensor3)
  (mask : option mask3) (aw_prev : option tensor4) (mode : string)
  (cache : bool) (trigger_point : option (list Z)) (eps_wait : Z)
  (boundary_rightmost : option Z) (rnd : randomness)
  (cv : tensor3) (alpha : tensor4) (beta : option tensor4) :
  fst (forward sigmoid self key value query mask aw_prev mode cache trigger_point
         eps_wait boundary_rightmost rnd) = Ok (cv, alpha, beta) ->
  exists e_mono alpha_masked,
    fst (me_forward (monotonic_energy self) key query mask cache) = Ok e_mono /\
    select_alpha sigmoid self mode (length (hd [] query)) (length (hd [] key)) e_mono
      match aw_prev with
      | Some a => a
      | None => initial_aw_prev (length key) (n_heads_mono self) (length (hd [] key))
      end trigger_point eps_wait boundary_rightmost rnd = Ok (alpha, alpha_masked) /\
    fst (chunk_attention self key query mask cache alpha_masked rnd) = Ok beta /\
    context_vector self value alpha beta = Ok cv /\
    is_tensor4 (length key) (n_heads_mono self) (length (hd [] query))
      (length (hd [] key)) alpha = true /\
    (forall bt, beta = Some bt ->
       is_tensor4 (length key) (n_heads_mono self * n_heads_chunk self)
         (length (hd [] query)) (length (hd [] key)) bt = true).
Proof.
  intros Hfw. unfold forward in Hfw. cbv zeta in Hfw.
  destruct (fst (me_forward (monotonic_energy self) key query mask cache))
    as [e_mono|]; [|discriminate].
  destruct (select_alpha _ _ _ _ _ _ _ _ _ _ _) as [[al alpha_masked]|] eqn:Hsel;
    [|discriminate].
  cbn [fst] in Hfw.
  destruct (fst (chunk_attention self key query mask cache alpha_masked rnd))
    as [beta0|] eqn:Hca; [|discriminate].
  cbn [bind] in Hfw.
  destruct (context_vector self value al beta0) as [cv0|] eqn:Hcv; [|discriminate].
  cbn [bind] in Hfw.
  destruct (is_tensor4 (length key) (n_heads_mono self) (length (hd [] query))
              (length (hd [] key)) al) eqn:Hal; [|discriminate].
  cbn [assert bind] in Hfw.
  exists e_mono, alpha_masked.
  destruct beta0 as [b0|].
  - destruct (is_tensor4 _ _ _ _ b0) eqn:Hb0; [|discriminate].
    cbn [assert bind] in Hfw. injection Hfw as <- <- <-.
    repeat split; try assumption; try reflexivity.
    intros bt Hbt. injection Hbt as <-. exact Hb0.
  - cbn [bind] in Hfw. injection Hfw as <- <- <-.
    repeat split; try assumption; try reflexivity.
    intros bt Hbt. discriminate.
Qed.

(** X9.  Delay constrained training: a call in parallel mode on a layer
    with DeCoT and trigger points returns an [alpha] that is zero, for
    every head and query position of the batch element [b], at every key
    frame from [trigger_point[b] + lookahead + 1] on (as a Python slice
    start: counted from the end of the row when it is negative). *)
Theorem decot_masks_after_trigger (sigmoid : R -> R) (self : MoChA)
  (key value query : tensor3) (mask : option mask3) (aw_prev : option tensor4)
  (cache : bool) (trigger_point : list Z) (eps_wait : Z)
  (boundary_rightmost : option Z) (rnd : randomness)
  (cv : tensor3) (alpha : tensor4) (beta : option tensor4) :
  decot self = true -> length trigger_point = length key ->
  aw_prev_shape (length key) (n_heads_mono self) (length (hd [] key)) aw_prev ->
  fst (forward sigmoid self key value query mask aw_prev "parallel" cache
         (Some trigger_point) eps_wait boundary_rightmost rnd)
  = Ok (cv, alpha, beta) ->
  forall b h i k, (b < length key)%nat ->
    (let s := (nth b trigger_point 0 + lookahead self + 1)%Z in
     (if s <? 0 then s + Z.of_nat (length (hd [] key)) else s) <= Z.of_nat k)%Z ->
    get4 alpha b h i k = 0.
Proof.
  intros Hdecot _ Haw Hfw b h i k Hb Hk.
  destruct (forward_inv _ _ _ _ _ _ _ _ _ _ _ _ _ _ _ _ Hfw)
    as [e_mono [alpha_masked [Hme [Hsel [_ [_ [Hal _]]]]]]].
  pose proof (me_forward_shape _ _ _ _ _ _ Hme) as He.
  assert (Haw' : is_tensor4 (length key) (n_heads_mono self) 1 (length (hd [] key))
                   match aw_prev with
                   | Some a => a
                   | None => initial_aw_prev (length key) (n_heads_mono self)
                               (length (hd [] key))
                   end = true).
  { destruct aw_prev as [a|]; [exact Haw | apply is_tensor4_initial_aw_prev]. }
  unfold select_alpha in Hsel.
  change (String.eqb "parallel" "recursive") with false in Hsel.
  change (String.eqb "parallel" "parallel") with true in Hsel.
  cbv beta iota zeta in Hsel. rewrite Hdecot in Hsel.
  match type of Hsel with
  | bind ?x _ = _ => destruct x as [al|] eqn:Hbc; [|discriminate]
  end.
  cbn [bind] in Hsel. injection Hsel as <- _.
  set (p := map (map (map (map sigmoid))) (add_gaussian_noise rnd e_mono)) in *.
  assert (Hp : is_tensor4 (length key) (me_n_heads (monotonic_energy self))
                 (length (hd [] query)) (length (hd [] key)) p = true).
  { unfold p, add_gaussian_noise. now rewrite is_tensor4_map4, is_tensor4_mapi4. }
  destruct (is_tensor4_inv _ _ _ _ _ Hp) as [Hlp Hp3].
  destruct (is_tensor4_inv _ _ _ _ _ Hal) as [Hla _].
  assert (Hlc : length (combine (seq 0 (length p)) p) = length key).
  { rewrite length_combine, length_seq. shape_lia. }
  destruct (bcastM_nth _ _ _ _ b (0%nat, []) [] Hbc) as [yb [Hyb Hb3]];
    [shape_lia | shape_lia |].
  rewrite combine_nth in Hb3 by (now rewrite length_seq).
  rewrite seq_nth in Hb3 by shape_lia.
  cbn [fst snd Nat.add] in Hb3.
  unfold get4. apply zero_at_get. intros mt Hmt.
  destruct (bcastM_In _ _ _ _ _ Hb3 Hmt) as [pm [am [Hpm [Ham Hr]]]].
  destruct (is_mat_one _ _ (is_tensor3_In _ _ _ _ _
              (is_tensor4_In _ _ _ _ _ _ Haw' Hyb) Ham)) as [a [-> _]].
  destruct (is_mat_inv _ _ _ (is_tensor3_In _ _ _ _ _ (Hp3 b Hb) Hpm))
    as [Hlpm Hrows].
  destruct (Nat.eq_dec (length (hd [] query)) 0) as [Hq0|Hq0].
  - (* no query position: no row *)
    rewrite Hq0 in Hr. unfold parallel_mode in Hr. cbn in Hr. discriminate.
  - rewrite <- Hlpm in Hr. rewrite parallel_mode_rows in Hr
      by (intros ->; simpl in Hlpm; lia).
    injection Hr as <-.
    apply (parallel_rows_decot _ _ _ (length (hd [] key))); [|exact Hk].
    apply Forall_forall. intros r Hr.
    destruct (In_nth _ _ [] Hr) as [n [Hn <-]]. apply Hrows. shape_lia.
Qed.

Lemma forward_decot_example :
  exists cv a0,
    fst (forward logistic mocha_decot [[[-1]; [2]; [3]]] [[[1]; [2]; [3]]] [[[1]]]
           None None "parallel" false (Some [0%Z]) (-1) None no_randomness)
    = Ok (cv, [[[[a0; 0; 0]]]], None).
Proof.
  do 2 eexists.
  unfold forward, me_forward, select_alpha, parallel_mode, parallel_step. cbn.
  unfold context_vector, squeeze1, bmm, matmul. cbn.
  reflexivity.
Qed.

Lemma decot_masks_after_trigger_witness :
  decot mocha_decot = true /\ length [0%Z] = length [[[-1]; [2]; [3]]] /\
  aw_prev_shape 1 (n_heads_mono mocha_decot) 3 None /\
  exists cv a0,
    fst (forward logistic mocha_decot [[[-1]; [2]; [3]]] [[[1]; [2]; [3]]] [[[1]]]
           None None "parallel" false (Some [0%Z]) (-1) None no_randomness)
    = Ok (cv, [[[[a0; 0; 0]]]], None) /\
    forall b h i k, (b < 1)%nat ->
      (let s := (nth b [0%Z] 0 + lookahead mocha_decot + 1)%Z in
       (if s <? 0 then s + Z.of_nat 3 else s) <= Z.of_nat k)%Z ->
      get4 [[[[a0; 0; 0]]]] b h i k = 0.
Proof.
  split; [reflexivity|]. split; [reflexivity|]. split; [exact I|].
  destruct forward_decot_example as [cv [a0 Hfw]].
  exists cv, a0. split; [exact Hfw|].
  exact (decot_masks_after_trigger logistic mocha_decot [[[-1]; [2]; [3]]]
           [[[1]; [2]; [3]]] [[[1]]] None None false [0%Z] (-1) None no_randomness
           cv [[[[a0; 0; 0]]]] None eq_refl eq_refl I Hfw).
Defined.

(** ** The caches of the energy functions *)

(** X10.  [MonotonicEnergy.forward] is idempotent on its cache: after a
    call that returned, a call with [cache=True] and the same query
    returns the same energy and leaves the cache as it is, whatever mask
    and whatever key of the same [B] and [klen] it is given (neither is
    read). *)
Theorem me_forward_cached_again (self : MonotonicEnergy)
  (key key' query : tensor3) (mask mask' : option mask3) (cache : bool)
  (e : tensor4) :
  fst (me_forward self key query mask cache) = Ok e ->
  length key' = length key -> length (hd [] key') = length (hd [] key) ->
  me_forward (snd (me_forward self key query mask cache)) key' query mask' true
  = (Ok e, snd (me_forward self key query mask cache)).
Proof.
  intros H Hb Hk. unfold me_forward in *. cbv zeta in *.
  rewrite Hb, Hk.
  destruct (me_key self) as [k|] eqn:Hkey.
  - destruct cache; cbn [negb] in *.
    + cbn [fst snd] in *. rewrite Hkey. cbn [negb]. cbn [bind]. cbn [bind] in H.
      now rewrite H.
    + destruct mask as [m|]; cbn [fst snd me_key me_set_cache negb] in *.
      * destruct (assert (is_mask3 _ _ _ m)) as [[]|]; [|discriminate].
        cbn [bind] in *. now rewrite H.
      * cbn [bind] in *. now rewrite H.
  - destruct mask as [m|]; cbn [fst snd me_key me_set_cache negb] in *.
    + destruct (assert (is_mask3 _ _ _ m)) as [[]|]; [|discriminate].
      cbn [bind] in *. now rewrite H.
    + cbn [bind] in *. now rewrite H.
Qed.

Lemma me_forward_example :
  exists e, fst (me_forward mono_example [[[1]; [2]; [3]]] [[[1]]] None false) = Ok e.
Proof. eexists. unfold me_forward. cbn. reflexivity. Qed.

Lemma me_forward_cached_again_witness :
  length [[[5]; [6]; [7]]] = length [[[1]; [2]; [3]]] /\
  length (hd [] [[[5]; [6]; [7]]]) = length (hd [] [[[1]; [2]; [3]]]) /\
  exists e,
    fst (me_forward mono_example [[[1]; [2]; [3]]] [[[1]]] None false) = Ok e /\
    me_forward (snd (me_forward mono_example [[[1]; [2]; [3]]] [[[1]]] None false))
      [[[5]; [6]; [7]]] [[[1]]] (Some [[[false; true; true]]]) true
    = (Ok e, snd (me_forward mono_example [[[1]; [2]; [3]]] [[[1]]] None false)).
Proof.
  split; [reflexivity|]. split; [reflexivity|].
  destruct me_forward_example as [e He].
  exists e. split; [exact He|].
  exact (me_forward_cached_again mono_example [[[1]; [2]; [3]]] [[[5]; [6]; [7]]]
           [[[1]]] None (Some [[[false; true; true]]]) false e He eq_refl eq_refl).
Defined.

(** X11.  [ChunkEnergy.forward] is idempotent on its cache in the same
    way: after a call that returned, a call with [cache=True] and the same
    query returns the same energy and leaves the cache as it is, whatever
    mask and whatever key of the same [B] and [klen] it is given. *)
Theorem ce_forward_cached_again (self : ChunkEnergy)
  (key key' query : tensor3) (mask mask' : option mask3) (cache : bool)
  (e : tensor4) :
  fst (ce_forward self key query mask cache) = Ok e ->
  length key' = length key -> length (hd [] key') = length (hd [] key) ->
  ce_forward (snd (ce_forward self key query mask cache)) key' query mask' true
  = (Ok e, snd (ce_forward self key query mask cache)).
Proof.
  intros H Hb Hk. unfold ce_forward in *. cbv zeta in *.
  rewrite Hb, Hk.
  destruct (ce_key self) as [k|] eqn:Hkey.
  - destruct cache; cbn [negb] in *.
    + cbn [fst snd] in *. rewrite Hkey. cbn [negb]. cbn [bind]. cbn [bind] in H.
      now rewrite H.
    + destruct mask as [m|]; cbn [fst snd ce_key ce_set_cache negb] in *.
      * destruct (assert (is_mask3 _ _ _ m)) as [[]|]; [|discriminate].
        cbn [bind] in *. now rewrite H.
      * cbn [bind] in *. now rewrite H.
  - destruct mask as [m|]; cbn [fst snd ce_key ce_set_cache negb] in *.
    + destruct (assert (is_mask3 _ _ _ m)) as [[]|]; [|discriminate].
      cbn [bind] in *. now rewrite H.
    + cbn [bind] in *. now rewrite H.
Qed.

Lemma ce_forward_example :
  exists e, fst (ce_forward chunk_example [[[1]; [2]; [3]]] [[[1]]] None false) = Ok e.
Proof. eexists. unfold ce_forward. cbn. reflexivity. Qed.

Lemma ce_forward_cached_again_witness :
  length [[[5]; [6]; [7]]] = length [[[1]; [2]; [3]]] /\
  length (hd [] [[[5]; [6]; [7]]]) = length (hd [] [[[1]; [2]; [3]]]) /\
  exists e,
    fst (ce_forward chunk_example [[[1]; [2]; [3]]] [[[1]]] None false) = Ok e /\
    ce_forward (snd (ce_forward chunk_example [[[1]; [2]; [3]]] [[[1]]] None false))
      [[[5]; [6]; [7]]] [[[1]]] (Some [[[false; true; true]]]) true
    = (Ok e, snd (ce_forward chunk_example [[[1]; [2]; [3]]] [[[1]]] None false)).
Proof.
  split; [reflexivity|]. split; [reflexivity|].
  destruct ce_forward_example as [e He].
  exists e. split; [exact He|].
  exact (ce_forward_cached_again chunk_example [[[1]; [2]; [3]]] [[[5]; [6]; [7]]]
           [[[1]]] None (Some [[[false; true; true]]]) false e He eq_refl eq_refl).
Defined.

Lemma me_forward_reset (self : MonotonicEnergy) (key query : tensor3)
  (mask : option mask3) (cache : bool) :
  me_forward (me_reset self) key query mask cache
  = me_forward self key query mask false.
Proof.
  unfold me_forward, me_reset. cbv zeta. cbn [me_key me_set_cache].
  destruct (me_key self); reflexivity.
Qed.

Lemma ce_forward_reset (self : ChunkEnergy) (key query : tensor3)
  (mask : option mask3) (cache : bool) :
  ce_forward (ce_reset self) key query mask cache
  = ce_forward self key query mask false.
Proof.
  unfold ce_forward, ce_reset. cbv zeta. cbn [ce_key ce_set_cache].
  destruct (ce_key self); reflexivity.
Qed.

(** X12.  [MoChA.reset] empties the caches of both energy functions, and
    with them the effect of [cache=True]: the first call after a reset
    returns what the same call with [cache=False] returns on the layer
    before the reset, in every mode. *)
Theorem forward_after_reset (sigmoid : R -> R) (self : MoChA)
  (key value query : tensor3) (mask : option mask3) (aw_prev : option tensor4)
  (mode : string) (cache : bool) (trigger_point : option (list Z))
  (eps_wait : Z) (boundary_rightmost : option Z) (rnd : randomness) :
  me_key (monotonic_energy (reset self)) = None /\
  option_map ce_key (chunk_energy (reset self))
  = option_map (fun _ => None) (chunk_energy self) /\
  fst (forward sigmoid (reset self) key value query mask aw_prev mode cache
         trigger_point eps_wait boundary_rightmost rnd)
  = fst (forward sigmoid self key value query mask aw_prev mode false
           trigger_point eps_wait boundary_rightmost rnd).
Proof.
  split; [reflexivity|]. split.
  { change (chunk_energy (reset self))
      with (option_map ce_reset (chunk_energy self)).
    destruct (chunk_energy self); reflexivity. }
  unfold forward. cbv zeta.
  change (monotonic_energy (reset self)) with (me_reset (monotonic_energy self)).
  change (n_heads_mono (reset self)) with (n_heads_mono self).
  change (n_heads_chunk (reset self)) with (n_heads_chunk self).
  rewrite me_forward_reset.
  destruct (fst (me_forward (monotonic_energy self) key query mask false))
    as [e_mono|]; [|reflexivity].
  change (select_alpha sigmoid (reset self)) with (select_alpha sigmoid self).
  destruct (select_alpha _ _ _ _ _ _ _ _ _ _ _) as [[al alpha_masked]|];
    [|reflexivity].
  cbn [fst].
  assert (Hchunk : fst (chunk_attention (reset self) key query mask cache
                          alpha_masked rnd)
                   = fst (chunk_attention self key query mask false
                            alpha_masked rnd)).
  { unfold chunk_attention.
    change (chunk_size (reset self)) with (chunk_size self).
    change (chunk_energy (reset self))
      with (option_map ce_reset (chunk_energy self)).
    destruct (uses_chunk (chunk_size self)); [|reflexivity].
    destruct (chunk_energy self) as [ce|]; [|reflexivity].
    cbn [option_map fst]. cbv zeta. cbn [fst]. now rewrite ce_forward_reset. }
  rewrite Hchunk. reflexivity.
Qed.

(** ** When a call returns *)

(** X13.  The recursive mode serves one query position at a time: on a
    non-empty batch with at least one head, a call in recursive mode
    returns only when [qlen = 1].  (With no query position there is no row
    to return; with several, the inner loop slices its one-row [q] with
    the query index, the later positions add no row, and the assertion on
    the shape of [alpha] fails.) *)
Theorem recursive_mode_needs_one_query (sigmoid : R -> R) (self : MoChA)
  (key value query : tensor3) (mask : option mask3) (aw_prev : option tensor4)
  (cache : bool) (trigger_point : option (list Z)) (eps_wait : Z)
  (boundary_rightmost : option Z) (rnd : randomness)
  (cv : tensor3) (alpha : tensor4) (beta : option tensor4) :
  (1 <= length key)%nat -> (1 <= n_heads_mono self)%nat ->
  fst (forward sigmoid self key value query mask aw_prev "recursive" cache
         trigger_point eps_wait boundary_rightmost rnd) = Ok (cv, alpha, beta) ->
  length (hd [] query) = 1%nat.
Proof.
  intros Hbs Hh Hfw.
  destruct (forward_inv _ _ _ _ _ _ _ _ _ _ _ _ _ _ _ _ Hfw)
    as [e_mono [alpha_masked [_ [Hsel [_ [_ [Hal _]]]]]]].
  unfold select_alpha in Hsel.
  change (String.eqb "recursive" "recursive") with true in Hsel.
  cbv beta iota zeta in Hsel.
  match type of Hsel with
  | bind ?x _ = _ => destruct x as [al'|] eqn:Hal'; [|discriminate]
  end.
  cbn [bind] in Hsel. injection Hsel as <- _.
  destruct (is_tensor4_inv _ _ _ _ _ Hal) as [Hl4 H3].
  destruct (is_tensor3_inv _ _ _ _ (H3 0%nat ltac:(lia))) as [Hl3 H2].
  destruct (is_mat_inv _ _ _ (H2 0%nat ltac:(lia))) as [Hl2 _].
  assert (Hin4 : In (nth 0 al' []) al') by (apply nth_In; shape_lia).
  destruct (bcastM_In _ _ _ _ _ Hal' Hin4) as [pb [yb [_ [_ Hb]]]].
  assert (Hin3 : In (nth 0 (nth 0 al' []) []) (nth 0 al' []))
    by (apply nth_In; shape_lia).
  destruct (bcastM_In _ _ _ _ _ Hb Hin3) as [pm [am [_ [_ Hr]]]].
  destruct (length (hd [] query)) as [|[|n]] eqn:Hq.
  - unfold recursive_mode in Hr. cbn in Hr. discriminate.
  - reflexivity.
  - apply recursive_mode_first_step in Hr.
    destruct (recursive_step_rows _ _ _ _ _ Hr) as [Hle _]. shape_lia.
Qed.

Lemma forward_recursive_example :
  exists cv alpha,
    fst (forward logistic mocha_hard [[[-1]; [2]; [3]]] [[[1]; [2]; [3]]] [[[1]]]
           None None "recursive" false None (-1) None no_randomness)
    = Ok (cv, alpha, None).
Proof.
  do 2 eexists.
  unfold forward, me_forward, select_alpha, recursive_mode, recursive_step,
    q_step, assign_slice_col. cbn.
  unfold context_vector, squeeze1, bmm, matmul. cbn.
  reflexivity.
Qed.

Lemma recursive_mode_needs_one_query_witness :
  (1 <= 1)%nat /\ (1 <= n_heads_mono mocha_hard)%nat /\
  exists cv alpha,
    fst (forward logistic mocha_hard [[[-1]; [2]; [3]]] [[[1]; [2]; [3]]] [[[1]]]
           None None "recursive" false None (-1) None no_randomness)
    = Ok (cv, alpha, None) /\
    length (hd [] [[[1]]]) = 1%nat.
Proof.
  assert (H1 : (1 <= 1)%nat) by lia.
  assert (H2 : (1 <= n_heads_mono mocha_hard)%nat) by (simpl; lia).
  split; [exact H1|]. split; [exact H2|].
  destruct forward_recursive_example as [cv [alpha Hfw]].
  exists cv, alpha. split; [exact Hfw|].
  exact (recursive_mode_needs_one_query logistic mocha_hard [[[-1]; [2]; [3]]]
           [[[1]; [2]; [3]]] [[[1]]] None None false None (-1) None no_randomness
           cv alpha None H1 H2 Hfw).
Defined.

(** X14.  The chunk sizes a layer can be called with are 1, -1 and those
    above 1; the constructor accepts any, but with another one (0, or
    below -1) there is no chunk energy and no [beta] to weigh the values
    with, and the call raises.  When a call returns, [beta] is [None] for
    [chunk_size = 1] and a tensor of shape
    [[B, H_mono * H_chunk, qlen, klen]] otherwise. *)
Theorem forward_chunk_sizes (sigmoid : R -> R) (self : MoChA)
  (key value query : tensor3) (mask : option mask3) (aw_prev : option tensor4)
  (mode : string) (cache : bool) (trigger_point : option (list Z))
  (eps_wait : Z) (boundary_rightmost : option Z) (rnd : randomness)
  (cv : tensor3) (alpha : tensor4) (beta : option tensor4) :
  fst (forward sigmoid self key value query mask aw_prev mode cache trigger_point
         eps_wait boundary_rightmost rnd) = Ok (cv, alpha, beta) ->
  (chunk_size self = 1%Z /\ beta = None) \/
  ((chunk_size self = -1 \/ 1 < chunk_size self)%Z /\
   exists bt, beta = Some bt /\
     is_tensor4 (length key) (n_heads_mono self * n_heads_chunk self)
       (length (hd [] query)) (length (hd [] key)) bt = true).
Proof.
  intros Hfw.
  destruct (forward_inv _ _ _ _ _ _ _ _ _ _ _ _ _ _ _ _ Hfw)
    as [e_mono [alpha_masked [_ [_ [Hca [Hcv [_ Hbeta]]]]]]].
  unfold chunk_attention, uses_chunk in Hca.
  destruct (Z.gtb_spec (chunk_size self) 1) as [Hgt|Hle];
    [|destruct (Z.eqb_spec (chunk_size self) (-1)) as [Hmilk|Hnm]];
    cbn [orb] in Hca.
  - right. split; [lia|].
    destruct (chunk_energy self) as [ce|]; [|discriminate].
    cbn [fst] in Hca. bind_inv Hca. injection Hca as <-.
    eexists. split; [reflexivity|]. now apply Hbeta.
  - right. split; [lia|].
    destruct (chunk_energy self) as [ce|]; [|discriminate].
    cbn [fst] in Hca. bind_inv Hca. injection Hca as <-.
    eexists. split; [reflexivity|]. now apply Hbeta.
  - left. cbn [fst] in Hca. injection Hca as <-.
    split; [|reflexivity].
    unfold context_vector in Hcv. cbv zeta in Hcv.
    destruct (Z.eqb_spec (chunk_size self) 1) as [H1|H1]; [exact H1|].
    destruct (1 <? n_heads_mono self * n_heads_chunk self)%nat; discriminate.
Qed.

Lemma forward_chunk_sizes_witness :
  (chunk_size mocha_hard = 1%Z /\ @None tensor4 = None) \/
  ((chunk_size mocha_hard = -1 \/ 1 < chunk_size mocha_hard)%Z /\
   exists bt, None = Some bt /\
     is_tensor4 1 (n_heads_mono mocha_hard * n_heads_chunk mocha_hard) 1 3 bt = true).
Proof.
  exact (forward_chunk_sizes logistic mocha_hard [[[-1]; [-1]; [2]]]
           [[[1]; [2]; [3]]] [[[1]]] None None "hard" false None 1 None
           no_randomness [[[3]]] [[[[0; 0; 1]]]] None (forward_hard_example None)).
Defined.

(** ** The hard mode never goes back *)

Lemma setitem_inv (r r' : row) (idx : Z) (v : R) :
  setitem r idx v = Ok r' ->
  exists k, (k < length r)%nat /\ r' = set_nth k v r /\
            ((0 <= idx)%Z -> Z.of_nat k = idx).
Proof.
  unfold setitem. cbv zeta. intros H.
  destruct (Z.ltb_spec idx 0) as [Hneg|Hpos].
  - destruct (Z.leb_spec 0 (idx + Z.of_nat (length r)));
      destruct (Z.ltb_spec (idx + Z.of_nat (length r)) (Z.of_nat (length r)));
      cbn [andb] in H; try discriminate.
    injection H as <-. eexists. split; [|split; [reflexivity|]]; lia.
  - destruct (Z.leb_spec 0 idx); destruct (Z.ltb_spec idx (Z.of_nat (length r)));
      cbn [andb] in H; try discriminate.
    injection H as <-. eexists. split; [|split; [reflexivity|]]; lia.
Qed.

Lemma nth_set_nth_before {A : Type} (k j : nat) (v d : A) (r : list A) :
  (j < k)%nat -> (k < length r)%nat -> nth j (set_nth k v r) d = nth j r d.
Proof.
  intros Hjk Hk. unfold set_nth.
  rewrite app_nth1 by (rewrite length_firstn; lia).
  rewrite nth_firstn. destruct (Nat.ltb_spec j k); [reflexivity | lia].
Qed.

Lemma latency_head_left (first : bool) (eps_wait bt sl leftmost rightmost : Z)
  (a a' : row) (t : nat) :
  (0 < eps_wait)%Z -> (Z.of_nat t <= leftmost <= rightmost)%Z ->
  (forall j, (j < t)%nat -> nth j a 0 = 0) ->
  latency_head first false eps_wait bt sl leftmost rightmost a = Ok a' ->
  forall j, (j < t)%nat -> nth j a' 0 = 0.
Proof.
  intros Heps Hlr Ha H j Hj. unfold latency_head in H. rewrite !orb_true_r in H.
  destruct (is_zero (sum_list a)).
  - destruct (setitem_inv _ _ _ _ H) as [k [Hk [-> Hidx]]].
    rewrite nth_set_nth_before by lia. now apply Ha.
  - destruct (min_item (nonzero_cols a)) as [m|]; [|discriminate].
    cbn [bind] in H.
    destruct (m >=? leftmost + eps_wait)%Z.
    + destruct (setitem_inv _ _ _ _ H) as [k [Hk [-> Hidx]]].
      rewrite nth_set_nth_before by lia. apply nth_repeat.
    + injection H as <-. now apply Ha.
Qed.

Lemma latency_batch_left (eps_wait : Z) (br : option Z) (sl : Z)
  (rows rows' : list row) (t : nat) :
  (0 < eps_wait)%Z ->
  (forall a j, In a rows -> (j < t)%nat -> nth j a 0 = 0) ->
  latency_batch false eps_wait br sl rows = Ok rows' ->
  forall a' j, In a' rows' -> (j < t)%nat -> nth j a' 0 = 0.
Proof.
  intros Heps Hz H a' j Ha' Hj. unfold latency_batch in H.
  rewrite andb_false_l in H.
  destruct (is_zero (sum_list (concat rows))).
  - injection H as <-. now apply (Hz a' j).
  - destruct (min_item _) as [leftmost|] eqn:Hmin; [|discriminate].
    cbn [bind] in H.
    destruct (max_item _) as [rightmost|] eqn:Hmax; [|discriminate].
    cbn [bind] in H.
    destruct (min_item_In _ _ Hmin) as [Hlin Hlle].
    destruct (max_item_In _ _ Hmax) as [Hrin Hrle].
    assert (Hleft : (Z.of_nat t <= leftmost)%Z).
    { apply in_concat in Hlin. destruct Hlin as [l [Hl Hm]].
      apply in_map_iff in Hl. destruct Hl as [a [<- Ha]].
      apply nonzero_cols_In in Hm. destruct Hm as [k [-> Hk]].
      destruct (Nat.lt_ge_cases k t) as [Hlt|Hge]; [|lia].
      exfalso. apply Hk. now apply (Hz a k). }
    pose proof (Hrle _ Hlin) as Hlr.
    destruct (mapM_In _ _ _ _ H Ha') as [a [Ha Hhead]].
    assert (Hbounds : (Z.of_nat t <= leftmost <= rightmost)%Z) by lia.
    exact (latency_head_left _ _ _ _ _ _ a a' t Heps Hbounds
             (fun j0 Hj0 => Hz a j0 Ha Hj0) Hhead j Hj).
Qed.

Lemma cumsum_zero_before (aw : row) (t k : nat) :
  (forall j, (j < t)%nat -> nth j aw 0 = 0) -> (k < t)%nat ->
  nth k (cumsum aw) 0 = 0.
Proof.
  intros Ha Hk. destruct (Nat.lt_ge_cases k (length aw)) as [Hlt|Hge].
  - rewrite nth_cumsum by exact Hlt.
    rewrite (isum_ext _ _ (fun _ => 0)); [apply isum_zero|].
    intros j _. destruct (Nat.leb_spec j k); [apply Ha; lia | reflexivity].
  - apply nth_overflow. unfold cumsum. now rewrite length_cumsum_from.
Qed.

(** X15.  The hard mode never moves a boundary back: if in [aw_prev] no
    head of the batch element [b] has weight before the frame [t], then
    none has in the [alpha] the call returns, with or without latency
    control.  In particular an all-zero [aw_prev] (no boundary found at
    the last step) gives an all-zero [alpha]. *)
Theorem hard_mode_never_goes_back (sigmoid : R -> R) (self : MoChA)
  (key value query : tensor3) (mask : option mask3) (aw : tensor4)
  (cache : bool) (trigger_point : option (list Z)) (eps_wait : Z)
  (boundary_rightmost : option Z) (rnd : randomness)
  (cv : tensor3) (alpha : tensor4) (beta : option tensor4) (b t : nat) :
  is_tensor4 (length key) (n_heads_mono self) 1 (length (hd [] key)) aw = true ->
  (b < length key)%nat ->
  (forall h k, (k < t)%nat -> get4 aw b h 0 k = 0) ->
  fst (forward sigmoid self key value query mask (Some aw) "hard" cache
         trigger_point eps_wait boundary_rightmost rnd) = Ok (cv, alpha, beta) ->
  forall h i k, (k < t)%nat -> get4 alpha b h i k = 0.
Proof.
  intros Haw Hb Hprev Hfw h i k Hk.
  destruct (forward_inv _ _ _ _ _ _ _ _ _ _ _ _ _ _ _ _ Hfw)
    as [e_mono [alpha_masked [Hme [Hsel [_ [_ [Hal _]]]]]]].
  pose proof (me_forward_shape _ _ _ _ _ _ Hme) as He.
  unfold select_alpha in Hsel.
  change (String.eqb "hard" "recursive") with false in Hsel.
  change (String.eqb "hard" "parallel") with false in Hsel.
  change (String.eqb "hard" "hard") with true in Hsel.
  cbv beta iota zeta in Hsel.
  destruct (length (hd [] query) =? 1)%nat eqn:Hq; [|discriminate].
  apply Nat.eqb_eq in Hq. rewrite Hq in *. cbn [assert bind] in Hsel.
  match type of Hsel with
  | bind ?x _ = _ => destruct x as [alpha0|] eqn:Hsel0; [|discriminate]
  end.
  cbn [bind] in Hsel.
  match type of Hsel with
  | bind ?x _ = _ => destruct x as [al|] eqn:Hlat; [|discriminate]
  end.
  cbn [bind] in Hsel. injection Hsel as <- _.
  destruct (is_tensor4_inv _ _ _ _ _ He) as [Hle He3].
  destruct (is_tensor4_inv _ _ _ _ _ Haw) as [Hlaw Haw3].
  destruct (bcastM_nth_aligned _ _ _ _ b [] [] [] Hsel0) as [Hl0 Hb3];
    [shape_lia | shape_lia |].
  (* the rows of the selection before the latency control *)
  assert (Hrows0 : forall mt, In mt (nth b alpha0 []) ->
            exists r, mt = [r] /\ forall j, (j < t)%nat -> nth j r 0 = 0).
  { intros mt Hmt.
    destruct (bcastM_In _ _ _ _ _ Hb3 Hmt) as [em [am [Hem [Ham Hr]]]].
    destruct (is_mat_one _ _ (is_tensor3_In _ _ _ _ _ (He3 b Hb) Hem))
      as [e [-> _]].
    destruct (In_nth _ _ [] Ham) as [h' [_ Hh']].
    destruct (is_mat_one _ _ (is_tensor3_In _ _ _ _ _ (Haw3 b Hb) Ham))
      as [a [Ha _]].
    assert (Hza : forall j, (j < t)%nat -> nth j a 0 = 0).
    { intros j Hj. pose proof (Hprev h' j Hj) as Hg. unfold get4 in Hg.
      unfold tensor3, mat, row in *. rewrite Hh', Ha in Hg. exact Hg. }
    rewrite Ha, hard_select_row in Hr. injection Hr as <-. cbv zeta.
    eexists. split; [reflexivity|]. intros j Hj.
    apply nth_zip_zero_l; [intros; lra|].
    apply nth_zip_zero_r; [intros; lra|].
    now apply (cumsum_zero_before a t j). }
  (* and after it *)
  assert (Hrows : zero_at i k (nth b al [])).
  { unfold latency_control in Hlat. cbv zeta in Hlat.
    destruct (eps_wait >? 0)%Z eqn:Heps.
    - apply Z.gtb_lt in Heps.
      pose proof (mapM_nth _ alpha0 al b [] [] Hlat ltac:(shape_lia)) as Hbth.
      cbv beta in Hbth.
      match type of Hbth with
      | bind ?x _ = _ => destruct x as [rows'|] eqn:Hl; [|discriminate]
      end.
      cbn [bind] in Hbth. injection Hbth as Hbth.
      intros mt Hmt. unfold tensor3, mat, row in *. rewrite <- Hbth in Hmt.
      apply in_map_iff in Hmt. destruct Hmt as [a' [<- Ha']].
      destruct i as [|i]; [|destruct i, k; reflexivity]. cbn [nth].
      apply (latency_batch_left eps_wait boundary_rightmost _ _ rows' t Heps)
        with (2 := Hl) (3 := Ha'); [|exact Hk].
      intros a j Ha Hj. apply in_map_iff in Ha. destruct Ha as [mt [<- Hmt]].
      destruct (Hrows0 mt Hmt) as [r [-> Hz]]. now apply Hz.
    - injection Hlat as <-. intros mt Hmt.
      destruct (Hrows0 mt Hmt) as [r [-> Hz]].
      destruct i as [|i]; [now apply Hz | destruct i, k; reflexivity]. }
  unfold get4. now apply zero_at_get.
Qed.

Lemma forward_hard_from_boundary :
  fst (forward logistic mocha_hard [[[2]; [-1]; [2]]] [[[1]; [2]; [3]]] [[[1]]]
         None (Some [[[[0; 1; 0]]]]) "hard" false None 1 None no_randomness)
  = Ok ([[[3]]], [[[[0; 0; 1]]]], None).
Proof.
  unfold forward, me_forward, select_alpha, hard_select; cbn;
  unfold dot; cbn; rchoose;
  unfold latency_control, latency_batch, latency_head, nonzero_cols; cbn;
  rzero; cbn; rzero; cbn;
  unfold context_vector, squeeze1, bmm, matmul; cbn; unfold dot; cbn;
  repeat f_equal; lra.
Qed.

Lemma hard_mode_never_goes_back_witness :
  is_tensor4 1 (n_heads_mono mocha_hard) 1 3 [[[[0; 1; 0]]]] = true /\
  (0 < 1)%nat /\
  (forall h k, (k < 1)%nat -> get4 [[[[0; 1; 0]]]] 0 h 0 k = 0) /\
  forall h i k, (k < 1)%nat -> get4 [[[[0; 0; 1]]]] 0 h i k = 0.
Proof.
  assert (Hprev : forall h k, (k < 1)%nat -> get4 [[[[0; 1; 0]]]] 0 h 0 k = 0).
  { intros h k Hk. destruct k; [|lia]. destruct h as [|[|h]]; reflexivity. }
  split; [reflexivity|]. split; [lia|]. split; [exact Hprev|].
  exact (hard_mode_never_goes_back logistic mocha_hard [[[2]; [-1]; [2]]]
           [[[1]; [2]; [3]]] [[[1]]] None [[[[0; 1; 0]]]] false None 1 None
           no_randomness [[[3]]] [[[[0; 0; 1]]]] None 0 1 eq_refl (le_n 1) Hprev
           forward_hard_from_boundary).
Defined.

(** ** Masking changes the masked positions only *)

Lemma bcast_to_length {A B C : Type} (f : A -> B -> result C) (ms : list A)
  (ts : list B) (cs : list C) :
  bcast_to f ms ts = Ok cs -> length cs = length ts.
Proof.
  unfold bcast_to. intros H.
  destruct (Nat.eqb_spec (length ms) (length ts)) as [Heq|Hne].
  - apply mapM_length in H. rewrite length_zip_with in H. lia.
  - destruct ms as [|m [|m' ms]]; try discriminate.
    now apply mapM_length in H.
Qed.

Lemma masked_fill_entries (n_heads bs qlen klen : nat) (m : mask3)
  (e0 e : tensor4) :
  masked_fill_ (expand_mask n_heads m) e0 = Ok e ->
  is_mask3 bs qlen klen m = true -> is_tensor4 bs n_heads qlen klen e = true ->
  is_tensor4 bs n_heads qlen klen e0 = true /\
  forall b h i j, (b < bs)%nat -> (h < n_heads)%nat -> (i < qlen)%nat ->
    (j < klen)%nat ->
    get4 e b h i j
    = if nth j (nth i (nth b m []) []) true then get4 e0 b h i j else NEG_INF.
Proof.
  intros Hfill Hm He.
  destruct (is_mask3_inv _ _ _ _ Hm) as [Hmb Hmrows].
  destruct (is_tensor4_inv _ _ _ _ _ He) as [Heb He3].
  unfold masked_fill_ in Hfill.
  assert (Hl1 : length (expand_mask n_heads m) = length e)
    by (unfold expand_mask; rewrite length_map; lia).
  assert (Hlev : forall b h i, (b < bs)%nat -> (h < n_heads)%nat -> (i < qlen)%nat ->
    length (nth b e0 []) = n_heads /\
    length (nth h (nth b e0 []) []) = qlen /\
    length (nth i (nth h (nth b e0 []) []) []) = klen /\
    bcast_to (fun (mk : bool) (x : R) => Ok (if mk then x else NEG_INF))
      (nth i (nth b m []) []) (nth i (nth h (nth b e0 []) []) [])
    = Ok (nth i (nth h (nth b e []) []) [])).
  { intros b h i Hb Hh Hi.
    destruct (Hmrows b Hb) as [Hmq Hmk].
    destruct (is_tensor3_inv _ _ _ _ (He3 b Hb)) as [Heh He2].
    destruct (is_mat_inv _ _ _ (He2 h Hh)) as [Heq Hek].
    assert (Hb' : (b < length e)%nat) by lia.
    assert (Hexp : nth b (expand_mask n_heads m) [] = repeat (nth b m []) n_heads).
    { unfold expand_mask.
      transitivity (nth b (map (fun mb : list (list bool) => repeat mb n_heads) m)
                      (repeat [] n_heads)).
      - apply nth_indep. rewrite length_map. lia.
      - apply (map_nth (fun mb : list (list bool) => repeat mb n_heads)). }
    pose proof (bcast_to_nth _ _ _ _ b [] _ [] [] Hfill Hl1 Hb' Hexp) as H1.
    assert (Hl2 : length (repeat (nth b m []) n_heads) = length (nth b e []))
      by (rewrite repeat_length; lia).
    assert (Hh' : (h < length (nth b e []))%nat) by lia.
    assert (Hrep : nth h (repeat (nth b m []) n_heads) [] = nth b m [])
      by (apply nth_repeat_lt; exact Hh).
    pose proof (bcast_to_nth _ _ _ _ h [] _ [] [] H1 Hl2 Hh' Hrep) as H2.
    assert (Hl3 : length (nth b m []) = length (nth h (nth b e []) [])) by lia.
    assert (Hi' : (i < length (nth h (nth b e []) []))%nat) by lia.
    pose proof (bcast_to_nth _ _ _ _ i [] _ [] [] H2 Hl3 Hi' eq_refl) as H3.
    pose proof (bcast_to_length _ _ _ _ H1) as Hn1.
    pose proof (bcast_to_length _ _ _ _ H2) as Hn2.
    pose proof (bcast_to_length _ _ _ _ H3) as Hn3.
    pose proof (Hek i Hi) as Hki.
    repeat split; [shape_lia | shape_lia | shape_lia | exact H3]. }
  split.
  - pose proof (bcast_to_length _ _ _ _ Hfill) as Hn0.
    apply is_tensor4_intro; [shape_lia|]. intros b Hb.
    destruct n_heads as [|n'].
    { apply is_tensor3_intro; [|intros; lia].
      destruct (is_tensor3_inv _ _ _ _ (He3 b Hb)) as [Heh _].
      assert (Hb' : (b < length e)%nat) by lia.
      assert (Hexp : nth b (expand_mask 0 m) [] = repeat (nth b m []) 0).
      { unfold expand_mask.
        transitivity (nth b (map (fun mb : list (list bool) => repeat mb 0) m)
                        (repeat [] 0)).
        - apply nth_indep. rewrite length_map. lia.
        - apply (map_nth (fun mb : list (list bool) => repeat mb 0)). }
      pose proof (bcast_to_nth _ _ _ _ b [] _ [] [] Hfill Hl1 Hb' Hexp) as H1.
      pose proof (bcast_to_length _ _ _ _ H1). shape_lia. }
    apply is_tensor3_intro.
    + destruct qlen as [|q'].
      * (* no query position: the heads are read off the mask *)
        destruct (is_tensor3_inv _ _ _ _ (He3 b Hb)) as [Heh _].
        assert (Hb' : (b < length e)%nat) by lia.
        assert (Hexp : nth b (expand_mask (S n') m) []
                       = repeat (nth b m []) (S n')).
        { unfold expand_mask.
          transitivity (nth b (map (fun mb : list (list bool) => repeat mb (S n')) m)
                          (repeat [] (S n'))).
          - apply nth_indep. rewrite length_map. lia.
          - apply (map_nth (fun mb : list (list bool) => repeat mb (S n'))). }
        pose proof (bcast_to_nth _ _ _ _ b [] _ [] [] Hfill Hl1 Hb' Hexp) as H1.
        pose proof (bcast_to_length _ _ _ _ H1). shape_lia.
      * exact (proj1 (Hlev b 0%nat 0%nat Hb ltac:(lia) ltac:(lia))).
    + intros h Hh. apply is_mat_intro.
      * destruct qlen as [|q'].
        -- destruct (Hmrows b Hb) as [Hmq Hmk].
           destruct (is_tensor3_inv _ _ _ _ (He3 b Hb)) as [Heh He2].
           destruct (is_mat_inv _ _ _ (He2 h Hh)) as [Heq Hek].
           assert (Hb' : (b < length e)%nat) by lia.
           assert (Hexp : nth b (expand_mask (S n') m) []
                          = repeat (nth b m []) (S n')).
           { unfold expand_mask.
             transitivity (nth b (map (fun mb : list (list bool) =>
                                         repeat mb (S n')) m) (repeat [] (S n'))).
             - apply nth_indep. rewrite length_map. lia.
             - apply (map_nth (fun mb : list (list bool) => repeat mb (S n'))). }
           pose proof (bcast_to_nth _ _ _ _ b [] _ [] [] Hfill Hl1 Hb' Hexp) as H1.
           assert (Hl2 : length (repeat (nth b m []) (S n')) = length (nth b e []))
             by (rewrite repeat_length; lia).
           assert (Hh' : (h < length (nth b e []))%nat) by lia.
           assert (Hrep : nth h (repeat (nth b m []) (S n')) [] = nth b m [])
             by (apply nth_repeat_lt; exact Hh).
           pose proof (bcast_to_nth _ _ _ _ h [] _ [] [] H1 Hl2 Hh' Hrep) as H2.
           pose proof (bcast_to_length _ _ _ _ H2). shape_lia.
        -- exact (proj1 (proj2 (Hlev b h 0%nat Hb Hh ltac:(lia)))).
      * intros i Hi. exact (proj1 (proj2 (proj2 (Hlev b h i Hb Hh Hi)))).
  - intros b h i j Hb Hh Hi Hj.
    destruct (Hlev b h i Hb Hh Hi) as [_ [_ [Hlk H3]]].
    destruct (Hmrows b Hb) as [Hmq Hmk].
    pose proof (bcast_to_length _ _ _ _ H3) as Hn3.
    assert (Hl4 : length (nth i (nth b m []) [])
                  = length (nth i (nth h (nth b e []) []) []))
      by (rewrite (Hmk i ltac:(lia)); shape_lia).
    assert (Hj' : (j < length (nth i (nth h (nth b e []) []) []))%nat)
      by shape_lia.
    pose proof (bcast_to_nth _ _ _ _ j true _ 0 0 H3 Hl4 Hj' eq_refl) as H4.
    cbn beta in H4. injection H4 as H4. unfold get4. symmetry. exact H4.
Qed.

(** X16.  The mask of [MonotonicEnergy.forward] changes the masked
    positions only: when a call that computes the key afresh returns with
    a mask, the same call without the mask returns too, and the two
    energies agree wherever the mask is set, the first being [NEG_INF]
    wherever it is not. *)
Theorem me_forward_mask_only_masks (self : MonotonicEnergy)
  (key query : tensor3) (m : mask3) (e : tensor4) :
  fst (me_forward self key query (Some m) false) = Ok e ->
  exists e0,
    fst (me_forward self key query None false) = Ok e0 /\
    forall b h i j, (b < length key)%nat -> (h < me_n_heads self)%nat ->
      (i < length (hd [] query))%nat -> (j < length (hd [] key))%nat ->
      get4 e b h i j
      = if nth j (nth i (nth b m []) []) true then get4 e0 b h i j else NEG_INF.
Proof.
  intros H. unfold me_forward in *. cbv zeta in *.
  assert (Hpre : match me_key self with
                 | Some _ => negb false
                 | None => true
                 end = true) by (destruct (me_key self); reflexivity).
  rewrite Hpre in *.
  cbn [fst snd me_key me_set_cache me_mask me_n_heads me_atype me_r me_v me_d_k
         me_w_query me_scale bind] in *.
  destruct (is_mask3 (length key) (length (hd [] query)) (length (hd [] key)) m)
    eqn:Hm; [|discriminate].
  cbn [assert bind] in H.
  match type of H with
  | bind (masked_fill_ _ ?E) _ = _ => set (e0 := E) in *
  end.
  destruct (masked_fill_ (expand_mask (me_n_heads self) m) e0) as [e1|] eqn:Hfill;
    [|discriminate].
  cbn [bind] in H.
  destruct (is_tensor4 _ _ _ _ e1) eqn:Hs; [|discriminate].
  cbn [assert bind] in H. injection H as <-.
  destruct (masked_fill_entries _ _ _ _ _ _ _ Hfill Hm Hs) as [Hs0 Hent].
  exists e0. rewrite Hs0. cbn [assert bind]. split; [reflexivity | exact Hent].
Qed.

Lemma me_forward_masked_example :
  exists e,
    fst (me_forward mono_example [[[1]; [2]; [3]]] [[[1]]]
           (Some [[[true; true; false]]]) false) = Ok e.
Proof.
  eexists. unfold me_forward. cbn. unfold masked_fill_, bcast_to. cbn.
  reflexivity.
Qed.

Lemma me_forward_mask_only_masks_witness :
  exists e e0,
    fst (me_forward mono_example [[[1]; [2]; [3]]] [[[1]]]
           (Some [[[true; true; false]]]) false) = Ok e /\
    fst (me_forward mono_example [[[1]; [2]; [3]]] [[[1]]] None false) = Ok e0 /\
    forall b h i j, (b < 1)%nat -> (h < me_n_heads mono_example)%nat ->
      (i < 1)%nat -> (j < 3)%nat ->
      get4 e b h i j
      = if nth j (nth i (nth b [[[true; true; false]]] []) []) true
        then get4 e0 b h i j else NEG_INF.
Proof.
  destruct me_forward_masked_example as [e He].
  destruct (me_forward_mask_only_masks mono_example [[[1]; [2]; [3]]] [[[1]]]
              [[[true; true; false]]] e He) as [e0 [He0 Hent]].
  exists e, e0. split; [exact He|]. split; [exact He0 | exact Hent].
Defined.

(** ** The context vector of a layer with chunks *)

(** X17.  With a chunk size other than 1 every call that returns weighs
    the values with [beta], not with [alpha]: with one head in total the
    context vector is the beta-weighted sum of the values; with several
    heads it is the output layer applied to the concatenation, over the
    [H_mono * H_chunk] heads of beta, of the beta-weighted sums of the
    projected values of each head. *)
Theorem chunk_context_vector (sigmoid : R -> R) (self : MoChA)
  (key value query : tensor3) (mask : option mask3) (aw_prev : option tensor4)
  (mode : string) (cache : bool) (trigger_point : option (list Z))
  (eps_wait : Z) (boundary_rightmost : option Z) (rnd : randomness)
  (cv : tensor3) (alpha : tensor4) (beta : option tensor4) :
  chunk_size self <> 1%Z ->
  fst (forward sigmoid self key value query mask aw_prev mode cache trigger_point
         eps_wait boundary_rightmost rnd) = Ok (cv, alpha, beta) ->
  exists bt, beta = Some bt /\
    if (1 <? n_heads_mono self * n_heads_chunk self)%nat then
      exists heads,
        bcastM (bcastM matmul) bt
          (map (fun vb => split_heads (n_heads_mono self * n_heads_chunk self)
                            (d_k self) (map (w_value self) vb)) value) = Ok heads /\
        cv = map (fun cvb => map (w_out self) (merge_heads cvb)) heads
    else
      cv = zip_with weighted_sum (map (fun bb => nth 0 bb []) bt) value.
Proof.
  intros Hcs Hfw.
  destruct (forward_inv _ _ _ _ _ _ _ _ _ _ _ _ _ _ _ _ Hfw)
    as [e_mono [alpha_masked [_ [_ [_ [Hcv _]]]]]].
  unfold context_vector in Hcv. cbv zeta in Hcv.
  destruct (Z.eqb_spec (chunk_size self) 1) as [H1|_]; [contradiction|].
  destruct (1 <? n_heads_mono self * n_heads_chunk self)%nat.
  - destruct beta as [bt|]; [|discriminate]. cbn [bind] in Hcv.
    exists bt. split; [reflexivity|].
    match type of Hcv with
    | bind ?x _ = _ => destruct x as [heads|] eqn:Hheads; [|discriminate]
    end.
    cbn [bind] in Hcv. injection Hcv as <-.
    exists heads. split; reflexivity.
  - destruct beta as [bt|]; [|discriminate]. cbn [bind] in Hcv.
    exists bt. split; [reflexivity|].
    destruct (squeeze1 bt) as [b3|] eqn:Hsq; [|discriminate].
    cbn [bind] in Hcv.
    apply bmm_weighted_sum in Hcv. apply squeeze1_heads in Hsq. now subst.
Qed.

Lemma chunk_context_vector_witness :
  chunk_size mocha_chunk <> 1%Z /\
  exists cv b0 b1,
    fst (forward logistic32 mocha_chunk [[[-1]; [2]; [3]]] [[[1]; [2]; [3]]] [[[1]]]
           (Some [[[true; true; false]]]) None "hard" false None 1 None
           no_randomness)
    = Ok (cv, [[[[0; 1; 0]]]], Some [[[[b0; b1; 0]]]]) /\
    exists bt, Some [[[[b0; b1; 0]]]] = Some bt /\
      if (1 <? n_heads_mono mocha_chunk * n_heads_chunk mocha_chunk)%nat then
        exists heads,
          bcastM (bcastM matmul) bt
            (map (fun vb => split_heads
                              (n_heads_mono mocha_chunk * n_heads_chunk mocha_chunk)
                              (d_k mocha_chunk) (map (w_value mocha_chunk) vb))
                 [[[1]; [2]; [3]]]) = Ok heads /\
          cv = map (fun cvb => map (w_out mocha_chunk) (merge_heads cvb)) heads
      else
        cv = zip_with weighted_sum (map (fun bb => nth 0 bb []) bt) [[[1]; [2]; [3]]].
Proof.
  assert (Hcs : chunk_size mocha_chunk <> 1%Z) by (simpl; lia).
  split; [exact Hcs|].
  destruct forward_masked_example as [cv [b0 [b1 Hfw]]].
  exists cv, b0, b1. split; [exact Hfw|].
  exact (chunk_context_vector logistic32 mocha_chunk [[[-1]; [2]; [3]]]
           [[[1]; [2]; [3]]] [[[1]]] (Some [[[true; true; false]]]) None "hard"
           false None 1 None no_randomness cv [[[[0; 1; 0]]]]
           (Some [[[[b0; b1; 0]]]]) Hcs Hfw).
Defined.

(** ** The random draws a call uses *)

(** X18.  With [chunk_size = 1] the two dropouts have no effect, in any
    mode and also in training: head dropout only changes the copy of
    alpha that the chunkwise attention would read, and attention dropout
    only [beta]; the context vector is computed from [alpha] itself.  The
    result depends on the random draws through the noise on the energies
    only, and in hard mode on none of them. *)
Theorem chunk_size_one_ignores_dropout (sigmoid : R -> R) (self : MoChA)
  (key value query : tensor3) (mask : option mask3) (aw_prev : option tensor4)
  (mode : string) (cache : bool) (trigger_point : option (list Z))
  (eps_wait : Z) (boundary_rightmost : option Z) (rnd : randomness) :
  chunk_size self = 1%Z ->
  (forall head_draw' drop_factor',
     fst (forward sigmoid self key value query mask aw_prev mode cache
            trigger_point eps_wait boundary_rightmost
            {| noise := noise rnd; head_draw := head_draw';
               drop_factor := drop_factor' |})
     = fst (forward sigmoid self key value query mask aw_prev mode cache
              trigger_point eps_wait boundary_rightmost rnd)) /\
  (forall rnd',
     fst (forward sigmoid self key value query mask aw_prev "hard" cache
            trigger_point eps_wait boundary_rightmost rnd')
     = fst (forward sigmoid self key value query mask aw_prev "hard" cache
              trigger_point eps_wait boundary_rightmost rnd)).
Proof.
  intros Hcs.
  assert (Hchunk : forall am r,
            chunk_attention self key query mask cache am r
            = (Ok None, chunk_energy self)).
  { intros am r. unfold chunk_attention, uses_chunk. rewrite Hcs. reflexivity. }
  split.
  - intros hd' df'. unfold forward. cbv zeta.
    destruct (fst (me_forward (monotonic_energy self) key query mask cache))
      as [e_mono|]; [|reflexivity].
    unfold select_alpha.
    destruct (String.eqb mode "recursive"); [|destruct (String.eqb mode "parallel")].
    + cbv zeta. unfold add_gaussian_noise. cbn [noise].
      destruct (bcastM _ _ _) as [al|]; [|reflexivity].
      cbn [bind fst]. now rewrite !Hchunk.
    + cbv zeta. unfold add_gaussian_noise. cbn [noise].
      destruct (bcastM _ _ _) as [al|]; [|reflexivity].
      cbn [bind fst]. now rewrite !Hchunk.
    + destruct (if String.eqb mode "hard" then _ else _) as [[al am]|];
        [|reflexivity].
      cbn [fst]. now rewrite !Hchunk.
  - intros rnd'. unfold forward. cbv zeta.
    destruct (fst (me_forward (monotonic_energy self) key query mask cache))
      as [e_mono|]; [|reflexivity].
    unfold select_alpha.
    change (String.eqb "hard" "recursive") with false.
    change (String.eqb "hard" "parallel") with false.
    change (String.eqb "hard" "hard") with true.
    cbv beta iota.
    match goal with
    | |- context [bind ?x ?k] =>
        match x with
        | assert _ => destruct (bind x k) as [[al am]|]; [|reflexivity]
        end
    end.
    cbn [fst]. now rewrite !Hchunk.
Qed.

Lemma chunk_size_one_ignores_dropout_witness :
  chunk_size mocha_hard = 1%Z /\
  (forall head_draw' drop_factor',
     fst (forward logistic mocha_hard [[[-1]; [-1]; [2]]] [[[1]; [2]; [3]]] [[[1]]]
            None None "parallel" false None 1 None
            {| noise := noise no_randomness; head_draw := head_draw';
               drop_factor := drop_factor' |})
     = fst (forward logistic mocha_hard [[[-1]; [-1]; [2]]] [[[1]; [2]; [3]]]
              [[[1]]] None None "parallel" false None 1 None no_randomness)) /\
  (forall rnd',
     fst (forward logistic mocha_hard [[[-1]; [-1]; [2]]] [[[1]; [2]; [3]]] [[[1]]]
            None None "hard" false None 1 None rnd')
     = fst (forward logistic mocha_hard [[[-1]; [-1]; [2]]] [[[1]; [2]; [3]]]
              [[[1]]] None None "hard" false None 1 None no_randomness)).
Proof.
  split; [reflexivity|].
  exact (chunk_size_one_ignores_dropout logistic mocha_hard [[[-1]; [-1]; [2]]]
           [[[1]; [2]; [3]]] [[[1]]] None None "parallel" false None 1 None
           no_randomness eq_refl).
Defined.

(** ** The chunk of one boundary *)

Lemma isum_only (n t : nat) (f : nat -> R) :
  (t < n)%nat -> (forall k, (k < n)%nat -> k <> t -> f k = 0) -> isum n f = f t.
Proof.
  induction n as [|n IH]; intros Ht Hf; [lia|].
  rewrite isum_last. destruct (Nat.eq_dec t n) as [->|Hne].
  - rewrite (isum_ext n f (fun _ => 0)); [rewrite isum_zero; lra|].
    intros k Hk. apply Hf; lia.
  - rewrite IH by (try lia; intros k Hk Hkt; apply Hf; lia).
    rewrite (Hf n) by lia. lra.
Qed.

(** X19.  The chunkwise attention of a hard boundary: when alpha has its
    one boundary at the frame [t], the row of beta is the softmax of the
    energies over the chunk of [t] (the [chunk_size] frames that end at
    [t], cut at the start of the row; all frames up to [t] with infinite
    lookback), computed with the shifted and clamped exponentials
    [softmax_exp], times [sharpening_factor]; it is zero outside the chunk. *)
Theorem chunk_row_at_boundary (chunk_size : Z) (sharpening_factor : R)
  (klen t : nat) (e beta : row) :
  (chunk_size = -1 \/ 1 <= chunk_size)%Z -> length e = klen -> (t < klen)%nat ->
  chunk_row chunk_size sharpening_factor (one_hot klen t) e = Ok beta ->
  length beta = klen /\
  forall j, (j < klen)%nat ->
    nth j beta 0
    = if in_chunk chunk_size j t
      then sharpening_factor * nth j (softmax_exp e) 0 / chunk_denominator chunk_size e t
      else 0.
Proof.
  intros _ Hlen Ht H.
  assert (Hlen' : length e = length (one_hot klen t))
    by (now rewrite length_one_hot).
  destruct (chunk_row_entries _ _ _ _ _ Hlen' H) as [Hlb Hnth].
  rewrite length_one_hot in *. split; [exact Hlb|].
  intros j Hj. rewrite (Hnth j Hj).
  assert (Hzero : forall k, (k < klen)%nat -> k <> t ->
            (if in_chunk chunk_size j k
             then nth k (one_hot klen t) 0 * sharpening_factor
                  / chunk_denominator chunk_size e k
             else 0) = 0).
  { intros k Hk Hkt. rewrite nth_one_hot by exact Hk.
    destruct (Nat.eqb_spec k t); [contradiction|].
    destruct (in_chunk chunk_size j k); [unfold Rdiv; ring | reflexivity]. }
  rewrite (isum_only klen t _ Ht Hzero).
  rewrite nth_one_hot by exact Ht. rewrite Nat.eqb_refl.
  destruct (in_chunk chunk_size j t); [unfold Rdiv; ring | ring].
Qed.

Lemma chunk_row_at_boundary_witness :
  (2 = -1 \/ 1 <= 2)%Z /\ length [0; 1; 0] = 3%nat /\ (1 < 3)%nat /\
  exists beta,
    chunk_row 2 1 (one_hot 3 1) [0; 1; 0] = Ok beta /\
    length beta = 3%nat /\
    forall j, (j < 3)%nat ->
      nth j beta 0
      = if in_chunk 2 j 1
        then 1 * nth j (softmax_exp [0; 1; 0]) 0 / chunk_denominator 2 [0; 1; 0] 1
        else 0.
Proof.
  assert (Hcs : (2 = -1 \/ 1 <= 2)%Z) by (right; lia).
  split; [exact Hcs|]. split; [reflexivity|]. split; [lia|].
  destruct chunk_row_example as [beta Hb].
  change (one_hot 3 1) with [0; 1; 0].
  exists beta. split; [exact Hb|].
  exact (chunk_row_at_boundary 2 1 3 1 [0; 1; 0] beta Hcs eq_refl ltac:(lia) Hb).
Defined.

(** ** Evaluation mode *)

Lemma zip_with_ext {A B C : Type} (f g : A -> B -> C) (xs : list A) (ys : list B) :
  (forall a b, f a b = g a b) -> zip_with f xs ys = zip_with g xs ys.
Proof.
  intros Hfg. revert ys.
  induction xs as [|x xs IH]; intros [|y ys]; cbn; try reflexivity.
  now rewrite Hfg, IH.
Qed.

Lemma mapi_ext {A B : Type} (f g : nat -> A -> B) (l : list A) :
  (forall i a, f i a = g i a) -> mapi f l = mapi g l.
Proof. intros Hfg. unfold mapi. now apply zip_with_ext. Qed.

Lemma add_gaussian_noise_ext (rnd1 rnd2 : randomness) (xs : tensor4) :
  (forall b h i j, noise rnd1 b h i j = noise rnd2 b h i j) ->
  add_gaussian_noise rnd1 xs = add_gaussian_noise rnd2 xs.
Proof.
  intros Hn. unfold add_gaussian_noise, mapi4.
  apply mapi_ext; intros b tb. apply mapi_ext; intros h th.
  apply mapi_ext; intros i ti. apply mapi_ext; intros j x.
  now rewrite Hn.
Qed.

Lemma head_dropout_eval (self : MoChA) (rnd : randomness) (alpha : tensor4) :
  training self = false -> head_dropout self rnd alpha = alpha.
Proof.
  intros Ht. unfold head_dropout. rewrite Ht, andb_false_r. reflexivity.
Qed.

Lemma attention_dropout_eval (self : MoChA) (rnd : randomness) (beta : tensor4) :
  training self = false -> attention_dropout self rnd beta = beta.
Proof. intros Ht. unfold attention_dropout. now rewrite Ht. Qed.

Lemma head_dropout_eval_bind (self : MoChA) (rnd : randomness)
  (r : result tensor4) :
  training self = false ->
  (alpha <- r ;; Ok (alpha, head_dropout self rnd alpha))
  = (alpha <- r ;; Ok (alpha, alpha)).
Proof.
  intros Ht. destruct r as [alpha | err]; cbn; [|reflexivity].
  now rewrite head_dropout_eval.
Qed.

Lemma attention_dropout_eval_bind (self : MoChA) (rnd1 rnd2 : randomness)
  (r : result tensor4) (f : tensor4 -> result tensor4) :
  training self = false ->
  (e <- r ;; beta <- f e ;; Ok (Some (attention_dropout self rnd1 beta)))
  = (e <- r ;; beta <- f e ;; Ok (Some (attention_dropout self rnd2 beta))).
Proof.
  intros Ht. destruct r as [e | err]; cbn; [|reflexivity].
  destruct (f e) as [beta | err]; cbn; [|reflexivity].
  now rewrite !attention_dropout_eval by exact Ht.
Qed.

(** X20.  A layer in evaluation mode ([training] false) applies neither
    head dropout nor attention dropout: the whole result of [forward], the
    caches included, is the same for all random draws in the hard mode,
    and in the other modes it depends on the draws only through the
    gaussian noise on the monotonic energies, which [forward] adds in
    evaluation mode too. *)
Theorem eval_mode_draws_only_noise (sigmoid : R -> R) (self : MoChA)
  (key value query : tensor3) (mask : option mask3) (aw_prev : option tensor4)
  (mode : string) (cache : bool) (trigger_point : option (list Z))
  (eps_wait : Z) (boundary_rightmost : option Z) (rnd1 rnd2 : randomness) :
  training self = false ->
  (mode = "hard"%string \/
   forall b h i j, noise rnd1 b h i j = noise rnd2 b h i j) ->
  forward sigmoid self key value query mask aw_prev mode cache trigger_point
    eps_wait boundary_rightmost rnd1
  = forward sigmoid self key value query mask aw_prev mode cache trigger_point
      eps_wait boundary_rightmost rnd2.
Proof.
  intros Ht Hmode.
  assert (Hsel : forall qlen klen e_mono aw,
            select_alpha sigmoid self mode qlen klen e_mono aw trigger_point
              eps_wait boundary_rightmost rnd1
            = select_alpha sigmoid self mode qlen klen e_mono aw trigger_point
                eps_wait boundary_rightmost rnd2).
  { intros qlen klen e_mono aw. unfold select_alpha.
    destruct Hmode as [-> | Hn].
    - reflexivity.
    - rewrite (add_gaussian_noise_ext rnd1 rnd2 e_mono Hn).
      destruct (String.eqb mode "recursive"); [reflexivity|].
      destruct (String.eqb mode "parallel"); [|reflexivity].
      rewrite !head_dropout_eval_bind by exact Ht. reflexivity. }
  assert (Hchunk : forall alpha_masked,
            chunk_attention self key query mask cache alpha_masked rnd1
            = chunk_attention self key query mask cache alpha_masked rnd2).
  { intros am. unfold chunk_attention.
    destruct (uses_chunk (chunk_size self)); [|reflexivity].
    destruct (chunk_energy self) as [ce|]; [|reflexivity].
    f_equal.
    exact (attention_dropout_eval_bind self rnd1 rnd2
             (fst (ce_forward ce key query mask cache))
             (fun e_chunk => efficient_chunkwise_attention am e_chunk mask
                (chunk_size self) (n_heads_chunk self) (sharpening_factor self)
                None) Ht). }
  unfold forward. cbv zeta.
  destruct (fst (me_forward (monotonic_energy self) key query mask cache));
    [|reflexivity].
  rewrite Hsel.
  destruct (select_alpha _ _ _ _ _ _ _ _ _ _ rnd2) as [[alpha am] | err];
    [|reflexivity].
  now rewrite Hchunk.
Qed.

Lemma eval_mode_draws_only_noise_witness :
  training mocha_hard = false /\
  forward logistic mocha_hard [[[1]; [1]; [3]]] [[[1]; [1]; [1]]] [[[3]]] None
    (Some [[[[0; 0; 1]]]]) "hard" false None 0 None no_randomness
  = forward logistic mocha_hard [[[1]; [1]; [3]]] [[[1]; [1]; [1]]] [[[3]]] None
      (Some [[[[0; 0; 1]]]]) "hard" false None 0 None
      {| noise := fun _ _ _ _ => 1; head_draw := fun _ => 0;
         drop_factor := fun _ _ _ _ => 0 |}.
Proof.
  split; [reflexivity|].
  apply eval_mode_draws_only_noise; [reflexivity | left; reflexivity].
Defined.
